(** * CraftWorld: the voxel core of [src/App.tsx]

    A shallow embedding of the world generator, the face-culling batcher,
    the block raycaster, the break/place click handler and the per-frame
    player physics of [src/App.tsx], and around them of the block
    highlight, the materials and bounding boxes of the instanced groups,
    the world map, the day and night cycle with its fog and its clock, and
    the shortcuts, the wheel and the game clock of the application,
    followed by the properties proved about them.

    Conventions of the embedding.
    - A JavaScript [number] that holds a coordinate of a block is a [Z].
      Every other [number] is an exact rational, [Qc] (canonical
      fractions, so that numeric equality is [=]); rounding of IEEE
      doubles is not modelled, with one exception: the counter of the
      raycast's march is the binary64 double it is in the source, since
      its rounding decides how many rounds the march makes (121 for the
      reach of 6, where the exact sum would give 120).
    - The block store [Map<string, BlockType>] is a [gmap] from keys to
      block types.  The source builds every key with [toKey] (or the same
      template string) from three integers and reads it back with
      [fromKey]; the embedding keeps the three integers as the key, and
      [KeyString] has the strings themselves, with the proof that they
      stand one to one for the integers.
    - Functions of libraries ([simplex-noise] samplers, [Math.sqrt],
      [Math.pow], [Math.sin], [Math.cos], the colours of [THREE.Color])
      are section variables; the one square root that is only compared
      with a constant is compared on the squares. *)

From Stdlib Require Import ZArith QArith Qcanon Qround Qcabs Lia Lqa Ascii String.
From stdpp Require Import base numbers list gmap strings pretty.
From Corelib Require PrimFloat.

Local Open Scope Z_scope.

(** ** Numbers *)

Abbreviation number := Qc (only parsing).

Definition num (q : Q) : number := Q2Qc q.
Definition ofZ (n : Z) : number := Qc_of_Z n.

Definition Math_floor (x : number) : Z := Qfloor x.
(** [Math.round] rounds to the nearest integer, a tie towards +infinity. *)
Definition Math_round (x : number) : Z := Qfloor (x + num (1 # 2))%Qc.
Definition Math_abs (x : number) : number := Qcabs x.
Definition Math_max (x y : number) : number := if decide (x < y)%Qc then y else x.
Definition Math_min (x y : number) : number := if decide (y < x)%Qc then y else x.

Definition ltb (x y : number) : bool := bool_decide (x < y)%Qc.
Definition leb (x y : number) : bool := bool_decide (x ≤ y)%Qc.

(** The double of a whole number, by its binary digits: exact below 2^53. *)
Fixpoint double_pos (p : positive) : PrimFloat.float :=
  match p with
  | xH => PrimFloat.one
  | xO p => PrimFloat.mul PrimFloat.two (double_pos p)
  | xI p =>
      PrimFloat.add (PrimFloat.mul PrimFloat.two (double_pos p)) PrimFloat.one
  end.

(** The double a number is, where the embedding keeps one: the quotient,
    rounded once, of its numerator and denominator, so the binary64
    nearest to it when both are below 2^53.  [double 6] is 6 and
    [double 0.05] is the double the literal [0.05] is read as. *)
Definition double (x : number) : PrimFloat.float :=
  match Qnum x with
  | Z0 => PrimFloat.zero
  | Zpos n => PrimFloat.div (double_pos n) (double_pos (Qden x))
  | Zneg n => PrimFloat.opp (PrimFloat.div (double_pos n) (double_pos (Qden x)))
  end.

(** ** Types *)

Inductive BlockType :=
  | grass | dirt | stone | wood | leaves | sand | glass | water | bedrock.

Global Instance BlockType_eq_dec : EqDecision BlockType.
Proof. solve_decision. Defined.

Definition BlockType_index (t : BlockType) : nat :=
  match t with
  | grass => 0 | dirt => 1 | stone => 2 | wood => 3 | leaves => 4
  | sand => 5 | glass => 6 | water => 7 | bedrock => 8
  end%nat.

(** The order of the hotbar, which is also the order of the type's variants. *)
Definition HOTBAR_BLOCKS : list BlockType :=
  [grass; dirt; stone; wood; leaves; sand; glass; water; bedrock].

Global Program Instance BlockType_countable : Countable BlockType :=
  inj_countable' BlockType_index (λ n, default grass (HOTBAR_BLOCKS !! n)) _.
Next Obligation. by intros []. Qed.

Inductive Biome := forest | plains | desert.

Global Instance Biome_eq_dec : EqDecision Biome.
Proof. solve_decision. Defined.

(** ** Constants *)

Definition WORLD_SIZE : Z := 64.
Definition PLAYER_HEIGHT : number := num (16 # 10).
Definition PLAYER_RADIUS : number := num (3 # 10).
Definition GRAVITY : number := ofZ 28.
Definition JUMP_FORCE : number := ofZ 9.
Definition WALK_SPEED : number := ofZ 6.
Definition FLY_SPEED : number := ofZ 16.
Definition SPRINT_MULTIPLIER : number := num (16 # 10).
Definition REACH_DISTANCE : number := ofZ 6.

(** ** Helpers: keys of the block store *)

(** A key, kept as the coordinate it is the string of. *)
Definition Key : Type := Z * Z * Z.

Definition toKey (x y z : Z) : Key := (x, y, z).
Definition fromKey (key : Key) : Z * Z * Z := key.

(** The keys as the source writes them, strings.  The strings of integer
    coordinates stand one to one for the coordinates, which is what lets
    the embedding keep the coordinate as the key; [storeOfStrings] is the
    store with its keys written out. *)
Module KeyString.

(** [`${x},${y},${z}`]: the decimal numerals of three integers. *)
Definition toKey (x y z : Z) : string :=
  pretty x +:+ "," +:+ pretty y +:+ "," +:+ pretty z.

(** [key.split(',')] *)
Fixpoint split (sep : ascii) (s : string) : list string :=
  match s with
  | EmptyString => [EmptyString]
  | String c s =>
      if decide (c = sep) then EmptyString :: split sep s
      else match split sep s with
           | part :: parts => String c part :: parts
           | [] => [String c EmptyString]
           end
  end.

(** The value of a decimal digit. *)
Definition digit (c : ascii) : option N :=
  (if decide (c = "0") then Some 0 else if decide (c = "1") then Some 1
   else if decide (c = "2") then Some 2 else if decide (c = "3") then Some 3
   else if decide (c = "4") then Some 4 else if decide (c = "5") then Some 5
   else if decide (c = "6") then Some 6 else if decide (c = "7") then Some 7
   else if decide (c = "8") then Some 8 else if decide (c = "9") then Some 9
   else None)%char%N.

(** The value of the longest run of digits [s] starts with, after the
    digits of value [acc] already read; none when no digit was read. *)
Fixpoint digits (acc : N) (seen : bool) (s : string) : option N :=
  match s with
  | String c s' =>
      match digit c with
      | Some d => digits (acc * 10 + d)%N true s'
      | None => if seen then Some acc else None
      end
  | EmptyString => if seen then Some acc else None
  end.

(** [parseInt] on a string that starts with neither white space nor a
    radix prefix: a sign, then digits; [None] is [NaN]. *)
Definition parseInt (s : string) : option Z :=
  match s with
  | String c s' =>
      if decide (c = "-"%char) then (λ n, - Z.of_N n) <$> digits 0 false s'
      else if decide (c = "+"%char) then Z.of_N <$> digits 0 false s'
      else Z.of_N <$> digits 0 false s
  | EmptyString => None
  end.

(** [parts[i]] of a missing part is [undefined], which parses to [NaN]. *)
Definition fromKey (key : string) : option Z * option Z * option Z :=
  let parts := split "," key in
  (parts !! 0%nat ≫= parseInt, parts !! 1%nat ≫= parseInt, parts !! 2%nat ≫= parseInt).

End KeyString.

(** ** World generation *)

Record Tree := mkTree { tree_x : Z; tree_z : Z; tree_h : Z }.

Record WorldData := mkWorld {
  blocks : gmap Key BlockType;
  heightMap : gmap (Z * Z) Z;
}.

(** The state of the column loop of [generateWorld]. *)
Record GenState := mkGen {
  gen_blocks : gmap Key BlockType;
  gen_heightMap : gmap (Z * Z) Z;
  gen_treePositions : list Tree;
}.

Section WorldGeneration.
(** The three samplers [createNoise2D] returns. *)
Variables noise2D noise2D_b noise2D_c : number → number → number.

(** The octave loop of [fbm]: [i] runs over [octaves] rounds. *)
Fixpoint fbm_loop (octaves : nat) (x z lacunarity gain : number)
    (sum amp freq maxAmp : number) : number * number :=
  match octaves with
  | O => (sum, maxAmp)
  | S i =>
      fbm_loop i x z lacunarity gain
        (sum + noise2D (x * freq) (z * freq) * amp)%Qc
        (amp * gain)%Qc (freq * lacunarity)%Qc (maxAmp + amp)%Qc
  end.

Definition fbm (x z : number) (octaves : nat) (lacunarity gain : number) : number :=
  let '(sum, maxAmp) := fbm_loop octaves x z lacunarity gain 0 1 1 0 in
  (sum / maxAmp)%Qc.

Definition getTerrainHeight (x z : Z) : Z :=
  let scale := num (15 # 1000) in
  let h := fbm (ofZ x * scale) (ofZ z * scale) 4 (ofZ 2) (num (5 # 10)) in
  let mountains :=
    (Math_max 0
       (fbm (ofZ x * scale * num (5 # 10) + ofZ 100)
            (ofZ z * scale * num (5 # 10) + ofZ 100) 3 (ofZ 2) (num (6 # 10)))
     * ofZ 8)%Qc in
  Math_floor (h * ofZ 6 + ofZ 8 + mountains)%Qc.

Definition getBiome (x z : Z) : Biome :=
  let val := noise2D_b (ofZ x * num (8 # 1000) + ofZ 500)%Qc
                       (ofZ z * num (8 # 1000) + ofZ 500)%Qc in
  if ltb val (num (-25 # 100)) then desert
  else if ltb (num (2 # 10)) val then forest
  else plains.

Definition shouldPlaceTree (x z : Z) (biome : Biome) : bool :=
  let treeNoise := noise2D_c (ofZ x * num (5 # 10) + ofZ 1000)%Qc
                             (ofZ z * num (5 # 10) + ofZ 1000)%Qc in
  match biome with
  | forest => ltb (num (7 # 10)) treeNoise
  | plains => ltb (num (88 # 100)) treeNoise
  | desert => false
  end.

(** The block type the terrain loop picks for layer [y] of a column. *)
Definition terrainType (height : Z) (biome : Biome) (y : Z) : BlockType :=
  if decide (y = height) then
    (if decide (biome = desert) then sand else grass)
  else if decide (y > height - 3) then
    (if decide (biome = desert) then sand else dirt)
  else stone.

(** [for (let y = 1; y <= height; y++) blocks.set(..., type)] *)
Definition fillTerrain (x z height : Z) (biome : Biome)
    (blocks : gmap Key BlockType) : gmap Key BlockType :=
  foldl (λ blocks y, <[toKey x y z := terrainType height biome y]> blocks)
        blocks (seqZ 1 height).

(** [for (let y = height + 1; y <= 5; y++) blocks.set(..., 'water')] *)
Definition fillWater (x z height : Z)
    (blocks : gmap Key BlockType) : gmap Key BlockType :=
  foldl (λ blocks y, <[toKey x y z := water]> blocks)
        blocks (seqZ (height + 1) (5 - height)).

(** The body of the two column loops, for the column [(x, z)]. *)
Definition generateColumn (st : GenState) (x z : Z) : GenState :=
  let height := getTerrainHeight x z in
  let biome := getBiome x z in
  let heightMap := <[(x, z) := height]> (gen_heightMap st) in
  let blocks := <[toKey x 0 z := bedrock]> (gen_blocks st) in
  let blocks := fillTerrain x z height biome blocks in
  let '(blocks, heightMap) :=
    if decide (height < 5)
    then (fillWater x z height blocks, <[(x, z) := 5]> heightMap)
    else (blocks, heightMap) in
  let treePositions :=
    if bool_decide (height >= 5) && negb (bool_decide (biome = desert))
       && shouldPlaceTree x z biome
    then gen_treePositions st ++ [mkTree x z height]
    else gen_treePositions st in
  mkGen blocks heightMap treePositions.

(** [for x in [-WORLD_SIZE, WORLD_SIZE)], and inside it the same for [z]. *)
Definition worldRange : list Z := seqZ (- WORLD_SIZE) (2 * WORLD_SIZE).

Definition generateColumns (st : GenState) : GenState :=
  foldl (λ st x, foldl (λ st z, generateColumn st x z) st worldRange)
        st worldRange.

Definition leafRadius : Z := 2.

(** [Math.sqrt(lx*lx + ly*ly + lz*lz) <= leafRadius + 0.5], decided on the
    squares: both sides are non-negative. *)
Definition inLeafSphere (lx ly lz : Z) : bool :=
  leb (ofZ (lx * lx + ly * ly + lz * lz))
      ((ofZ leafRadius + num (5 # 10)) * (ofZ leafRadius + num (5 # 10)))%Qc.

Definition trunkHeightOf (tree : Tree) : Z :=
  4 + Math_floor (Math_abs (noise2D_c (ofZ (tree_x tree) * num (73 # 10))%Qc
                                      (ofZ (tree_z tree) * num (73 # 10))%Qc)
                  * ofZ 3)%Qc.

(** [for (let y = 0; y < trunkHeight; y++) blocks.set(..., 'wood')] *)
Definition placeTrunk (tree : Tree) (trunkHeight : Z)
    (blocks : gmap Key BlockType) : gmap Key BlockType :=
  let baseY := tree_h tree + 1 in
  foldl (λ blocks y, <[toKey (tree_x tree) (baseY + y) (tree_z tree) := wood]> blocks)
        blocks (seqZ 0 trunkHeight).

(** The body of the innermost leaf loop. *)
Definition placeLeaf (tree : Tree) (leafCenter lx ly lz : Z)
    (blocks : gmap Key BlockType) : gmap Key BlockType :=
  if inLeafSphere lx ly lz then
    let key := toKey (tree_x tree + lx) (leafCenter + ly) (tree_z tree + lz) in
    if negb (bool_decide (is_Some (blocks !! key)))
       || negb (bool_decide (blocks !! key = Some wood))
    then <[key := leaves]> blocks
    else blocks
  else blocks.

Definition placeLeaves (tree : Tree) (leafCenter : Z)
    (blocks : gmap Key BlockType) : gmap Key BlockType :=
  foldl (λ blocks lx,
    foldl (λ blocks ly,
      foldl (λ blocks lz, placeLeaf tree leafCenter lx ly lz blocks)
            blocks (seqZ (- leafRadius) (2 * leafRadius + 1)))
      blocks (seqZ (-1) (leafRadius + 2)))
    blocks (seqZ (- leafRadius) (2 * leafRadius + 1)).

(** The body of [for (const tree of treePositions)], the trunk height given. *)
Definition placeTreeWith (trunkHeight : Z) (blocks : gmap Key BlockType)
    (tree : Tree) : gmap Key BlockType :=
  let baseY := tree_h tree + 1 in
  let blocks := placeTrunk tree trunkHeight blocks in
  let leafCenter := baseY + trunkHeight - 1 in
  let blocks := placeLeaves tree leafCenter blocks in
  <[toKey (tree_x tree) (leafCenter + leafRadius + 1) (tree_z tree) := leaves]> blocks.

Definition placeTree (blocks : gmap Key BlockType) (tree : Tree)
    : gmap Key BlockType :=
  placeTreeWith (trunkHeightOf tree) blocks tree.

Definition generateWorld : WorldData :=
  let st := generateColumns (mkGen ∅ ∅ []) in
  let blocks := foldl placeTree (gen_blocks st) (gen_treePositions st) in
  mkWorld blocks (gen_heightMap st).
End WorldGeneration.

(** ** Face culling *)

Definition FACE_DIRS : list (Z * Z * Z) :=
  [(1, 0, 0); (-1, 0, 0); (0, 1, 0); (0, -1, 0); (0, 0, 1); (0, 0, -1)].

(** The test [!neighbor || neighbor === 'glass' || ...] on [blocks.get(..)]:
    an absent block is [undefined], which is falsy; no block type is. *)
Definition isSeeThrough (neighbor : option BlockType) : bool :=
  match neighbor with
  | None => true
  | Some t =>
      bool_decide (t = glass) || bool_decide (t = water) || bool_decide (t = leaves)
  end.

Definition hasExposedFace (blocks : gmap Key BlockType) (key : Key) : bool :=
  let '(x, y, z) := fromKey key in
  existsb (λ '(dx, dy, dz),
             let neighborKey := toKey (x + dx) (y + dy) (z + dz) in
             let neighbor := blocks !! neighborKey in
             isSeeThrough neighbor)
          FACE_DIRS.

(** ** Instanced blocks: the groups [ChunkMesh] builds

    A [THREE.Matrix4] of a group is kept as the position it is set to. *)

(** [if (!groups[type]) groups[type] = []; groups[type].push(mat)] *)
Definition pushInstance (groups : gmap BlockType (list (Z * Z * Z)))
    (type : BlockType) (mat : Z * Z * Z) : gmap BlockType (list (Z * Z * Z)) :=
  <[type := default [] (groups !! type) ++ [mat]]> groups.

Definition meshGroupsStep (blocks : gmap Key BlockType)
    (groups : gmap BlockType (list (Z * Z * Z))) (entry : Key * BlockType)
    : gmap BlockType (list (Z * Z * Z)) :=
  let '(key, type) := entry in
  if negb (hasExposedFace blocks key) then groups
  else pushInstance groups type (fromKey key).

(** [for (const [key, type] of blocks)]: one round per entry of the store. *)
Definition meshGroups (blocks : gmap Key BlockType)
    : gmap BlockType (list (Z * Z * Z)) :=
  foldl (meshGroupsStep blocks) ∅ (map_to_list blocks).

(** A voxel is in the render batch when some group holds its position. *)
Definition inBatch (blocks : gmap Key BlockType) (pos : Z * Z * Z) : Prop :=
  ∃ type matrices, meshGroups blocks !! type = Some matrices ∧ pos ∈ matrices.

(** ** Vectors ([THREE.Vector3]) *)

Record Vector3 := mkV3 { v_x : number; v_y : number; v_z : number }.

Definition v3_add (a b : Vector3) : Vector3 :=
  mkV3 (v_x a + v_x b)%Qc (v_y a + v_y b)%Qc (v_z a + v_z b)%Qc.

Definition multiplyScalar (a : Vector3) (s : number) : Vector3 :=
  mkV3 (v_x a * s)%Qc (v_y a * s)%Qc (v_z a * s)%Qc.

Definition divideScalar (a : Vector3) (s : number) : Vector3 :=
  multiplyScalar a (1 / s)%Qc.

(** [a.x*b.x + ...], the square of the length. *)
Definition lengthSq (a : Vector3) : number :=
  (v_x a * v_x a + v_y a * v_y a + v_z a * v_z a)%Qc.

Definition crossVectors (a b : Vector3) : Vector3 :=
  mkV3 (v_y a * v_z b - v_z a * v_y b)%Qc
       (v_z a * v_x b - v_x a * v_z b)%Qc
       (v_x a * v_y b - v_y a * v_x b)%Qc.

(** The voxel a point lies in: [Math.round] of each component. *)
Definition roundV3 (p : Vector3) : Z * Z * Z :=
  (Math_round (v_x p), Math_round (v_y p), Math_round (v_z p)).

Record RayHit := mkHit {
  hitKey : Key;
  hitPos : Z * Z * Z;
  faceNormal : Z * Z * Z;
}.

Global Instance RayHit_eq_dec : EqDecision RayHit.
Proof. solve_decision. Defined.

Record Player := mkPlayer {
  position : Vector3;   (* camera.position *)
  velocity : Vector3;   (* velocity.current *)
  onGround : bool;      (* onGround.current *)
}.

(** What a frame reads besides the player: whether the pointer is locked,
    the keys held, the flying mode and [camera.getWorldDirection]. *)
Record FrameInput := mkInput {
  pointerLocked : bool;
  keys : gset string;
  isFlying : bool;
  worldDirection : Vector3;
}.

Section Engine.
Variable Math_sqrt : number → number.
Variable Math_pow : number → number → number.

Definition v3_length (a : Vector3) : number := Math_sqrt (lengthSq a).

(** [divideScalar(this.length() || 1)] *)
Definition normalize (a : Vector3) : Vector3 :=
  divideScalar a (if decide (v3_length a = 0%Qc) then 1%Qc else v3_length a).

(** *** Raycasting *)

Definition step : number := num (5 # 100).

(** The face normal of a hit at the voxel [b] entered from [prev]. *)
Definition faceNormalOf (b prev : Z * Z * Z) : Z * Z * Z :=
  let '(bx, by_, bz) := b in
  let '(prevX, prevY, prevZ) := prev in
  let nx := bx - prevX in
  let ny := by_ - prevY in
  let nz := bz - prevZ in
  let ax := Z.abs nx in
  let ay := Z.abs ny in
  let az := Z.abs nz in
  if bool_decide (ax >= ay) && bool_decide (ax >= az) then (- Z.sgn nx, 0, 0)
  else if bool_decide (ay >= ax) && bool_decide (ay >= az) then (0, - Z.sgn ny, 0)
  else (0, 0, - Z.sgn nz).

(** What one round of the march finds at the voxel [b] it reaches from
    [prev]: a hit when the voxel is new ([bx !== prevX || by !== prevY ||
    bz !== prevZ]) and holds a block other than water. *)
Definition probe (blocks : gmap Key BlockType) (b prev : Z * Z * Z)
    : option RayHit :=
  let '(bx, by_, bz) := b in
  if bool_decide (b ≠ prev) then
    let key := toKey bx by_ bz in
    match blocks !! key with
    | Some blockType =>
        if bool_decide (blockType ≠ water)
        then Some (mkHit key (bx, by_, bz) (faceNormalOf b prev))
        else None
    | None => None
    end
  else None.

(** [for (let d = 0; d < maxDist; d += step)].  The counter [d] and the
    budget it is compared with are doubles, and [d += step] is the
    addition of doubles: the sum of 120 steps of 0.05 is a little under 6,
    so that a march of reach 6 makes 121 rounds.  [fuel] bounds the
    rounds; [raycastLoop_fuel] shows that for the reach of the game the
    bound [raycastBlocks] passes is never the reason the loop ends. *)
Fixpoint raycastLoop (fuel : nat) (blocks : gmap Key BlockType)
    (dir : Vector3) (maxDist d : PrimFloat.float) (pos : Vector3)
    (prev : Z * Z * Z) : option RayHit :=
  match fuel with
  | O => None
  | S fuel =>
      if PrimFloat.ltb d maxDist then
        let pos := v3_add pos dir in
        let b := roundV3 pos in
        match probe blocks b prev with
        | Some hit => Some hit
        | None =>
            raycastLoop fuel blocks dir maxDist (PrimFloat.add d (double step)) pos
                        (if bool_decide (b ≠ prev) then b else prev)
        end
      else None
  end.

(** One round more than the steps that fit in the budget: the round a
    counter that has drifted under the last multiple of the step runs. *)
Definition raycastFuel (maxDist : number) : nat :=
  S (Z.to_nat (Qceiling (maxDist / step)%Qc)).

Definition raycastBlocks (origin direction : Vector3)
    (blocks : gmap Key BlockType) (maxDist : number) : option RayHit :=
  let pos := origin in
  let dir := multiplyScalar (normalize direction) step in
  let prev := roundV3 pos in
  raycastLoop (raycastFuel maxDist) blocks dir (double maxDist) (double 0%Qc)
    pos prev.

(** *** Player controller: solidity and collision *)

Definition isBlockSolid (blocks : gmap Key BlockType) (bx by_ bz : number) : bool :=
  let key := toKey (Math_round bx) (Math_round by_) (Math_round bz) in
  let block := blocks !! key in
  match block with
  | Some t => bool_decide (t ≠ water)
  | None => false
  end.

(** The test inside the three loops of [checkCollision], for one offset. *)
Definition collidesAt (blocks : gmap Key BlockType) (px py pz : number)
    (dx dy dz : Z) : bool :=
  let r := PLAYER_RADIUS in
  let bx := Math_round (px + ofZ dx * r)%Qc in
  let by_ := Math_round (py - PLAYER_HEIGHT + ofZ dy)%Qc in
  let bz := Math_round (pz + ofZ dz * r)%Qc in
  if isBlockSolid blocks (ofZ bx) (ofZ by_) (ofZ bz) then
    let blockMinX := (ofZ bx - num (5 # 10))%Qc in
    let blockMaxX := (ofZ bx + num (5 # 10))%Qc in
    let blockMinY := (ofZ by_ - num (5 # 10))%Qc in
    let blockMaxY := (ofZ by_ + num (5 # 10))%Qc in
    let blockMinZ := (ofZ bz - num (5 # 10))%Qc in
    let blockMaxZ := (ofZ bz + num (5 # 10))%Qc in
    let playerMinX := (px - r)%Qc in
    let playerMaxX := (px + r)%Qc in
    let playerMinY := (py - PLAYER_HEIGHT)%Qc in
    let playerMaxY := (py + num (1 # 10))%Qc in
    let playerMinZ := (pz - r)%Qc in
    let playerMaxZ := (pz + r)%Qc in
    ltb blockMinX playerMaxX && ltb playerMinX blockMaxX &&
    ltb blockMinY playerMaxY && ltb playerMinY blockMaxY &&
    ltb blockMinZ playerMaxZ && ltb playerMinZ blockMaxZ
  else false.

Definition checkCollision (blocks : gmap Key BlockType) (px py pz : number) : bool :=
  existsb (λ dx,
    existsb (λ dy,
      existsb (λ dz, collidesAt blocks px py pz dx dy dz) (seqZ (-1) 3))
      (seqZ 0 3))
    (seqZ (-1) 3).

(** *** Player controller: the mouse click that breaks or places a block

    [setBlocks(prev => ...)] runs on the store the handler read from
    [blocksRef.current]: the ref is set to the state on every render. *)

Definition breakBlock (blocks : gmap Key BlockType) (hit : RayHit)
    : gmap Key BlockType :=
  if bool_decide (blocks !! hitKey hit = Some bedrock) then blocks
  else delete (hitKey hit) blocks.

(** The coordinate a click with the right button places at. *)
Definition placeTarget (hit : RayHit) : Z * Z * Z :=
  let '(hx, hy, hz) := hitPos hit in
  let '(nx, ny, nz) := faceNormal hit in
  (hx + nx, hy + ny, hz + nz).

(** The guard of the place branch: the target lies in the voxel column
    the camera is in, between the feet and the eyes. *)
Definition insidePlayer (cp : Vector3) (p : Z * Z * Z) : bool :=
  let '(px, py, pz) := p in
  bool_decide (Z.abs (px - Math_round (v_x cp)) <= 0) &&
  bool_decide (py >= Math_round (v_y cp - PLAYER_HEIGHT)%Qc) &&
  bool_decide (py <= Math_round (v_y cp)) &&
  bool_decide (Z.abs (pz - Math_round (v_z cp)) <= 0).

Definition placeBlock (blocks : gmap Key BlockType) (cp : Vector3)
    (selectedBlock : BlockType) (hit : RayHit) : gmap Key BlockType :=
  let '(px, py, pz) := placeTarget hit in
  let newKey := toKey px py pz in
  if insidePlayer cp (px, py, pz) then blocks
  else if negb (bool_decide (is_Some (blocks !! newKey)))
  then <[newKey := selectedBlock]> blocks
  else blocks.

(** [onClick]: [button] is [e.button], [cp] the camera position and [dir]
    [camera.getWorldDirection]. *)
Definition onClick (locked : bool) (button : Z) (cp dir : Vector3)
    (selectedBlock : BlockType) (blocks : gmap Key BlockType)
    : gmap Key BlockType :=
  if negb locked then blocks
  else
    match raycastBlocks cp dir blocks REACH_DISTANCE with
    | None => blocks
    | Some hit =>
        if bool_decide (button = 0) then breakBlock blocks hit
        else if bool_decide (button = 2) then placeBlock blocks cp selectedBlock hit
        else blocks
    end.

(** *** Player controller: the game loop *)

Definition has (ks : gset string) (code : string) : bool := bool_decide (code ∈ ks).

(** The first half of a frame: the intent of the keys becomes the new
    velocity and, on a jump, clears the grounded flag. *)
Definition updateVelocity (input : FrameInput) (delta : number)
    (p : Player) : Vector3 * bool :=
  let flying := isFlying input in
  let ks := keys input in
  let speed :=
    if flying then FLY_SPEED
    else if has ks "ShiftLeft" then (WALK_SPEED * SPRINT_MULTIPLIER)%Qc
    else WALK_SPEED in
  let forward := worldDirection input in
  let forward := if negb flying then mkV3 (v_x forward) 0%Qc (v_z forward) else forward in
  let forward := normalize forward in
  let right := normalize (crossVectors forward (mkV3 0 1 0)%Qc) in
  let '(moveX, moveZ, moveY) := (0, 0, 0)%Qc in
  let '(moveX, moveZ, moveY) :=
    if has ks "KeyW"
    then (moveX + v_x forward, moveZ + v_z forward,
          if flying then moveY + v_y forward else moveY)%Qc
    else (moveX, moveZ, moveY) in
  let '(moveX, moveZ, moveY) :=
    if has ks "KeyS"
    then (moveX - v_x forward, moveZ - v_z forward,
          if flying then moveY - v_y forward else moveY)%Qc
    else (moveX, moveZ, moveY) in
  let '(moveX, moveZ) :=
    if has ks "KeyD" then (moveX + v_x right, moveZ + v_z right)%Qc
    else (moveX, moveZ) in
  let '(moveX, moveZ) :=
    if has ks "KeyA" then (moveX - v_x right, moveZ - v_z right)%Qc
    else (moveX, moveZ) in
  let inputLen := Math_sqrt (moveX * moveX + moveZ * moveZ)%Qc in
  let '(moveX, moveZ) :=
    if ltb 0%Qc inputLen then (moveX / inputLen, moveZ / inputLen)%Qc
    else (moveX, moveZ) in
  let targetVX := (moveX * speed)%Qc in
  let targetVZ := (moveZ * speed)%Qc in
  let lerpFactor := (1 - Math_pow (num (1 # 1000)) delta)%Qc in
  let v := velocity p in
  let velX := (v_x v + (targetVX - v_x v) * lerpFactor)%Qc in
  let velZ := (v_z v + (targetVZ - v_z v) * lerpFactor)%Qc in
  if flying then
    let targetVY := (moveY * speed)%Qc in
    let targetVY := if has ks "Space" then (targetVY + speed)%Qc else targetVY in
    let targetVY := if has ks "ShiftLeft" then (targetVY - speed)%Qc else targetVY in
    let velY := (v_y v + (targetVY - v_y v) * lerpFactor)%Qc in
    (mkV3 velX velY velZ, onGround p)
  else
    let velY := (v_y v - GRAVITY * delta)%Qc in
    let velY := if ltb velY (ofZ (-40)) then ofZ (-40) else velY in
    if has ks "Space" && onGround p
    then (mkV3 velX JUMP_FORCE velZ, false)
    else (mkV3 velX velY velZ, onGround p).

(** The second half: the move along X, then Z, then Y, each checked for a
    collision before it is committed, and the clamp at the floor. *)
Definition moveAndCollide (blocks : gmap Key BlockType) (delta : number)
    (pos vel : Vector3) (grounded : bool) : Player :=
  let newX := (v_x pos + v_x vel * delta)%Qc in
  let '(pos, vel) :=
    if negb (checkCollision blocks newX (v_y pos) (v_z pos))
    then (mkV3 newX (v_y pos) (v_z pos), vel)
    else (pos, mkV3 0%Qc (v_y vel) (v_z vel)) in
  let newZ := (v_z pos + v_z vel * delta)%Qc in
  let '(pos, vel) :=
    if negb (checkCollision blocks (v_x pos) (v_y pos) newZ)
    then (mkV3 (v_x pos) (v_y pos) newZ, vel)
    else (pos, mkV3 (v_x vel) (v_y vel) 0%Qc) in
  let newY := (v_y pos + v_y vel * delta)%Qc in
  let '(pos, vel, grounded) :=
    if negb (checkCollision blocks (v_x pos) newY (v_z pos))
    then (mkV3 (v_x pos) newY (v_z pos), vel, false)
    else (pos, mkV3 (v_x vel) 0%Qc (v_z vel),
          if ltb (v_y vel) 0%Qc then true else grounded) in
  if ltb (v_y pos) 1%Qc
  then mkPlayer (mkV3 (v_x pos) 1%Qc (v_z pos)) (mkV3 (v_x vel) 0%Qc (v_z vel)) true
  else mkPlayer pos vel grounded.

(** The callback of [useFrame]: one step of the player for a frame that
    took [rawDelta] seconds. *)
Definition useFrame (blocks : gmap Key BlockType) (input : FrameInput)
    (rawDelta : number) (p : Player) : Player :=
  if negb (pointerLocked input) then p
  else
    let delta := Math_min rawDelta (num (5 # 100)) in
    let '(vel, grounded) := updateVelocity input delta p in
    moveAndCollide blocks delta (position p) vel grounded.
(** *** Block highlight

    The frame callback of [BlockHighlight], for a mounted mesh (without
    one the callback returns at once): the wire-frame box is shown at the
    voxel the camera's ray hits, and hidden, where it was, when the ray
    hits nothing. *)
Record Highlight := mkHighlight {
  visible : bool;
  highlightAt : Z * Z * Z;
}.

Definition blockHighlightFrame (cp dir : Vector3) (blocks : gmap Key BlockType)
    (mesh : Highlight) : Highlight :=
  match raycastBlocks cp dir blocks REACH_DISTANCE with
  | Some hit => mkHighlight true (hitPos hit)
  | None => mkHighlight false (highlightAt mesh)
  end.
End Engine.

(** ** Instanced blocks: the material [InstancedBlocks] gives a group *)

Definition isTransparent (type : BlockType) : bool :=
  bool_decide (type = glass) || bool_decide (type = water) ||
  bool_decide (type = leaves).

Definition opacity (type : BlockType) : number :=
  if bool_decide (type = glass) then num (35 # 100)
  else if bool_decide (type = water) then num (6 # 10)
  else if bool_decide (type = leaves) then num (85 # 100)
  else 1%Qc.

(** [depthWrite={!isTransparent}] *)
Definition depthWrite (type : BlockType) : bool := negb (isTransparent type).

(** ** The world map ([MiniMap]) *)

Definition BLOCK_COLORS (type : BlockType) : string :=
  match type with
  | grass => "#5d9e3c"
  | dirt => "#8b6b3d"
  | stone => "#888888"
  | wood => "#6b4226"
  | leaves => "#2d8a2d"
  | sand => "#d4c478"
  | glass => "#c8e8f0"
  | water => "#3578c4"
  | bedrock => "#444444"
  end.

(** [Math.round(center + (s - size / 2) / scale)] with [size = 300] and
    [scale = 2]: the world column the pixel [s] of a row or of a column of
    the canvas stands for. *)
Definition pixelColumn (center : number) (s : Z) : Z :=
  let size := ofZ 300 in
  let scale := ofZ 2 in
  Math_round (center + (ofZ s - size / ofZ 2) / scale)%Qc.

(** [for (let y = 25; y >= 0; y--)] with its [break]: [rounds] is the
    number of rounds left, so [y] is [rounds - 1]. *)
Fixpoint topTypeLoop (blocks : gmap Key BlockType) (wx wz : Z) (rounds : nat)
    : option BlockType :=
  match rounds with
  | O => None
  | S rounds =>
      let y := Z.of_nat rounds in
      let key := toKey wx y wz in
      match blocks !! key with
      | Some bt => Some bt
      | None => topTypeLoop blocks wx wz rounds
      end
  end.

Definition topType (blocks : gmap Key BlockType) (wx wz : Z) : option BlockType :=
  topTypeLoop blocks wx wz 26.

(** The colour the two pixel loops paint over the background at
    [(sx, sz)], if any, when the map is open and its canvas is there. *)
Definition miniMapPixel (blocks : gmap Key BlockType) (playerPos : Vector3)
    (sx sz : Z) : option string :=
  let centerX := v_x playerPos in
  let centerZ := v_z playerPos in
  let wx := pixelColumn centerX sx in
  let wz := pixelColumn centerZ sz in
  match topType blocks wx wz with
  | Some topType => Some (BLOCK_COLORS topType)
  | None => None
  end.

(** ** The day and night cycle *)

Definition DAY_CYCLE_DURATION : number := ofZ 600.

(** [Math.trunc]: the integer part, towards zero. *)
Definition Math_trunc (x : number) : Z :=
  if decide (x < 0)%Qc then Qceiling x else Qfloor x.

(** [x % m] on numbers: what is left of [x] after the whole multiples of
    [m] in it, with the sign of [x]. *)
Definition js_rem (x m : number) : number :=
  (x - m * ofZ (Math_trunc (x / m)))%Qc.

(** [THREE.MathUtils.lerp(x, y, t)] *)
Definition MathUtils_lerp (x y t : number) : number :=
  ((1 - t) * x + t * y)%Qc.

Inductive TimeOfDay :=
  | dawn | morning | day | afternoon | sunset | dusk | night | late_night.

Global Instance TimeOfDay_eq_dec : EqDecision TimeOfDay.
Proof. solve_decision. Defined.

Record DayNightState {Color : Type} := mkDayNight {
  timeOfDay : TimeOfDay;
  timeLabel : string;
  sunPosition : number * number * number;
  moonPosition : number * number * number;
  skyTopColor : Color;
  skyBottomColor : Color;
  fogColor : Color;
  fogNear : number;
  fogFar : number;
  ambientIntensity : number;
  sunIntensity : number;
  sunColor : Color;
  starsOpacity : number;
  progress : number;
  gameHour : number;
  dayFactor : number;
}.
Arguments DayNightState : clear implicits.

Inductive Weather := clear | rain | snow.

Global Instance Weather_eq_dec : EqDecision Weather.
Proof. solve_decision. Defined.

(** What [fogRef.current] holds, and [scene.fog] after each frame. *)
Record Fog {Color : Type} := mkFog {
  fog_color : Color;
  fog_near : number;
  fog_far : number;
}.
Arguments Fog : clear implicits.

(** The chain of tests of [getDayNightState] that names the time of day
    and its label after the hour. *)
Definition timeOfDayAt (gameHour : number) : TimeOfDay * string :=
  if leb (ofZ 5) gameHour && ltb gameHour (num (65 # 10)) then (dawn, "Dawn")
  else if leb (num (65 # 10)) gameHour && ltb gameHour (ofZ 9)
  then (morning, "Morning")
  else if leb (ofZ 9) gameHour && ltb gameHour (ofZ 15) then (day, "Day")
  else if leb (ofZ 15) gameHour && ltb gameHour (ofZ 17)
  then (afternoon, "Afternoon")
  else if leb (ofZ 17) gameHour && ltb gameHour (ofZ 19) then (sunset, "Sunset")
  else if leb (ofZ 19) gameHour && ltb gameHour (num (205 # 10))
  then (dusk, "Dusk")
  else if leb (num (205 # 10)) gameHour || ltb gameHour (ofZ 3)
  then (night, "Night")
  else (late_night, "Late Night").

Section DayNight.
(** [THREE.Color]: a colour from its hex string, and [a.lerp(b, alpha)]. *)
Variable Color : Type.
Variable Color_new : string → Color.
Variable Color_lerp : Color → Color → number → Color.
Variable Math_PI : number.
Variables Math_sin Math_cos : number → number.

Definition getDayNightState (timeSeconds : number) : DayNightState Color :=
  let progress := (js_rem timeSeconds DAY_CYCLE_DURATION / DAY_CYCLE_DURATION)%Qc in
  let gameHour := (progress * ofZ 24)%Qc in
  let sunAngle := (progress * Math_PI * ofZ 2 - Math_PI / ofZ 2)%Qc in
  let sunHeight := Math_sin sunAngle in
  let sunHorizontal := Math_cos sunAngle in
  let sunPosition :=
    (sunHorizontal * ofZ 120, sunHeight * ofZ 120, ofZ (-30))%Qc in
  let moonPosition :=
    (- sunHorizontal * ofZ 120, - sunHeight * ofZ 120, ofZ 30)%Qc in
  let '(timeOfDay, timeLabel) := timeOfDayAt gameHour in
  let dayFactor :=
    Math_max 0 (Math_min 1 ((sunHeight + num (15 # 100)) / num (65 # 100)))%Qc in
  let nightTopColor := Color_new "#0a0a2e" in
  let nightBottomColor := Color_new "#1a1a3e" in
  let dayTopColor := Color_new "#4a90d9" in
  let dayBottomColor := Color_new "#87CEEB" in
  let sunsetTopColor := Color_new "#c85a2e" in
  let sunsetBottomColor := Color_new "#e8a040" in
  let horizonFactor :=
    (Math_max 0 (1 - Math_abs sunHeight * ofZ 5)
     * (if ltb (num (-1 # 10)) sunHeight then 1 else 0))%Qc in
  let skyTopColor := Color_lerp nightTopColor dayTopColor dayFactor in
  let skyBottomColor := Color_lerp nightBottomColor dayBottomColor dayFactor in
  let '(skyTopColor, skyBottomColor) :=
    if ltb 0%Qc horizonFactor
    then (Color_lerp skyTopColor sunsetTopColor (horizonFactor * num (6 # 10))%Qc,
          Color_lerp skyBottomColor sunsetBottomColor (horizonFactor * num (8 # 10))%Qc)
    else (skyTopColor, skyBottomColor) in
  let fogColor := skyBottomColor in
  let fogNear := MathUtils_lerp (ofZ 30) (ofZ 60) dayFactor in
  let fogFar := MathUtils_lerp (ofZ 80) (ofZ 160) dayFactor in
  let ambientIntensity := MathUtils_lerp (num (8 # 100)) (num (5 # 10)) dayFactor in
  let sunIntensity := MathUtils_lerp 0%Qc (num (13 # 10)) dayFactor in
  let sunColor := Color_new "#ffffff" in
  let sunColor :=
    if ltb 0%Qc horizonFactor
    then Color_lerp sunColor (Color_new "#ff8844") horizonFactor
    else sunColor in
  let starsOpacity := Math_max 0 (1 - dayFactor * ofZ 2)%Qc in
  mkDayNight Color timeOfDay timeLabel sunPosition moonPosition
    skyTopColor skyBottomColor fogColor fogNear fogFar
    ambientIntensity sunIntensity sunColor starsOpacity
    progress gameHour dayFactor.

(** *** The fog controller

    [fogRef] starts at the colour [#87CEEB], near 60 and far 150; each
    frame moves it by 0.02 of the way to the target of the weather, and
    copies it to [scene.fog], which [Scene] attaches as a [THREE.Fog], so
    that the test the callback starts with passes. *)
Definition fogStart : Fog Color := mkFog Color (Color_new "#87CEEB") (ofZ 60) (ofZ 150).

Definition fogFrame (dayNightState : DayNightState Color) (weather : Weather)
    (fogRef : Fog Color) : Fog Color :=
  let '(targetColor, targetNear, targetFar) :=
    match weather with
    | rain => (Color_new "#4a5568", ofZ 20, ofZ 60)
    | snow => (Color_new "#c8cdd0", ofZ 15, ofZ 50)
    | clear =>
        (fogColor dayNightState, fogNear dayNightState, fogFar dayNightState)
    end in
  mkFog Color
    (Color_lerp (fog_color fogRef) targetColor (num (2 # 100)))
    (fog_near fogRef + (targetNear - fog_near fogRef) * num (2 # 100))%Qc
    (fog_far fogRef + (targetFar - fog_far fogRef) * num (2 # 100))%Qc.
End DayNight.

(** ** The clock of the HUD *)

(** [s.padStart(targetLength, pad)] for a pad of one character. *)
Definition padStart (targetLength : nat) (pad : ascii) (s : string) : string :=
  Nat.iter (targetLength - String.length s) (String pad) s.

(** [n.toString()] of an integer is its decimal numeral. *)
Definition formatGameTime (hour : number) : string :=
  let h := Math_floor hour in
  let m := Math_floor (js_rem hour 1 * ofZ 60)%Qc in
  padStart 2 "0" (pretty h) +:+ ":" +:+ padStart 2 "0" (pretty m).

(** ** The application: shortcuts, the wheel and the game clock *)

Module App.

(** The state of [App] that its keyboard, wheel and clock handlers read
    and set.  A handler sees the state of the latest render: the effects
    that register the handlers run again when the state they read
    changes. *)
Record State := mkState {
  selectedBlock : BlockType;
  isLocked : bool;
  weather : Weather;
  showMap : bool;
  showSplash : bool;
  gameStarted : bool;
  gameTime : number;
  timeSpeed : number;
}.

(** The values [useState] starts from. *)
Definition initial : State :=
  mkState dirt false clear false true false
    (DAY_CYCLE_DURATION * num (375 # 1000))%Qc 1%Qc.

(** [list.indexOf(x)]: the first index of [x], or -1. *)
Fixpoint indexOf (l : list BlockType) (x : BlockType) : Z :=
  match l with
  | [] => -1
  | y :: l =>
      if decide (y = x) then 0
      else let i := indexOf l x in if decide (i = -1) then -1 else i + 1
  end.

(** [list[i]]: [undefined], here [None], outside the list. *)
Definition at_ (l : list BlockType) (i : Z) : option BlockType :=
  if decide (0 ≤ i) then l !! Z.to_nat i else None.

(** [onKeyDown] of the shortcuts.  [parseInt(e.key)] is [KeyString.parseInt]:
    the value of a key is one printable character or the name of a key,
    which begins with a letter. *)
Definition onKeyDown (e_key e_code : string) (s : State) : State :=
  if negb (gameStarted s) then s
  else
    let num_ := KeyString.parseInt e_key in
    let selectedBlock :=
      match num_ with
      | Some num_ =>
          if bool_decide (num_ >= 1) && bool_decide (num_ <= 9) then
            match at_ HOTBAR_BLOCKS (num_ - 1) with
            | Some type => type
            | None => selectedBlock s
            end
          else selectedBlock s
      | None => selectedBlock s
      end in
    let weather :=
      if bool_decide (e_code = "KeyR") && isLocked s then
        match weather s with clear => rain | rain => snow | snow => clear end
      else weather s in
    let showMap :=
      if bool_decide (e_code = "KeyM") && isLocked s then negb (showMap s)
      else showMap s in
    let timeSpeed :=
      if bool_decide (e_code = "KeyT") && isLocked s then
        (if bool_decide (timeSpeed s = 1%Qc) then ofZ 10
         else if bool_decide (timeSpeed s = ofZ 10) then ofZ 50
         else if bool_decide (timeSpeed s = ofZ 50) then ofZ 100
         else 1%Qc)
      else timeSpeed s in
    let gameTime :=
      if bool_decide (e_code = "KeyN") && isLocked s
      then (DAY_CYCLE_DURATION * num (875 # 1000))%Qc
      else gameTime s in
    let gameTime :=
      if bool_decide (e_code = "KeyB") && isLocked s
      then (DAY_CYCLE_DURATION * num (375 # 1000))%Qc
      else gameTime in
    mkState selectedBlock (isLocked s) weather showMap (showSplash s)
      (gameStarted s) gameTime timeSpeed.

(** [onWheel]: the next or the previous slot of the hotbar, around its
    ends.  [%] on integers is [Z.rem]. *)
Definition onWheel (deltaY : number) (s : State) : State :=
  if negb (isLocked s) then s
  else
    let idx := indexOf HOTBAR_BLOCKS (selectedBlock s) in
    let length := Z.of_nat (List.length HOTBAR_BLOCKS) in
    let newIdx :=
      if ltb 0%Qc deltaY then Z.rem (idx + 1) length
      else Z.rem (idx - 1 + length) length in
    match at_ HOTBAR_BLOCKS newIdx with
    | Some type =>
        mkState type (isLocked s) (weather s) (showMap s) (showSplash s)
          (gameStarted s) (gameTime s) (timeSpeed s)
    | None => s
    end.

(** One round of [tick], [dt] seconds after the one before. *)
Definition tick (dt : number) (s : State) : State :=
  if negb (gameStarted s) then s
  else
    mkState (selectedBlock s) (isLocked s) (weather s) (showMap s) (showSplash s)
      (gameStarted s) (gameTime s + dt * timeSpeed s)%Qc (timeSpeed s).

Definition handleSplashPlay (s : State) : State :=
  mkState (selectedBlock s) (isLocked s) (weather s) (showMap s) false true
    (gameTime s) (timeSpeed s).

(** [onLockChange]: [locked] is [!!document.pointerLockElement]. *)
Definition onLockChange (locked : bool) (s : State) : State :=
  mkState (selectedBlock s) locked (weather s) (showMap s) (showSplash s)
    (gameStarted s) (gameTime s) (timeSpeed s).

(** The events the handlers above answer. *)
Inductive Event :=
  | KeyDown (key code : string)
  | Wheel (deltaY : number)
  | Tick (dt : number)
  | LockChange (locked : bool)
  | SplashPlay.

Definition step (s : State) (e : Event) : State :=
  match e with
  | KeyDown key code => onKeyDown key code s
  | Wheel deltaY => onWheel deltaY s
  | Tick dt => tick dt s
  | LockChange locked => onLockChange locked s
  | SplashPlay => handleSplashPlay s
  end.

Definition run (events : list Event) : State := foldl step initial events.

End App.

(** ** The spawn

    [camera.position.set(0, spawnY, 0)] with
    [spawnY = getTerrainHeight(0, 0) + 3]. *)
Definition spawnPosition (noise2D : number → number → number) : Vector3 :=
  let spawnY := getTerrainHeight noise2D 0 0 + 3 in
  mkV3 0%Qc (ofZ spawnY) 0%Qc.

(** ** Instanced blocks: the bounding box of a group

    [THREE.Box3]: [new THREE.Box3()] is the empty box, its minimum at
    +Infinity and its maximum at -Infinity, here [None]; [expandByPoint]
    takes the minimum and the maximum with the point, component by
    component; [expandByScalar(s)] moves the minimum by [-s] and the
    maximum by [s], which leaves the empty box empty.  The points are the
    positions of the instances, integers. *)
Definition Box3 : Type := option ((Z * Z * Z) * (Z * Z * Z)).

Definition expandByPoint (box : Box3) (point : Z * Z * Z) : Box3 :=
  let '(px, py, pz) := point in
  match box with
  | None => Some (point, point)
  | Some ((x0, y0, z0), (x1, y1, z1)) =>
      Some ((Z.min x0 px, Z.min y0 py, Z.min z0 pz),
            (Z.max x1 px, Z.max y1 py, Z.max z1 pz))
  end.

Definition expandByScalar (box : Box3) (scalar : Z) : Box3 :=
  match box with
  | None => None
  | Some ((x0, y0, z0), (x1, y1, z1)) =>
      Some ((x0 - scalar, y0 - scalar, z0 - scalar),
            (x1 + scalar, y1 + scalar, z1 + scalar))
  end.

(** The box the effect of [InstancedBlocks] stores in
    [geometry.boundingBox]; for [count === 0] it returns before it does. *)
Definition boundingBox (matrices : list (Z * Z * Z)) : Box3 :=
  let count := List.length matrices in
  if decide (count = 0%nat) then None
  else
    let box := foldl expandByPoint None matrices in
    expandByScalar box 1.

(** * Vocabulary of the statements, and the inputs of the examples *)

(** ** Keys *)

(** No character of [s] is a comma. *)
Fixpoint noComma (s : string) : bool :=
  match s with
  | EmptyString => true
  | String c s => negb (bool_decide (c = ","%char)) && noComma s
  end.

(** The string the source uses for the key the embedding keeps. *)
Definition keyString (key : Key) : string :=
  let '(x, y, z) := key in KeyString.toKey x y z.

(** The store of the embedding with the keys as the source writes them. *)
Definition storeOfStrings (blocks : gmap Key BlockType) : gmap string BlockType :=
  kmap keyString blocks.

(** The key of a voxel given as a triple. *)
Definition keyOf (b : Z * Z * Z) : Key := let '(x, y, z) := b in toKey x y z.

(** ** Library functions for the examples *)

(** A square root for the examples: exact on the square of a fraction
    (and so on 0 and 1, which is all that a unit direction and an idle
    keyboard ask of [Math.sqrt]). *)
Definition sqrtQ (q : number) : number :=
  Q2Qc (Z.sqrt (Qnum q) # Pos.sqrt (Qden q)).

(** The value of [Math.pow(0.001, 0.05)] to four digits, for the examples
    of a frame of 0.05 seconds. *)
Definition powFrame (base exponent : number) : number := num (7079 # 10000).

(** A sampler that is 0 everywhere: flat plains of height 8. *)
Definition flatNoise (x z : number) : number := 0%Qc.

(** ** Face culling *)

(** The six coordinates that share a face with [(x, y, z)]. *)
Definition faceNeighbors (x y z : Z) : list Key :=
  [toKey (x + 1) y z; toKey (x - 1) y z; toKey x (y + 1) z;
   toKey x (y - 1) z; toKey x y (z + 1); toKey x y (z - 1)].

(** A coordinate that does not hide a face next to it: it is absent from
    the store, or holds glass, water or leaves. *)
Definition seeThroughAt (blocks : gmap Key BlockType) (n : Key) : Prop :=
  blocks !! n = None ∨ blocks !! n = Some glass ∨
  blocks !! n = Some water ∨ blocks !! n = Some leaves.

(** ** Raycasting *)

(** The voxels the march of [raycastLoop] reaches, round by round, when
    nothing stops it: [Math.round] of the point after each step. *)
Fixpoint marchVoxels (fuel : nat) (dir : Vector3) (maxDist d : PrimFloat.float)
    (pos : Vector3) : list (Z * Z * Z) :=
  match fuel with
  | O => []
  | S fuel =>
      if PrimFloat.ltb d maxDist then
        let pos := v3_add pos dir in
        roundV3 pos :: marchVoxels fuel dir maxDist (PrimFloat.add d (double step)) pos
      else []
  end.

(** The voxels along the ray [raycastBlocks] casts, within its budget. *)
Definition rayVoxels (Math_sqrt : number → number) (origin direction : Vector3)
    (maxDist : number) : list (Z * Z * Z) :=
  marchVoxels (raycastFuel maxDist)
    (multiplyScalar (normalize Math_sqrt direction) step)
    (double maxDist) (double 0%Qc) origin.

(** The voxel the march is in before it enters the one that follows the
    voxels [pre] of its path: the last of them, or the voxel of the
    origin. *)
Definition enteredFrom (origin : Vector3) (pre : list (Z * Z * Z)) : Z * Z * Z :=
  default (roundV3 origin) (last pre).

(** The march as a scan of the voxels it reaches: the first one that is
    new and holds a block other than water is the hit. *)
Fixpoint scanPath (blocks : gmap Key BlockType) (prev : Z * Z * Z)
    (path : list (Z * Z * Z)) : option RayHit :=
  match path with
  | [] => None
  | b :: path =>
      match probe blocks b prev with
      | Some hit => Some hit
      | None => scanPath blocks b path
      end
  end.

(** The store without its water. *)
Definition dropWater (blocks : gmap Key BlockType) : gmap Key BlockType :=
  filter (λ entry, entry.2 ≠ water) blocks.

(** The value of [d] after [n] rounds of [d += step]. *)
Fixpoint afterRounds (n : nat) (d : PrimFloat.float) : PrimFloat.float :=
  match n with
  | O => d
  | S n => afterRounds n (PrimFloat.add d (double step))
  end.

(** The budget is spent after the rounds [raycastBlocks] allows: the
    counter no longer passes the test of the loop. *)
Definition budgetSpent (maxDist : number) : Prop :=
  PrimFloat.ltb (afterRounds (raycastFuel maxDist) (double 0%Qc)) (double maxDist)
  = false.

(** A camera at height 6.52 over one block at the origin, which a ray
    straight down enters in its 121st round. *)
Definition highCamera : Vector3 := mkV3 0%Qc (num (652 # 100)) 0%Qc.

(** A player at height 5 above one block at the origin, looking straight down. *)
Definition aboveCamera : Vector3 := mkV3 0%Qc (ofZ 5) 0%Qc.
Definition downLook : Vector3 := mkV3 0%Qc (ofZ (-1)) 0%Qc.
Definition oneStone : gmap Key BlockType := {[ toKey 0 0 0 := stone ]}.
Definition oneBedrock : gmap Key BlockType := {[ toKey 0 0 0 := bedrock ]}.

(** A column of water over a stone, under the player of [aboveCamera]. *)
Definition pond : gmap Key BlockType :=
  {[ toKey 0 2 0 := water; toKey 0 1 0 := water; toKey 0 0 0 := stone ]}.

(** ** The click handler *)

(** The box of the player's body as [checkCollision] has it horizontally
    (radius [PLAYER_RADIUS] around the camera) and from the feet to the
    camera vertically, meets the inside of the unit cube of [p]. *)
Definition bodyMeetsCube (cp : Vector3) (p : Z * Z * Z) : Prop :=
  let '(px, py, pz) := p in
  (v_x cp - PLAYER_RADIUS < ofZ px + num (1 # 2))%Qc ∧
  (ofZ px - num (1 # 2) < v_x cp + PLAYER_RADIUS)%Qc ∧
  (v_y cp - PLAYER_HEIGHT < ofZ py + num (1 # 2))%Qc ∧
  (ofZ py - num (1 # 2) < v_y cp)%Qc ∧
  (v_z cp - PLAYER_RADIUS < ofZ pz + num (1 # 2))%Qc ∧
  (ofZ pz - num (1 # 2) < v_z cp + PLAYER_RADIUS)%Qc.

(** The same with radius 0: the segment from the feet to the camera meets
    the unit cube of [p], the cube closed below and open above as
    [Math.round] makes it. *)
Definition axisMeetsCube (cp : Vector3) (p : Z * Z * Z) : Prop :=
  let '(px, py, pz) := p in
  (ofZ px - num (1 # 2) ≤ v_x cp)%Qc ∧ (v_x cp < ofZ px + num (1 # 2))%Qc ∧
  (v_y cp - PLAYER_HEIGHT < ofZ py + num (1 # 2))%Qc ∧
  (ofZ py - num (1 # 2) ≤ v_y cp)%Qc ∧
  (ofZ pz - num (1 # 2) ≤ v_z cp)%Qc ∧ (v_z cp < ofZ pz + num (1 # 2))%Qc.

(** A player standing on a floor of two stones, the camera at x = 0.4 and
    2.1 high, looking down along (5/13, -12/13, 0) at the second stone. *)
Definition floor2 : gmap Key BlockType :=
  {[ toKey 0 0 0 := stone; toKey 1 0 0 := stone ]}.
Definition besideCamera : Vector3 := mkV3 (num (4 # 10)) (num (21 # 10)) 0%Qc.
Definition besideLook : Vector3 := mkV3 (num (5 # 13)) (num (-12 # 13)) 0%Qc.

(** ** The game loop *)

(** A player on a floor beside a wall to the east, drifting east and
    south with no key held. *)
Definition corridor : gmap Key BlockType :=
  {[ toKey 0 0 0 := stone; toKey 1 0 0 := stone;
     toKey 1 1 0 := stone; toKey 1 2 0 := stone ]}.
Definition idle : FrameInput := mkInput true ∅ false (mkV3 0 0 (-1))%Qc.

(** The physics of a frame for the timestep [delta]: the frame callback
    from its third line on, the new velocity and then the three moves. *)
Definition physicsStep (Math_sqrt : number → number)
    (Math_pow : number → number → number) (blocks : gmap Key BlockType)
    (input : FrameInput) (delta : number) (p : Player) : Player :=
  let '(vel, grounded) := updateVelocity Math_sqrt Math_pow input delta p in
  moveAndCollide blocks delta (position p) vel grounded.
Definition drifting : Player :=
  mkPlayer (mkV3 (num (15 # 100)) (num (21 # 10)) 0%Qc)
           (mkV3 (ofZ 4) 0%Qc (ofZ 4)) true.

(** ** World generation *)

(** The columns two nested loops visit, in the order they visit them. *)
Definition columns (xs zs : list Z) : list (Z * Z) :=
  flat_map (λ x, map (pair x) zs) xs.

(** The block the column loop leaves at layer [y] of a column of height
    [height], for [0 <= y <= height]. *)
Definition layerType (height : Z) (biome : Biome) (y : Z) : BlockType :=
  if decide (y = 0) then bedrock else terrainType height biome y.

(** Wood is what a leaf never replaces. *)
Definition isWood (blocks : gmap Key BlockType) (key : Key) : bool :=
  bool_decide (blocks !! key = Some wood).

(** The offsets the three leaf loops visit, in the order they visit them. *)
Definition leafOffsets : list (Z * Z * Z) :=
  lx ← seqZ (- leafRadius) (2 * leafRadius + 1);
  ly ← seqZ (-1) (leafRadius + 2);
  lz ← seqZ (- leafRadius) (2 * leafRadius + 1);
  [(lx, ly, lz)].

(** Some offset of [offsets] inside the leaf sphere lands on [key]. *)
Definition leafLands (tree : Tree) (leafCenter : Z)
    (offsets : list (Z * Z * Z)) (key : Key) : bool :=
  existsb (λ '(lx, ly, lz),
             inLeafSphere lx ly lz &&
             bool_decide (key = toKey (tree_x tree + lx) (leafCenter + ly)
                                      (tree_z tree + lz)))
          offsets.

(** ** Collision *)

(** The box [checkCollision] gives the player at [(px, py, pz)], of radius
    [PLAYER_RADIUS], from the feet to 0.1 above the camera, meets the
    inside of the unit cube of the voxel [b]. *)
Definition playerBoxMeets (px py pz : number) (b : Z * Z * Z) : Prop :=
  let '(bx, by_, bz) := b in
  (ofZ bx - num (5 # 10) < px + PLAYER_RADIUS)%Qc ∧
  (px - PLAYER_RADIUS < ofZ bx + num (5 # 10))%Qc ∧
  (ofZ by_ - num (5 # 10) < py + num (1 # 10))%Qc ∧
  (py - PLAYER_HEIGHT < ofZ by_ + num (5 # 10))%Qc ∧
  (ofZ bz - num (5 # 10) < pz + PLAYER_RADIUS)%Qc ∧
  (pz - PLAYER_RADIUS < ofZ bz + num (5 # 10))%Qc.

(** The voxel [b] holds a block other than water. *)
Definition solidAt (blocks : gmap Key BlockType) (b : Z * Z * Z) : Prop :=
  ∃ t, blocks !! keyOf b = Some t ∧ t ≠ water.

(** ** The render batch *)

(** The positions of the entries of type [t] that have an exposed face, in
    the order of the entries. *)
Definition exposedOfType (blocks : gmap Key BlockType) (t : BlockType)
    (entries : list (Key * BlockType)) : list (Z * Z * Z) :=
  (λ entry, fromKey entry.1) <$>
    filter (λ entry, entry.2 = t ∧ hasExposedFace blocks entry.1 = true) entries.

(** A stone with a stone on each of its six faces. *)
Definition enclosed : gmap Key BlockType :=
  list_to_map ((λ n, (n, stone)) <$> (toKey 0 0 0 :: faceNeighbors 0 0 0)).

(** ** World generation: a low world *)

(** A sampler that is -1 everywhere: ground of height 2, under water. *)
Definition lowNoise (x z : number) : number := (-1)%Qc.

(** The camera at the origin of the world. *)
Definition atOrigin : Vector3 := mkV3 0%Qc 0%Qc 0%Qc.

(** ** Day and night *)

(** The numeral of two decimal digits of [n]. *)
Definition twoDigits (n : Z) : string :=
  String (ascii_of_nat (48 + Z.to_nat (n / 10)))
    (String (ascii_of_nat (48 + Z.to_nat (n mod 10))) EmptyString).

(** The fog after a run of frames, each with the game time and the weather
    it is drawn under. *)
Definition fogRun {Color : Type} (Color_new : string → Color)
    (Color_lerp : Color → Color → number → Color) (Math_PI : number)
    (Math_sin Math_cos : number → number)
    (frames : list (number * Weather)) : Fog Color :=
  foldl (λ fogRef frame,
           fogFrame Color Color_new Color_lerp
             (getDayNightState Color Color_new Color_lerp Math_PI Math_sin Math_cos
                frame.1)
             frame.2 fogRef)
        (fogStart Color Color_new) frames.

(** Library functions for the examples: colours kept as their hex string,
    a blend that keeps the first colour, and a sun fixed at the horizon. *)
Definition hexColor (hex : string) : string := hex.
Definition keepColor (a b : string) (alpha : number) : string := a.
Definition piQ : number := num (355 # 113).
Definition sinFlat (angle : number) : number := 0%Qc.
Definition cosFlat (angle : number) : number := 1%Qc.

(** ** The application *)

(** No round of the clock in [events] runs backwards. *)
Definition nonnegTicks (events : list App.Event) : Prop :=
  Forall (λ e, match e with App.Tick dt => (0 ≤ dt)%Qc | _ => True end) events.

(** A short session: play, lock the pointer, speed the time up, let a
    second pass, then call the night. *)
Definition session : list App.Event :=
  [App.SplashPlay; App.LockChange true; App.KeyDown "t" "KeyT";
   App.Tick 1%Qc; App.Wheel 1%Qc; App.KeyDown "n" "KeyN"].

(** A running game with the pointer locked. *)
Definition playing : App.State :=
  App.mkState dirt true clear false false true (ofZ 225) 1%Qc.

(** What every state the application reaches keeps: the time speed is one
    of the four of the [T] key, the game time is not negative, the splash
    screen shows exactly until the game starts, and until then the clock,
    the weather and the map are as at the start. *)
Definition sound (s : App.State) : Prop :=
  (App.timeSpeed s = 1%Qc ∨ App.timeSpeed s = ofZ 10 ∨
   App.timeSpeed s = ofZ 50 ∨ App.timeSpeed s = ofZ 100) ∧
  (0 ≤ App.gameTime s)%Qc ∧
  App.showSplash s = negb (App.gameStarted s) ∧
  (App.gameStarted s = false →
   App.gameTime s = ofZ 225 ∧ App.timeSpeed s = 1%Qc ∧
   App.weather s = clear ∧ App.showMap s = false).

(** ** World generation: the trees the column loop schedules *)

(** The test of the column loop that schedules a tree on the column
    [(x, z)]. *)
Definition growsTree (noise2D noise2D_b noise2D_c : number → number → number)
    (x z : Z) : bool :=
  let height := getTerrainHeight noise2D x z in
  let biome := getBiome noise2D_b x z in
  bool_decide (height >= 5) && negb (bool_decide (biome = desert))
  && shouldPlaceTree noise2D_c x z biome.

(** A tree stands on the ground of its own column. *)
Definition rooted (noise2D : number → number → number) (tree : Tree) : Prop :=
  tree_h tree = getTerrainHeight noise2D (tree_x tree) (tree_z tree).

(** A sampler that is 1 everywhere: a tree wherever one may grow. *)
Definition oneNoise (x z : number) : number := 1%Qc.

(** ** The bounding box *)

(** The point [p] lies in the box from [lo] to [hi], at least [margin]
    from each of its faces. *)
Definition within (margin : Z) (lo hi p : Z * Z * Z) : Prop :=
  let '(x0, y0, z0) := lo in
  let '(x1, y1, z1) := hi in
  let '(px, py, pz) := p in
  x0 + margin ≤ px ≤ x1 - margin ∧ y0 + margin ≤ py ≤ y1 - margin ∧
  z0 + margin ≤ pz ≤ z1 - margin.

(** * Properties *)

(** ** Numbers *)

Ltac qc2q :=
  unfold Qcle, Qclt, Qcminus, Qcdiv, Qcinv, Qcopp, Qcplus, Qcmult,
         num, ofZ, Qc_of_Z, Q2Qc in *;
  cbn [this] in *;
  rewrite ?Qred_correct in *.

(** Integer literals injected into [Q], as the fractions they are. *)
Ltac qconst :=
  repeat match goal with
         | |- context [inject_Z (Zpos ?p)] =>
             change (inject_Z (Zpos p)) with (Zpos p # 1)%Q in *
         | |- context [inject_Z (Zneg ?p)] =>
             change (inject_Z (Zneg p)) with (Zneg p # 1)%Q in *
         | |- context [inject_Z Z0] =>
             change (inject_Z Z0) with (0 # 1)%Q in *
         end.

Lemma Math_floor_ge n x : n ≤ Math_floor x ↔ (ofZ n ≤ x)%Qc.
Proof.
  unfold Math_floor. qc2q. split; intros H.
  - apply Qle_trans with (inject_Z (Qfloor x)); [|apply Qfloor_le].
    rewrite <- Zle_Qle. exact H.
  - rewrite <- (Qfloor_Z n). by apply Qfloor_resp_le.
Qed.

Lemma Math_floor_lt n x : Math_floor x < n ↔ (x < ofZ n)%Qc.
Proof. rewrite Qclt_nge, <- Math_floor_ge. lia. Qed.

Lemma Math_round_ge n x : n ≤ Math_round x ↔ (ofZ n - num (1 # 2) ≤ x)%Qc.
Proof.
  change (Math_round x) with (Math_floor (x + num (1 # 2))%Qc).
  rewrite Math_floor_ge. qc2q. split; intros; lra.
Qed.

Lemma Math_round_le n x : Math_round x ≤ n ↔ (x < ofZ n + num (1 # 2))%Qc.
Proof.
  change (Math_round x) with (Math_floor (x + num (1 # 2))%Qc).
  rewrite <- Z.lt_succ_r, Math_floor_lt. unfold Z.succ. qc2q.
  rewrite inject_Z_plus. change (inject_Z 1) with 1%Q. split; intros; lra.
Qed.

Lemma Math_round_ofZ n : Math_round (ofZ n) = n.
Proof.
  apply Z.le_antisymm.
  - apply Math_round_le. qc2q. lra.
  - apply Math_round_ge. qc2q. lra.
Qed.

(** ** Keys *)

Lemma toKey_inj x y z x' y' z' :
  toKey x y z = toKey x' y' z' ↔ x = x' ∧ y = y' ∧ z = z'.
Proof. unfold toKey. split; [intros [= -> -> ->] | intros (-> & -> & ->)]; done. Qed.

Lemma fromKey_toKey x y z : fromKey (toKey x y z) = (x, y, z).
Proof. reflexivity. Qed.

(** ** Keys as strings *)

Lemma digit_pretty_N_char d :
  (d < 10)%N → KeyString.digit (pretty_N_char d) = Some d.
Proof.
  intros Hd.
  assert (d = 0 ∨ d = 1 ∨ d = 2 ∨ d = 3 ∨ d = 4 ∨ d = 5 ∨ d = 6 ∨ d = 7
          ∨ d = 8 ∨ d = 9)%N as H by lia.
  destruct H as [->|[->|[->|[->|[->|[->|[->|[->|[->| ->]]]]]]]]]; reflexivity.
Qed.

Lemma pretty_N_char_plain d :
  pretty_N_char d ≠ ","%char ∧ pretty_N_char d ≠ "-"%char ∧
  pretty_N_char d ≠ "+"%char.
Proof. unfold pretty_N_char. repeat case_match; done. Qed.

Lemma digits_pretty_N_go x s seen :
  (0 < x)%N →
  KeyString.digits 0 seen (pretty_N_go x s) = KeyString.digits x true s.
Proof.
  revert s seen. induction (N.lt_wf_0 x) as [x _ IH]; intros s seen Hx.
  rewrite pretty_N_go_step by done.
  assert (Hmod : (x `mod` 10 < 10)%N) by (apply N.mod_lt; lia).
  destruct (decide (x `div` 10 = 0)%N) as [Hz|Hnz].
  - rewrite Hz, pretty_N_go_0. cbn [KeyString.digits].
    rewrite digit_pretty_N_char by done.
    f_equal. pose proof (N.div_mod x 10 ltac:(lia)) as Hdm.
    set (m := (x `mod` 10)%N) in *. set (q := (x `div` 10)%N) in *. lia.
  - rewrite IH; [|apply N.div_lt; lia|by apply N.neq_0_lt_0].
    cbn [KeyString.digits]. rewrite digit_pretty_N_char by done.
    f_equal. pose proof (N.div_mod x 10 ltac:(lia)) as Hdm.
    set (m := (x `mod` 10)%N) in *. set (q := (x `div` 10)%N) in *. lia.
Qed.

Lemma noComma_pretty_N_go x s : noComma s = true → noComma (pretty_N_go x s) = true.
Proof.
  revert s. induction (N.lt_wf_0 x) as [x _ IH]; intros s Hs.
  destruct (decide (x = 0)%N) as [->|Hx]; [by rewrite pretty_N_go_0|].
  rewrite pretty_N_go_step by lia. apply IH; [apply N.div_lt; lia|].
  cbn [noComma]. rewrite Hs, andb_true_r.
  rewrite bool_decide_eq_false_2; [done|]. apply pretty_N_char_plain.
Qed.

Lemma pretty_N_go_head x s :
  (0 < x)%N → ∃ d rest, (d < 10)%N ∧ pretty_N_go x s = String (pretty_N_char d) rest.
Proof.
  revert s. induction (N.lt_wf_0 x) as [x _ IH]; intros s Hx.
  rewrite pretty_N_go_step by done.
  destruct (decide (x `div` 10 = 0)%N) as [Hz|Hnz].
  - rewrite Hz, pretty_N_go_0. exists (x `mod` 10)%N, s.
    split; [apply N.mod_lt; lia | done].
  - apply IH; [apply N.div_lt; lia | by apply N.neq_0_lt_0].
Qed.

Lemma parseInt_pretty_N x : KeyString.parseInt (pretty x) = Some (Z.of_N x).
Proof.
  unfold pretty, pretty_N. case_decide as Hx; [by subst|].
  destruct (pretty_N_go_head x "") as (d & rest & Hd & Heq); [lia|].
  unfold KeyString.parseInt. rewrite Heq.
  destruct (pretty_N_char_plain d) as (_ & Hm & Hp).
  rewrite !decide_False by done. rewrite <- Heq.
  rewrite digits_pretty_N_go by lia. done.
Qed.

Lemma parseInt_pretty (z : Z) : KeyString.parseInt (pretty z) = Some z.
Proof.
  destruct z as [|p|p]; unfold pretty, pretty_Z.
  - reflexivity.
  - change (pretty p) with (pretty (Npos p)). by rewrite parseInt_pretty_N.
  - change (pretty p) with (pretty (Npos p)).
    change ("-" +:+ pretty (N.pos p)) with (String "-" (pretty (N.pos p))).
    unfold KeyString.parseInt. rewrite decide_True by done.
    unfold pretty, pretty_N. rewrite decide_False by done.
    rewrite digits_pretty_N_go by lia. done.
Qed.

Lemma noComma_pretty (z : Z) : noComma (pretty z) = true.
Proof.
  assert (HN : ∀ x : N, noComma (pretty x) = true).
  { intros x. unfold pretty, pretty_N. case_decide; [done|].
    by apply noComma_pretty_N_go. }
  destruct z as [|p|p]; unfold pretty, pretty_Z; [done|apply (HN (Npos p))|].
  change ("-" +:+ pretty p) with (String "-" (pretty (N.pos p))).
  cbn [noComma]. by rewrite (HN (Npos p)).
Qed.

Lemma split_plain s : noComma s = true → KeyString.split "," s = [s].
Proof.
  induction s as [|c s IH]; [done|]. cbn [noComma KeyString.split].
  intros [Hc Hs]%andb_true_iff. apply negb_true_iff, bool_decide_eq_false in Hc.
  rewrite decide_False by done. by rewrite IH.
Qed.

Lemma split_comma s rest :
  noComma s = true →
  KeyString.split "," (s +:+ String "," rest) = s :: KeyString.split "," rest.
Proof.
  induction s as [|c s IH]; [done|]. cbn [noComma].
  intros [Hc Hs]%andb_true_iff. apply negb_true_iff, bool_decide_eq_false in Hc.
  change (String c s +:+ String "," rest) with (String c (s +:+ String "," rest)).
  cbn [KeyString.split]. rewrite decide_False by done. by rewrite IH.
Qed.

(** The key the source builds from three integers reads back as them. *)
Lemma fromKey_toKey_string x y z :
  KeyString.fromKey (KeyString.toKey x y z) = (Some x, Some y, Some z).
Proof.
  unfold KeyString.fromKey, KeyString.toKey.
  change ("," +:+ pretty y +:+ "," +:+ pretty z)
    with (String "," (pretty y +:+ String "," (pretty z))).
  rewrite !split_comma, split_plain by apply noComma_pretty.
  cbn. by rewrite !parseInt_pretty.
Qed.

Global Instance keyString_inj : Inj (=) (=) keyString.
Proof.
  intros [[x y] z] [[x' y'] z'] H. cbn in H.
  apply (f_equal KeyString.fromKey) in H. rewrite !fromKey_toKey_string in H.
  by injection H as -> -> ->.
Qed.

(** X1. The strings of the keys are faithful to the coordinates: a key reads
    back as the three integers it was built from, and two keys are the
    same string only for the same coordinate. *)
Theorem key_strings_faithful (x y z x' y' z' : Z) :
  KeyString.fromKey (KeyString.toKey x y z) = (Some x, Some y, Some z) ∧
  (KeyString.toKey x y z = KeyString.toKey x' y' z' ↔
   x = x' ∧ y = y' ∧ z = z').
Proof.
  split; [apply fromKey_toKey_string|]. split.
  - intros H. by apply (inj keyString (x, y, z) (x', y', z')) in H as [= -> -> ->].
  - by intros (-> & -> & ->).
Qed.

(** The store of the embedding is the store of the source read through
    [toKey]: a lookup, a [set] and a [delete] at the string of a coordinate
    are those at the coordinate. *)
Lemma storeOfStrings_lookup blocks x y z :
  storeOfStrings blocks !! KeyString.toKey x y z = blocks !! toKey x y z.
Proof.
  unfold storeOfStrings. change (KeyString.toKey x y z) with (keyString (toKey x y z)).
  apply (lookup_kmap keyString).
Qed.

Lemma storeOfStrings_insert blocks x y z t :
  storeOfStrings (<[toKey x y z := t]> blocks)
  = <[KeyString.toKey x y z := t]> (storeOfStrings blocks).
Proof. unfold storeOfStrings. apply (kmap_insert keyString). Qed.

Lemma storeOfStrings_delete blocks x y z :
  storeOfStrings (delete (toKey x y z) blocks)
  = delete (KeyString.toKey x y z) (storeOfStrings blocks).
Proof. unfold storeOfStrings. apply (kmap_delete keyString). Qed.

(** ** Face culling and the render batch *)

Lemma isSeeThrough_spec blocks n :
  isSeeThrough (blocks !! n) = true ↔ seeThroughAt blocks n.
Proof.
  unfold seeThroughAt. destruct (blocks !! n) as [t|]; simpl.
  - destruct t; simpl; split; intros H; try discriminate; auto;
      destruct H as [H|[H|[H|H]]]; congruence.
  - split; auto.
Qed.

Lemma hasExposedFace_spec blocks x y z :
  hasExposedFace blocks (toKey x y z) = true ↔
  ∃ n, n ∈ faceNeighbors x y z ∧ seeThroughAt blocks n.
Proof.
  unfold hasExposedFace. rewrite fromKey_toKey, existsb_exists. split.
  - intros ([[dx dy] dz] & Hin & Hsee). apply isSeeThrough_spec in Hsee.
    eexists; split; [|exact Hsee].
    unfold FACE_DIRS in Hin. simpl in Hin. unfold faceNeighbors.
    repeat destruct Hin as [[= <- <- <-]|Hin]; try contradiction;
      rewrite ?Z.add_0_r; set_solver.
  - intros (n & Hin & Hsee). apply isSeeThrough_spec in Hsee.
    unfold faceNeighbors in Hin.
    repeat (apply elem_of_cons in Hin as [->|Hin]);
      [exists (1, 0, 0) | exists (-1, 0, 0) | exists (0, 1, 0)
      |exists (0, -1, 0) | exists (0, 0, 1) | exists (0, 0, -1) | ];
      try (split; [unfold FACE_DIRS; simpl; tauto|];
           rewrite ?Z.add_0_r; exact Hsee).
    by apply elem_of_nil in Hin.
Qed.

Lemma pushInstance_lookup groups type mat t :
  default [] (pushInstance groups type mat !! t) =
  if decide (type = t) then default [] (groups !! t) ++ [mat]
  else default [] (groups !! t).
Proof.
  unfold pushInstance. destruct (decide (type = t)) as [->|Hne].
  - by rewrite lookup_insert_eq.
  - by rewrite lookup_insert_ne.
Qed.

(** The positions a run of the loop of [ChunkMesh] leaves in the group of
    [t]: those there before, and the exposed entries of type [t]. *)
Lemma meshGroups_foldl blocks entries groups t pos :
  pos ∈ default [] (foldl (meshGroupsStep blocks) groups entries !! t) ↔
  pos ∈ default [] (groups !! t) ∨
  ∃ key, (key, t) ∈ entries ∧ hasExposedFace blocks key = true ∧ fromKey key = pos.
Proof.
  revert groups. induction entries as [|[key type] entries IH]; intros groups.
  - simpl. split; [auto|]. intros [H|(key & Hin & _)]; [done|].
    by apply elem_of_nil in Hin.
  - cbn [foldl]. rewrite IH. clear IH. unfold meshGroupsStep.
    destruct (hasExposedFace blocks key) eqn:Hexp; cbn [negb].
    + rewrite pushInstance_lookup. destruct (decide (type = t)) as [->|Hne].
      * rewrite elem_of_app, list_elem_of_singleton. split.
        -- intros [[H|H]|(k & Hin & He & Hk)]; [auto | | ].
           ++ right. exists key. rewrite elem_of_cons. auto.
           ++ right. exists k. rewrite elem_of_cons. auto.
        -- intros [H|(k & Hin & He & Hk)]; [auto|].
           apply elem_of_cons in Hin as [[= ->]|Hin]; [auto|].
           right. exists k. auto.
      * split.
        -- intros [H|(k & Hin & He & Hk)]; [auto|].
           right. exists k. rewrite elem_of_cons. auto.
        -- intros [H|(k & Hin & He & Hk)]; [auto|].
           apply elem_of_cons in Hin as [[= -> ->]|Hin]; [done|].
           right. exists k. auto.
    + split.
      * intros [H|(k & Hin & He & Hk)]; [auto|].
        right. exists k. rewrite elem_of_cons. auto.
      * intros [H|(k & Hin & He & Hk)]; [auto|].
        apply elem_of_cons in Hin as [[= -> ->]|Hin]; [congruence|].
        right. exists k. auto.
Qed.

Lemma inBatch_spec blocks x y z :
  inBatch blocks (x, y, z) ↔
  is_Some (blocks !! toKey x y z) ∧ hasExposedFace blocks (toKey x y z) = true.
Proof.
  unfold inBatch, meshGroups. split.
  - intros (t & matrices & Hg & Hin).
    assert (H : (x, y, z) ∈ default []
              (foldl (meshGroupsStep blocks) ∅ (map_to_list blocks) !! t))
      by (by rewrite Hg).
    apply meshGroups_foldl in H as [H|(key & Hk & He & Hpos)].
    + rewrite lookup_empty in H. by apply elem_of_nil in H.
    + apply elem_of_map_to_list in Hk. unfold fromKey in Hpos. subst key.
      split; [by exists t | exact He].
  - intros [[t Ht] He].
    assert (H : (x, y, z) ∈ default []
              (foldl (meshGroupsStep blocks) ∅ (map_to_list blocks) !! t)).
    { apply meshGroups_foldl. right. exists (toKey x y z).
      by rewrite elem_of_map_to_list. }
    destruct (foldl (meshGroupsStep blocks) ∅ (map_to_list blocks) !! t)
      as [matrices|] eqn:Hg; simpl in H.
    + exists t, matrices. by rewrite Hg.
    + by apply elem_of_nil in H.
Qed.

(** C2. A voxel of the store is in the render batch exactly when one of
    its six face neighbours is absent or holds glass, water or leaves.  So
    a voxel whose six neighbours are all present and opaque is left out,
    and a voxel with no neighbour present is in the batch. *)
Theorem batch_iff_exposed (blocks : gmap Key BlockType) (x y z : Z) :
  is_Some (blocks !! toKey x y z) →
  (inBatch blocks (x, y, z) ↔
     ∃ n, n ∈ faceNeighbors x y z ∧ seeThroughAt blocks n) ∧
  ((∀ n, n ∈ faceNeighbors x y z →
      ∃ t, blocks !! n = Some t ∧ t ≠ glass ∧ t ≠ water ∧ t ≠ leaves) →
   ¬ inBatch blocks (x, y, z)) ∧
  ((∀ n, n ∈ faceNeighbors x y z → blocks !! n = None) →
   inBatch blocks (x, y, z)).
Proof.
  intros Hsome.
  assert (Hiff : inBatch blocks (x, y, z) ↔
                 ∃ n, n ∈ faceNeighbors x y z ∧ seeThroughAt blocks n).
  { rewrite inBatch_spec, hasExposedFace_spec. tauto. }
  split; [exact Hiff|]. split.
  - intros Hopaque Hin. apply Hiff in Hin as (n & Hn & Hsee).
    destruct (Hopaque n Hn) as (t & Ht & Hg & Hw & Hl).
    unfold seeThroughAt in Hsee. rewrite Ht in Hsee.
    destruct Hsee as [H|[H|[H|H]]]; congruence.
  - intros Hnone. apply Hiff. exists (toKey (x + 1) y z). split.
    + unfold faceNeighbors. constructor.
    + left. apply Hnone. unfold faceNeighbors. constructor.
Qed.

Lemma batch_iff_exposed_witness :
  (inBatch oneStone (0, 0, 0) ↔
     ∃ n, n ∈ faceNeighbors 0 0 0 ∧ seeThroughAt oneStone n) ∧
  ((∀ n, n ∈ faceNeighbors 0 0 0 →
      ∃ t, oneStone !! n = Some t ∧ t ≠ glass ∧ t ≠ water ∧ t ≠ leaves) →
   ¬ inBatch oneStone (0, 0, 0)) ∧
  ((∀ n, n ∈ faceNeighbors 0 0 0 → oneStone !! n = None) →
   inBatch oneStone (0, 0, 0)).
Proof.
  apply (batch_iff_exposed oneStone 0 0 0).
  exists stone. vm_compute. reflexivity.
Defined.

(** ** The click handler: breaking and placing *)

Lemma breakBlock_bedrock blocks hit :
  blocks !! hitKey hit = Some bedrock → breakBlock blocks hit = blocks.
Proof. intros H. unfold breakBlock. by rewrite bool_decide_eq_true_2. Qed.

Lemma breakBlock_other blocks hit :
  blocks !! hitKey hit ≠ Some bedrock →
  breakBlock blocks hit = delete (hitKey hit) blocks.
Proof. intros H. unfold breakBlock. by rewrite bool_decide_eq_false_2. Qed.

Lemma insidePlayer_spec cp p : insidePlayer cp p = true ↔ axisMeetsCube cp p.
Proof.
  destruct p as [[px py] pz]. unfold insidePlayer, axisMeetsCube.
  rewrite !andb_true_iff, !bool_decide_eq_true.
  rewrite <- !Math_round_ge, <- !Math_round_le. lia.
Qed.

Lemma placeBlock_inside blocks cp selectedBlock hit :
  insidePlayer cp (placeTarget hit) = true →
  placeBlock blocks cp selectedBlock hit = blocks.
Proof.
  unfold placeBlock. destruct (placeTarget hit) as [[px py] pz].
  by intros ->.
Qed.

Lemma placeBlock_outside blocks cp selectedBlock hit x y z :
  placeTarget hit = (x, y, z) →
  insidePlayer cp (x, y, z) = false →
  blocks !! toKey x y z = None →
  placeBlock blocks cp selectedBlock hit = <[toKey x y z := selectedBlock]> blocks.
Proof.
  intros Ht Hin Hnone. unfold placeBlock. rewrite Ht, Hin, Hnone.
  rewrite bool_decide_eq_false_2; [done|]. by intros [? ?].
Qed.

(** What a placement does to an empty target: it is filled or, inside the
    player's column, left alone. *)
Lemma placeBlock_cases blocks cp selectedBlock hit x y z :
  placeTarget hit = (x, y, z) →
  blocks !! toKey x y z = None →
  placeBlock blocks cp selectedBlock hit = blocks ∨
  placeBlock blocks cp selectedBlock hit = <[toKey x y z := selectedBlock]> blocks.
Proof.
  intros Ht Hnone. destruct (insidePlayer cp (x, y, z)) eqn:Hin.
  - left. apply placeBlock_inside. by rewrite Ht.
  - right. by apply placeBlock_outside.
Qed.

(** C5. A break whose ray hit holds bedrock leaves the store as it is: the
    same store, so the same number of entries and the same block at every
    coordinate, the hit one included. *)
Theorem break_bedrock_unchanged (Math_sqrt : number → number)
    (cp dir : Vector3) (selectedBlock : BlockType)
    (blocks : gmap Key BlockType) (hit : RayHit) :
  raycastBlocks Math_sqrt cp dir blocks REACH_DISTANCE = Some hit →
  blocks !! hitKey hit = Some bedrock →
  let blocks' := onClick Math_sqrt true 0 cp dir selectedBlock blocks in
  blocks' = breakBlock blocks hit ∧
  blocks' = blocks ∧
  size blocks' = size blocks ∧
  (∀ key, blocks' !! key = blocks !! key) ∧
  blocks' !! hitKey hit = Some bedrock.
Proof.
  intros Hray Hbed blocks'. subst blocks'. unfold onClick. cbn [negb].
  rewrite Hray. rewrite bool_decide_eq_true_2 by done.
  rewrite (breakBlock_bedrock _ _ Hbed). auto.
Qed.

Lemma break_bedrock_unchanged_witness :
  let blocks' := onClick sqrtQ true 0 aboveCamera downLook dirt oneBedrock in
  blocks' = breakBlock oneBedrock (mkHit (toKey 0 0 0) (0, 0, 0) (0, 1, 0)) ∧
  blocks' = oneBedrock ∧
  size blocks' = size oneBedrock ∧
  (∀ key, blocks' !! key = oneBedrock !! key) ∧
  blocks' !! toKey 0 0 0 = Some bedrock.
Proof.
  apply (break_bedrock_unchanged sqrtQ aboveCamera downLook dirt oneBedrock
           (mkHit (toKey 0 0 0) (0, 0, 0) (0, 1, 0))).
  - vm_compute. reflexivity.
  - vm_compute. reflexivity.
Defined.

(** C4, as the code has it.  A block of a type other than bedrock placed
    at an empty coordinate and then broken there leaves the store it was
    placed into, whether the placement went through or was refused. *)
Theorem place_then_break_restores (K : BlockType) (cp : Vector3)
    (blocks : gmap Key BlockType) (hitPlace hitBreak : RayHit) (x y z : Z) :
  K ≠ bedrock →
  blocks !! toKey x y z = None →
  placeTarget hitPlace = (x, y, z) →
  hitKey hitBreak = toKey x y z →
  breakBlock (placeBlock blocks cp K hitPlace) hitBreak = blocks.
Proof.
  intros HK Hnone Htarget Hkey.
  destruct (placeBlock_cases blocks cp K hitPlace x y z Htarget Hnone)
    as [-> | ->].
  - rewrite breakBlock_other by (rewrite Hkey, Hnone; done).
    rewrite Hkey. by apply delete_id.
  - rewrite breakBlock_other
      by (rewrite Hkey, lookup_insert_eq; congruence).
    rewrite Hkey. by apply delete_insert_id.
Qed.

Lemma place_then_break_restores_witness :
  breakBlock
    (placeBlock oneStone aboveCamera glass (mkHit (toKey 0 0 0) (0, 0, 0) (0, 1, 0)))
    (mkHit (toKey 0 1 0) (0, 1, 0) (0, 1, 0)) = oneStone.
Proof.
  apply (place_then_break_restores glass aboveCamera oneStone
           (mkHit (toKey 0 0 0) (0, 0, 0) (0, 1, 0))
           (mkHit (toKey 0 1 0) (0, 1, 0) (0, 1, 0)) 0 1 0).
  - discriminate.
  - vm_compute. reflexivity.
  - reflexivity.
  - reflexivity.
Defined.

(** C4 as stated fails for bedrock, which the hotbar offers: the player
    above one stone places bedrock on it and clicks to break it; the break
    is refused and the coordinate, empty before, keeps the bedrock. *)
Lemma place_then_break_bedrock_stays :
  let placed := onClick sqrtQ true 2 aboveCamera downLook bedrock oneStone in
  let broken := onClick sqrtQ true 0 aboveCamera downLook bedrock placed in
  oneStone !! toKey 0 1 0 = None ∧
  placed = placeBlock oneStone aboveCamera bedrock
             (mkHit (toKey 0 0 0) (0, 0, 0) (0, 1, 0)) ∧
  raycastBlocks sqrtQ aboveCamera downLook placed REACH_DISTANCE
    = Some (mkHit (toKey 0 1 0) (0, 1, 0) (0, 1, 0)) ∧
  broken = breakBlock placed (mkHit (toKey 0 1 0) (0, 1, 0) (0, 1, 0)) ∧
  broken !! toKey 0 1 0 = Some bedrock ∧
  broken ≠ oneStone.
Proof.
  cbv zeta. repeat split; try (vm_compute; reflexivity).
  intros Heq.
  assert (H : onClick sqrtQ true 0 aboveCamera downLook bedrock
                (onClick sqrtQ true 2 aboveCamera downLook bedrock oneStone)
              !! toKey 0 1 0 = oneStone !! toKey 0 1 0) by (by rewrite Heq).
  vm_compute in H. discriminate.
Qed.

(** X4. The same round trip through two clicks: when the second click's
    ray hits the coordinate the first one filled, the store is restored. *)
Theorem click_place_then_break (Math_sqrt : number → number) (K : BlockType)
    (cp dir cp' dir' : Vector3) (blocks : gmap Key BlockType)
    (hitPlace hitBreak : RayHit) (x y z : Z) :
  K ≠ bedrock →
  blocks !! toKey x y z = None →
  raycastBlocks Math_sqrt cp dir blocks REACH_DISTANCE = Some hitPlace →
  placeTarget hitPlace = (x, y, z) →
  let placed := onClick Math_sqrt true 2 cp dir K blocks in
  raycastBlocks Math_sqrt cp' dir' placed REACH_DISTANCE = Some hitBreak →
  hitKey hitBreak = toKey x y z →
  onClick Math_sqrt true 0 cp' dir' K placed = blocks.
Proof.
  intros HK Hnone Hray Htarget placed Hray' Hkey.
  assert (Hplaced : placed = placeBlock blocks cp K hitPlace).
  { subst placed. unfold onClick. cbn [negb]. rewrite Hray.
    rewrite bool_decide_eq_false_2 by done.
    by rewrite bool_decide_eq_true_2. }
  unfold onClick. cbn [negb]. rewrite Hray'.
  rewrite bool_decide_eq_true_2 by done. rewrite Hplaced.
  destruct (placeBlock_cases blocks cp K hitPlace x y z Htarget Hnone)
    as [-> | ->].
  - rewrite breakBlock_other by (rewrite Hkey, Hnone; done).
    rewrite Hkey. by apply delete_id.
  - rewrite breakBlock_other
      by (rewrite Hkey, lookup_insert_eq; congruence).
    rewrite Hkey. by apply delete_insert_id.
Qed.

Lemma click_place_then_break_witness :
  onClick sqrtQ true 0 aboveCamera downLook glass
    (onClick sqrtQ true 2 aboveCamera downLook glass oneStone) = oneStone.
Proof.
  apply (click_place_then_break sqrtQ glass aboveCamera downLook aboveCamera
           downLook oneStone (mkHit (toKey 0 0 0) (0, 0, 0) (0, 1, 0))
           (mkHit (toKey 0 1 0) (0, 1, 0) (0, 1, 0)) 0 1 0).
  - discriminate.
  - vm_compute. reflexivity.
  - vm_compute. reflexivity.
  - reflexivity.
  - vm_compute. reflexivity.
  - reflexivity.
Defined.

(** C7, as the code has it.  A placement is refused, and the store left
    as it is, when the segment from the player's feet to the camera meets
    the unit cube of the target: the guard looks at the voxel column the
    camera is in, not at the width of the body. *)
Theorem place_in_player_column_refused (blocks : gmap Key BlockType)
    (cp : Vector3) (selectedBlock : BlockType) (hit : RayHit) :
  axisMeetsCube cp (placeTarget hit) →
  placeBlock blocks cp selectedBlock hit = blocks.
Proof. intros H. apply placeBlock_inside. by apply insidePlayer_spec. Qed.

Lemma place_in_player_column_refused_witness :
  placeBlock oneStone (mkV3 0 (num (21 # 10)) 0)%Qc glass
    (mkHit (toKey 0 0 0) (0, 0, 0) (0, 1, 0)) = oneStone.
Proof.
  apply (place_in_player_column_refused oneStone (mkV3 0 (num (21 # 10)) 0)%Qc
           glass (mkHit (toKey 0 0 0) (0, 0, 0) (0, 1, 0))).
  vm_compute. repeat split; try discriminate; reflexivity.
Defined.

(** C7 as stated fails: the player stands on a floor with the camera at
    x = 0.4, so the body reaches x = 0.7, into the cube of (1, 1, 0); a
    click on the top of the stone at (1, 0, 0) places a block there all
    the same, and the player then collides where it stands. *)
Lemma place_into_body_accepted :
  let placed := onClick sqrtQ true 2 besideCamera besideLook glass floor2 in
  raycastBlocks sqrtQ besideCamera besideLook floor2 REACH_DISTANCE
    = Some (mkHit (toKey 1 0 0) (1, 0, 0) (0, 1, 0)) ∧
  bodyMeetsCube besideCamera (1, 1, 0) ∧
  floor2 !! toKey 1 1 0 = None ∧
  placed = placeBlock floor2 besideCamera glass
             (mkHit (toKey 1 0 0) (1, 0, 0) (0, 1, 0)) ∧
  placed !! toKey 1 1 0 = Some glass ∧
  placed ≠ floor2 ∧
  checkCollision floor2 (v_x besideCamera) (v_y besideCamera) (v_z besideCamera)
    = false ∧
  checkCollision placed (v_x besideCamera) (v_y besideCamera) (v_z besideCamera)
    = true.
Proof.
  cbv zeta. repeat split; try (vm_compute; reflexivity).
  intros Heq.
  assert (H : onClick sqrtQ true 2 besideCamera besideLook glass floor2
              !! toKey 1 1 0 = floor2 !! toKey 1 1 0) by (by rewrite Heq).
  vm_compute in H. discriminate.
Qed.

(** ** Raycasting *)

Section Raycast.
Variable Math_sqrt : number → number.

Lemma keyOf_toKey x y z : keyOf (x, y, z) = toKey x y z.
Proof. reflexivity. Qed.

(** What a probe returns, when it returns a hit. *)
Lemma probe_Some blocks b prev hit :
  probe blocks b prev = Some hit →
  b ≠ prev ∧ hit = mkHit (keyOf b) b (faceNormalOf b prev) ∧
  ∃ t, blocks !! keyOf b = Some t ∧ t ≠ water.
Proof.
  destruct b as [[bx by_] bz]. unfold probe. cbn [keyOf].
  case_bool_decide as Hne; [|discriminate].
  destruct (blocks !! toKey bx by_ bz) as [t|] eqn:Hget; [|discriminate].
  case_bool_decide as Hw; [|discriminate].
  intros [= <-]. eauto.
Qed.

Lemma probe_same blocks b : probe blocks b b = None.
Proof.
  destruct b as [[bx by_] bz]. unfold probe.
  by rewrite bool_decide_eq_false_2 by (intros H; by apply H).
Qed.

Lemma probe_clear blocks b prev :
  blocks !! keyOf b = None ∨ blocks !! keyOf b = Some water →
  probe blocks b prev = None.
Proof.
  destruct b as [[bx by_] bz]. unfold probe. cbn [keyOf].
  intros [-> | ->]; case_bool_decide; done.
Qed.

Lemma probe_solid blocks b prev t :
  b ≠ prev → blocks !! keyOf b = Some t → t ≠ water →
  probe blocks b prev = Some (mkHit (keyOf b) b (faceNormalOf b prev)).
Proof.
  destruct b as [[bx by_] bz]. unfold probe. cbn [keyOf].
  intros Hne -> Hw. by rewrite !bool_decide_eq_true_2.
Qed.

(** [prev] after a round is the voxel of that round, changed or not. *)
Lemma prev_update (b prev : Z * Z * Z) :
  (if bool_decide (b ≠ prev) then b else prev) = b.
Proof. case_bool_decide as H; [done|]. by subst. Qed.

Lemma raycastLoop_scan fuel blocks dir maxDist d pos prev :
  raycastLoop fuel blocks dir maxDist d pos prev =
  scanPath blocks prev (marchVoxels fuel dir maxDist d pos).
Proof.
  revert d pos prev. induction fuel as [|fuel IH]; intros d pos prev; [done|].
  cbn [raycastLoop marchVoxels]. destruct (PrimFloat.ltb d maxDist); [|done].
  cbn [scanPath]. destruct (probe _ _ _); [done|].
  by rewrite prev_update, IH.
Qed.

Lemma raycastBlocks_scan origin direction blocks maxDist :
  raycastBlocks Math_sqrt origin direction blocks maxDist =
  scanPath blocks (roundV3 origin) (rayVoxels Math_sqrt origin direction maxDist).
Proof. unfold raycastBlocks, rayVoxels. apply raycastLoop_scan. Qed.

Lemma scanPath_hit blocks prev path hit :
  scanPath blocks prev path = Some hit →
  keyOf (hitPos hit) = hitKey hit ∧ hitPos hit ∈ path ∧
  ∃ t, blocks !! hitKey hit = Some t ∧ t ≠ water.
Proof.
  revert prev. induction path as [|b path IH]; intros prev; [done|].
  cbn [scanPath]. destruct (probe blocks b prev) as [h|] eqn:Hp.
  - intros [= ->]. apply probe_Some in Hp as (_ & -> & Ht). cbn.
    split; [done|]. split; [constructor | done].
  - intros H. apply IH in H as (? & ? & ?).
    split; [done|]. split; [by constructor | done].
Qed.

Lemma scanPath_clear blocks prev path :
  (∀ b, b ∈ path →
     blocks !! keyOf b = None ∨ blocks !! keyOf b = Some water) →
  scanPath blocks prev path = None.
Proof.
  revert prev. induction path as [|b path IH]; intros prev Hclear; [done|].
  cbn [scanPath]. rewrite probe_clear by (apply Hclear; constructor).
  apply IH. intros b' Hb'. apply Hclear. by constructor.
Qed.

Lemma dropWater_lookup blocks key :
  dropWater blocks !! key =
  match blocks !! key with
  | Some t => if bool_decide (t ≠ water) then Some t else None
  | None => None
  end.
Proof.
  unfold dropWater. destruct (blocks !! key) as [t|] eqn:Hget.
  - case_bool_decide as Hw.
    + by apply map_lookup_filter_Some.
    + apply map_lookup_filter_None. right. intros t' Ht' Hp.
      rewrite Hget in Ht'. injection Ht' as <-. cbn in Hp. tauto.
  - apply map_lookup_filter_None. by left.
Qed.

Lemma probe_dropWater blocks b prev :
  probe (dropWater blocks) b prev = probe blocks b prev.
Proof.
  destruct b as [[bx by_] bz]. unfold probe. rewrite dropWater_lookup.
  case_bool_decide; [|done].
  destruct (blocks !! toKey bx by_ bz) as [t|]; [|done].
  case_bool_decide as Hw; [|done]. by rewrite bool_decide_eq_true_2.
Qed.

Lemma scanPath_dropWater blocks prev path :
  scanPath (dropWater blocks) prev path = scanPath blocks prev path.
Proof.
  revert prev. induction path as [|b path IH]; intros prev; [done|].
  cbn [scanPath]. by rewrite probe_dropWater, IH.
Qed.

(** A ray past voxels that are empty or hold water reports the first
    voxel after them that holds another block. *)
Lemma scanPath_beyond blocks prev pre b rest t :
  (∀ w, w ∈ pre →
     blocks !! keyOf w = None ∨ blocks !! keyOf w = Some water) →
  blocks !! keyOf b = Some t → t ≠ water →
  b ≠ default prev (last pre) →
  scanPath blocks prev (pre ++ b :: rest)
  = Some (mkHit (keyOf b) b (faceNormalOf b (default prev (last pre)))).
Proof.
  revert prev. induction pre as [|w pre IH]; intros prev Hclear Ht Hw Hne.
  - cbn [app scanPath]. cbn in Hne. by rewrite (probe_solid blocks b prev t).
  - cbn [app scanPath]. rewrite probe_clear by (apply Hclear; constructor).
    assert (Hlast : default prev (last (w :: pre)) = default w (last pre)).
    { destruct pre as [|w' pre]; [done|]. rewrite last_cons_cons.
      destruct (last (w' :: pre)) eqn:Hsome; [done|].
      by apply last_None in Hsome. }
    rewrite Hlast in *. apply IH; [|done..].
    intros w' Hw'. apply Hclear. by constructor.
Qed.

(** *** The bound on the rounds is never what ends the march *)

Lemma afterRounds_S n d :
  afterRounds (S n) d = afterRounds n (PrimFloat.add d (double step)).
Proof. reflexivity. Qed.

Lemma raycastLoop_more_fuel fuel extra blocks dir maxDist d pos prev :
  PrimFloat.ltb (afterRounds fuel d) maxDist = false →
  raycastLoop (fuel + extra) blocks dir maxDist d pos prev =
  raycastLoop fuel blocks dir maxDist d pos prev.
Proof.
  revert d pos prev.
  induction fuel as [|fuel IH]; intros d pos prev Hreach.
  - cbn in Hreach. cbn [raycastLoop Nat.add].
    destruct extra as [|extra]; [done|]. cbn [raycastLoop]. by rewrite Hreach.
  - rewrite afterRounds_S in Hreach. cbn [raycastLoop Nat.add].
    destruct (PrimFloat.ltb d maxDist); [|done].
    destruct (probe _ _ _); [done|]. by apply IH.
Qed.

(** For the reach of the game the march makes 121 rounds: after 120 the
    counter is still under 6, after 121 it is not. *)
Lemma raycastFuel_reach :
  raycastFuel REACH_DISTANCE = 121%nat ∧
  PrimFloat.ltb (afterRounds 120 (double 0%Qc)) (double REACH_DISTANCE) = true ∧
  budgetSpent REACH_DISTANCE.
Proof. repeat split; vm_compute; reflexivity. Qed.

(** The result of the march with the rounds [raycastBlocks] allows is
    its result with any number of rounds more, once the budget is spent:
    it ends on a hit or on [d >= maxDist]. *)
Lemma raycastLoop_fuel extra blocks dir maxDist pos prev :
  budgetSpent maxDist →
  raycastLoop (raycastFuel maxDist + extra) blocks dir (double maxDist)
    (double 0%Qc) pos prev =
  raycastLoop (raycastFuel maxDist) blocks dir (double maxDist)
    (double 0%Qc) pos prev.
Proof. intros Hspent. by apply raycastLoop_more_fuel. Qed.
End Raycast.

Lemma scanPath_same blocks b path :
  scanPath blocks b (b :: path) = scanPath blocks b path.
Proof. cbn [scanPath]. by rewrite probe_same. Qed.

Lemma scanPath_empty blocks prev b path :
  blocks !! keyOf b = None →
  scanPath blocks prev (b :: path) = scanPath blocks b path.
Proof. intros H. cbn [scanPath]. by rewrite probe_clear by (by left). Qed.

(** C3. The raycast never returns a hit on water: a hit holds a block
    other than water; the ray goes through water as through air, so the
    result is the one on the store with its water taken out; past voxels
    that are empty or hold water it reports the first voxel of its path
    that holds another block, entered from the voxel before it; and a ray
    that meets only water and empty voxels within its budget returns
    none.  The budget ends the march, not the bound on the rounds: once
    the counter has left the budget, as after the 121 rounds of the reach
    of the game, more rounds change nothing. *)
Theorem raycast_skips_water (Math_sqrt : number → number)
    (origin direction : Vector3) (blocks : gmap Key BlockType)
    (maxDist : number) :
  (∀ hit, raycastBlocks Math_sqrt origin direction blocks maxDist = Some hit →
     ∃ t, blocks !! hitKey hit = Some t ∧ t ≠ water) ∧
  raycastBlocks Math_sqrt origin direction (dropWater blocks) maxDist
    = raycastBlocks Math_sqrt origin direction blocks maxDist ∧
  (∀ pre b rest t,
     rayVoxels Math_sqrt origin direction maxDist = pre ++ b :: rest →
     (∀ w, w ∈ pre →
        blocks !! keyOf w = None ∨ blocks !! keyOf w = Some water) →
     blocks !! keyOf b = Some t → t ≠ water →
     b ≠ roundV3 origin →
     raycastBlocks Math_sqrt origin direction blocks maxDist
     = Some (mkHit (keyOf b) b (faceNormalOf b (enteredFrom origin pre)))) ∧
  ((∀ b, b ∈ rayVoxels Math_sqrt origin direction maxDist →
      blocks !! keyOf b = None ∨ blocks !! keyOf b = Some water) →
   raycastBlocks Math_sqrt origin direction blocks maxDist = None) ∧
  (budgetSpent maxDist →
   ∀ extra,
     raycastLoop (raycastFuel maxDist + extra) blocks
       (multiplyScalar (normalize Math_sqrt direction) step)
       (double maxDist) (double 0%Qc) origin (roundV3 origin)
     = raycastBlocks Math_sqrt origin direction blocks maxDist) ∧
  budgetSpent REACH_DISTANCE.
Proof.
  split; [|split; [|split; [|split; [|split]]]].
  - intros hit Hhit. rewrite raycastBlocks_scan in Hhit.
    by apply scanPath_hit in Hhit as (_ & _ & Ht).
  - by rewrite !raycastBlocks_scan, scanPath_dropWater.
  - intros pre b rest t Hpath Hclear Ht Hwater Horigin.
    rewrite raycastBlocks_scan, Hpath. unfold enteredFrom.
    apply (scanPath_beyond blocks (roundV3 origin) pre b rest t); try done.
    destruct (last pre) as [w|] eqn:Hlast; [|done]. cbn [default].
    intros ->. apply last_Some_elem_of in Hlast.
    unfold id in *. destruct (Hclear w Hlast) as [Hw|Hw]; congruence.
  - intros Hclear. rewrite raycastBlocks_scan. by apply scanPath_clear.
  - intros Hspent extra. by apply raycastLoop_fuel.
  - apply raycastFuel_reach.
Qed.

(** The voxels of the ray straight down from [aboveCamera], for the
    square root of the examples. *)
Lemma rayVoxels_pond :
  rayVoxels sqrtQ aboveCamera downLook REACH_DISTANCE =
  (replicate 10 (0, 5, 0) ++ replicate 20 (0, 4, 0) ++ replicate 20 (0, 3, 0) ++
   replicate 20 (0, 2, 0) ++ replicate 20 (0, 1, 0)) ++
  (0, 0, 0) :: replicate 19 (0, 0, 0) ++ replicate 11 (0, -1, 0).
Proof. vm_compute. reflexivity. Qed.

Lemma pond_clear_above w :
  w ∈ replicate 10 (0, 5, 0) ++ replicate 20 (0, 4, 0) ++ replicate 20 (0, 3, 0) ++
      replicate 20 (0, 2, 0) ++ replicate 20 (0, 1, 0) →
  pond !! keyOf w = None ∨ pond !! keyOf w = Some water.
Proof.
  rewrite !elem_of_app, !elem_of_replicate.
  intros [[-> _]|[[-> _]|[[-> _]|[[-> _]|[-> _]]]]]; vm_compute; auto.
Qed.

(** A ray straight down through two voxels of water reports the stone
    under them, entered from the water above it. *)
Lemma raycast_skips_water_witness :
  raycastBlocks sqrtQ aboveCamera downLook pond REACH_DISTANCE
  = Some (mkHit (toKey 0 0 0) (0, 0, 0) (0, 1, 0)).
Proof.
  exact (proj1 (proj2 (proj2
           (raycast_skips_water sqrtQ aboveCamera downLook pond REACH_DISTANCE)))
           _ (0, 0, 0) _ stone rayVoxels_pond pond_clear_above eq_refl
           ltac:(discriminate) ltac:(discriminate)).
Defined.

(** A ray through two voxels of water reports the stone under them, and
    with the stone gone it reports nothing. *)
Lemma raycast_through_pond :
  raycastBlocks sqrtQ aboveCamera downLook pond REACH_DISTANCE
    = Some (mkHit (toKey 0 0 0) (0, 0, 0) (0, 1, 0)) ∧
  raycastBlocks sqrtQ aboveCamera downLook (delete (toKey 0 0 0) pond)
    REACH_DISTANCE = None.
Proof. split; vm_compute; reflexivity. Qed.

(** The last round of the march counts: from 6.52 above a block, 121
    steps of 0.05 down reach it, 120 would not. *)
Lemma raycast_in_last_round :
  raycastBlocks sqrtQ highCamera downLook oneStone REACH_DISTANCE
    = Some (mkHit (toKey 0 0 0) (0, 0, 0) (0, 1, 0)) ∧
  raycastLoop 120 oneStone (multiplyScalar (normalize sqrtQ downLook) step)
    (double REACH_DISTANCE) (double 0%Qc) highCamera (roundV3 highCamera)
    = None.
Proof. split; vm_compute; reflexivity. Qed.

Lemma lengthSq_downLook : lengthSq downLook = 1%Qc.
Proof. vm_compute. reflexivity. Qed.

(** The voxels under the camera of [aboveCamera] within a reach of 6:
    ten rounds in the camera's voxel, twenty in each below, and the
    121st round with the ten before it. *)
Lemma rayVoxels_down Math_sqrt :
  Math_sqrt 1%Qc = 1%Qc →
  rayVoxels Math_sqrt aboveCamera downLook (ofZ 6) =
  replicate 10 (0, 5, 0) ++ replicate 20 (0, 4, 0) ++ replicate 20 (0, 3, 0) ++
  replicate 20 (0, 2, 0) ++ replicate 20 (0, 1, 0) ++ replicate 20 (0, 0, 0) ++
  replicate 11 (0, -1, 0).
Proof.
  intros Hsqrt. unfold rayVoxels, normalize, v3_length.
  rewrite lengthSq_downLook, Hsqrt. vm_compute. reflexivity.
Qed.

(** C9. From (0, 5, 0), looking along (0, -1, 0) with a reach of 6, in a
    store with bedrock at (0, 0, 0) and nothing in the four voxels between,
    the raycast returns the hit at (0, 0, 0) with face normal (0, 1, 0). *)
Theorem raycast_down_hits_bedrock (Math_sqrt : number → number)
    (blocks : gmap Key BlockType) :
  Math_sqrt 1%Qc = 1%Qc →
  blocks !! toKey 0 0 0 = Some bedrock →
  (∀ y, 1 ≤ y ≤ 4 → blocks !! toKey 0 y 0 = None) →
  raycastBlocks Math_sqrt (mkV3 0%Qc (ofZ 5) 0%Qc) (mkV3 0%Qc (ofZ (-1)) 0%Qc)
    blocks (ofZ 6)
  = Some (mkHit (toKey 0 0 0) (0, 0, 0) (0, 1, 0)).
Proof.
  intros Hsqrt Hbed Hair. rewrite raycastBlocks_scan.
  change (mkV3 0%Qc (ofZ 5) 0%Qc) with aboveCamera.
  change (mkV3 0%Qc (ofZ (-1)) 0%Qc) with downLook.
  rewrite (rayVoxels_down _ Hsqrt).
  replace (roundV3 aboveCamera) with (0, 5, 0) by (vm_compute; reflexivity).
  cbn [replicate app].
  repeat first
    [ rewrite scanPath_same
    | rewrite scanPath_empty by (apply Hair; lia) ].
  cbn [scanPath].
  by rewrite (probe_solid blocks (0, 0, 0) (0, 1, 0) bedrock).
Qed.

Lemma raycast_down_hits_bedrock_witness :
  raycastBlocks sqrtQ (mkV3 0%Qc (ofZ 5) 0%Qc) (mkV3 0%Qc (ofZ (-1)) 0%Qc)
    oneBedrock (ofZ 6)
  = Some (mkHit (toKey 0 0 0) (0, 0, 0) (0, 1, 0)).
Proof.
  apply (raycast_down_hits_bedrock sqrtQ oneBedrock).
  - vm_compute. reflexivity.
  - vm_compute. reflexivity.
  - intros y Hy. unfold oneBedrock. apply lookup_singleton_ne.
    rewrite toKey_inj. lia.
Defined.

(** ** The game loop *)

Section GameLoop.
Variable Math_sqrt : number → number.
Variable Math_pow : number → number → number.

Lemma Math_min_clamp (rawDelta cap : number) :
  (cap ≤ rawDelta)%Qc → Math_min rawDelta cap = cap.
Proof.
  intros Hle. unfold Math_min. case_decide as Hlt; [done|].
  apply Qcle_antisym; [|done]. by apply Qcnot_lt_le.
Qed.

Lemma Math_min_below (rawDelta cap : number) :
  (rawDelta ≤ cap)%Qc → Math_min rawDelta cap = rawDelta.
Proof.
  intros Hle. unfold Math_min. case_decide as Hlt; [|done].
  by apply Qcle_not_lt in Hle.
Qed.

(** The X and Z moves of [moveAndCollide] when the first is blocked and
    the second is free; the Y move and the floor clamp leave both alone. *)
Lemma moveAndCollide_slide blocks delta pos vel grounded :
  checkCollision blocks (v_x pos + v_x vel * delta)%Qc (v_y pos) (v_z pos) = true →
  checkCollision blocks (v_x pos) (v_y pos) (v_z pos + v_z vel * delta)%Qc = false →
  let p' := moveAndCollide blocks delta pos vel grounded in
  v_x (position p') = v_x pos ∧
  v_x (velocity p') = 0%Qc ∧
  v_z (position p') = (v_z pos + v_z vel * delta)%Qc ∧
  v_z (velocity p') = v_z vel.
Proof.
  intros HX HZ p'. subst p'. unfold moveAndCollide.
  rewrite HX. cbn [negb v_x v_y v_z]. rewrite HZ. cbn [negb v_x v_y v_z].
  match goal with
  | |- context [checkCollision ?b ?x ?y ?z] => destruct (checkCollision b x y z)
  end; cbn [negb v_x v_y v_z];
  match goal with
  | |- context [ltb ?x ?y] => destruct (ltb x y)
  end; cbn; done.
Qed.
End GameLoop.

(** C8. In a frame whose move along X collides and whose move along Z
    does not, the position keeps its X and the velocity along X becomes 0,
    the position advances along Z by the Z velocity times the timestep, and
    the Z velocity is the one the frame computed. *)
Theorem slide_along_blocked_axis (Math_sqrt : number → number)
    (Math_pow : number → number → number) (blocks : gmap Key BlockType)
    (input : FrameInput) (rawDelta : number) (p : Player) :
  pointerLocked input = true →
  let delta := Math_min rawDelta (num (5 # 100)) in
  let vel := (updateVelocity Math_sqrt Math_pow input delta p).1 in
  let pos := position p in
  checkCollision blocks (v_x pos + v_x vel * delta)%Qc (v_y pos) (v_z pos) = true →
  checkCollision blocks (v_x pos) (v_y pos) (v_z pos + v_z vel * delta)%Qc = false →
  let p' := useFrame Math_sqrt Math_pow blocks input rawDelta p in
  v_x (position p') = v_x pos ∧
  v_x (velocity p') = 0%Qc ∧
  v_z (position p') = (v_z pos + v_z vel * delta)%Qc ∧
  v_z (velocity p') = v_z vel.
Proof.
  intros Hlocked delta vel pos HX HZ p'. subst p'. unfold useFrame.
  rewrite Hlocked. cbn [negb]. fold delta.
  subst vel. destruct (updateVelocity _ _ _ _ _) as [vel grounded].
  cbn [fst] in *. by apply moveAndCollide_slide.
Qed.

Lemma slide_along_blocked_axis_witness :
  let delta := Math_min (num (5 # 100)) (num (5 # 100)) in
  let vel := (updateVelocity sqrtQ powFrame idle delta drifting).1 in
  let p' := useFrame sqrtQ powFrame corridor idle (num (5 # 100)) drifting in
  v_x (position p') = v_x (position drifting) ∧
  v_x (velocity p') = 0%Qc ∧
  v_z (position p') = (v_z (position drifting) + v_z vel * delta)%Qc ∧
  v_z (velocity p') = v_z vel.
Proof.
  apply (slide_along_blocked_axis sqrtQ powFrame corridor idle (num (5 # 100))
           drifting).
  - reflexivity.
  - vm_compute. reflexivity.
  - vm_compute. reflexivity.
Defined.

(** Along each axis a player ends the three moves where it was or one
    timestep of its velocity further, or at the floor. *)
Lemma moveAndCollide_advance blocks delta pos vel grounded :
  let p' := moveAndCollide blocks delta pos vel grounded in
  (v_x (position p') = v_x pos ∨
   v_x (position p') = (v_x pos + v_x vel * delta)%Qc) ∧
  (v_z (position p') = v_z pos ∨
   v_z (position p') = (v_z pos + v_z vel * delta)%Qc) ∧
  (v_y (position p') = v_y pos ∨
   v_y (position p') = (v_y pos + v_y vel * delta)%Qc ∨
   v_y (position p') = 1%Qc).
Proof.
  cbv zeta. unfold moveAndCollide.
  repeat match goal with
         | |- context [if negb (checkCollision ?b ?x ?y ?z) then _ else _] =>
             destruct (checkCollision b x y z); cbn [negb v_x v_y v_z]
         end;
    match goal with
    | |- context [if ltb ?x 1%Qc then _ else _] => destruct (ltb x 1%Qc)
    end; cbn [position velocity onGround v_x v_y v_z]; auto.
Qed.

(** C10. The frame clamps its timestep to 0.05 seconds, and no lower.
    While the pointer is locked, a frame that took 0.05 seconds or longer
    yields the player (position, velocity, grounded flag) that the physics
    gives for the timestep 0.05, and a frame that took less yields what
    the physics gives for the time it took; without the lock a frame
    leaves the player as it is.  So a frame, however long, moves the
    player along each axis by 0.05 seconds of its new velocity or not at
    all, the floor at height 1 apart. *)
Theorem frame_delta_clamped (Math_sqrt : number → number)
    (Math_pow : number → number → number) (blocks : gmap Key BlockType)
    (input : FrameInput) (rawDelta : number) (p : Player) :
  (num (5 # 100) ≤ rawDelta)%Qc →
  let cap := num (5 # 100) in
  let p' := useFrame Math_sqrt Math_pow blocks input rawDelta p in
  let vel := (updateVelocity Math_sqrt Math_pow input cap p).1 in
  p' = (if pointerLocked input
        then physicsStep Math_sqrt Math_pow blocks input cap p else p) ∧
  (∀ shorter, (shorter ≤ cap)%Qc →
     useFrame Math_sqrt Math_pow blocks input shorter p
     = if pointerLocked input
       then physicsStep Math_sqrt Math_pow blocks input shorter p else p) ∧
  (v_x (position p') = v_x (position p) ∨
   v_x (position p') = (v_x (position p) + v_x vel * cap)%Qc) ∧
  (v_z (position p') = v_z (position p) ∨
   v_z (position p') = (v_z (position p) + v_z vel * cap)%Qc) ∧
  (v_y (position p') = v_y (position p) ∨
   v_y (position p') = (v_y (position p) + v_y vel * cap)%Qc ∨
   v_y (position p') = 1%Qc).
Proof.
  intros Hle. cbv zeta.
  assert (Hstep : useFrame Math_sqrt Math_pow blocks input rawDelta p
                  = if pointerLocked input
                    then physicsStep Math_sqrt Math_pow blocks input
                           (num (5 # 100)) p
                    else p).
  { unfold useFrame, physicsStep. destruct (pointerLocked input); [|done].
    cbn [negb]. by rewrite Math_min_clamp. }
  split; [done|]. split.
  - intros shorter Hshorter. unfold useFrame, physicsStep.
    destruct (pointerLocked input); [|done].
    cbn [negb]. by rewrite Math_min_below.
  - rewrite Hstep. destruct (pointerLocked input); [|by auto].
    unfold physicsStep.
    destruct (updateVelocity Math_sqrt Math_pow input (num (5 # 100)) p)
      as [vel grounded].
    cbn [fst]. apply moveAndCollide_advance.
Qed.

Lemma frame_delta_clamped_witness :
  let cap := num (5 # 100) in
  let p' := useFrame sqrtQ powFrame corridor idle (ofZ 2) drifting in
  let vel := (updateVelocity sqrtQ powFrame idle cap drifting).1 in
  p' = (if pointerLocked idle
        then physicsStep sqrtQ powFrame corridor idle cap drifting
        else drifting) ∧
  (∀ shorter, (shorter ≤ cap)%Qc →
     useFrame sqrtQ powFrame corridor idle shorter drifting
     = if pointerLocked idle
       then physicsStep sqrtQ powFrame corridor idle shorter drifting
       else drifting) ∧
  (v_x (position p') = v_x (position drifting) ∨
   v_x (position p') = (v_x (position drifting) + v_x vel * cap)%Qc) ∧
  (v_z (position p') = v_z (position drifting) ∨
   v_z (position p') = (v_z (position drifting) + v_z vel * cap)%Qc) ∧
  (v_y (position p') = v_y (position drifting) ∨
   v_y (position p') = (v_y (position drifting) + v_y vel * cap)%Qc ∨
   v_y (position p') = 1%Qc).
Proof.
  apply (frame_delta_clamped sqrtQ powFrame corridor idle (ofZ 2) drifting).
  vm_compute. discriminate.
Defined.

(** The frame of two seconds of the example, in numbers: the player is
    held in x by the wall, drifts 0.05 seconds of its new velocity in z,
    and stays on the floor; the physics of 0.01 seconds would take it a
    fifth as far in z, and not yet up to the wall in x. *)
Lemma frame_of_two_seconds :
  useFrame sqrtQ powFrame corridor idle (ofZ 2) drifting
  = mkPlayer (mkV3 (num (15 # 100)) (num (21 # 10)) (num (7079 # 50000)))
             (mkV3 0%Qc 0%Qc (num (7079 # 2500))) true ∧
  useFrame sqrtQ powFrame corridor idle (ofZ 2) drifting
  ≠ physicsStep sqrtQ powFrame corridor idle (num (1 # 100)) drifting.
Proof.
  split.
  - unfold useFrame, idle. cbn [pointerLocked negb]. vm_compute.
    f_equal; f_equal; by apply Qc_is_canon.
  - intros Heq. apply (f_equal (λ q, v_z (position q))) in Heq.
    vm_compute in Heq. discriminate.
Qed.

(** ** World generation: the column loop *)

Lemma foldl_columns {A} (G : A → Z → Z → A) (xs zs : list Z) (st : A) :
  foldl (λ st x, foldl (λ st z, G st x z) st zs) st xs =
  foldl (λ st c, G st c.1 c.2) st (columns xs zs).
Proof.
  revert st. induction xs as [|x xs IH]; intros st; [done|].
  cbn [foldl columns flat_map]. rewrite foldl_app, IH. f_equal.
  generalize st. clear. induction zs as [|z zs IHz]; intros st; [done|].
  cbn [foldl map]. by rewrite IHz.
Qed.

Lemma elem_of_columns xs zs x z : (x, z) ∈ columns xs zs ↔ x ∈ xs ∧ z ∈ zs.
Proof.
  unfold columns. rewrite list_elem_of_In, in_flat_map. split.
  - intros (x' & Hx' & Hin). apply in_map_iff in Hin as (z' & [= -> ->] & Hz).
    by rewrite !list_elem_of_In.
  - intros [Hx Hz]. exists x. rewrite <- list_elem_of_In. split; [done|].
    apply in_map. by apply list_elem_of_In.
Qed.

(** A loop that sets one layer of the column [(x, z)] per round. *)
Lemma foldl_set_layers (f : Z → BlockType) (x z : Z) (ys : list Z)
    (blocks : gmap Key BlockType) (x' y' z' : Z) :
  foldl (λ blocks y, <[toKey x y z := f y]> blocks) blocks ys !! toKey x' y' z' =
  if decide (x' = x ∧ z' = z ∧ y' ∈ ys) then Some (f y')
  else blocks !! toKey x' y' z'.
Proof.
  revert blocks. induction ys as [|y ys IH]; intros blocks.
  - cbn [foldl]. case_decide as H; [|done]. destruct H as (_ & _ & H).
    by apply elem_of_nil in H.
  - cbn [foldl]. rewrite IH. clear IH.
    destruct (decide (x' = x ∧ z' = z ∧ y' ∈ ys)) as [(-> & -> & Hin)|Hnot].
    + rewrite decide_True; [done|]. repeat split; by constructor.
    + destruct (decide (toKey x y z = toKey x' y' z')) as [Heq|Hne].
      * rewrite Heq, lookup_insert_eq. apply toKey_inj in Heq as (-> & -> & ->).
        rewrite decide_True; [done|]. repeat split; constructor.
      * rewrite lookup_insert_ne by done. rewrite decide_False; [done|].
        intros (-> & -> & Hin). apply elem_of_cons in Hin as [->|Hin]; tauto.
Qed.

Lemma fillTerrain_lookup x z height biome blocks x' y' z' :
  fillTerrain x z height biome blocks !! toKey x' y' z' =
  if decide (x' = x ∧ z' = z ∧ 1 ≤ y' ≤ height)
  then Some (terrainType height biome y')
  else blocks !! toKey x' y' z'.
Proof.
  unfold fillTerrain. rewrite foldl_set_layers.
  apply decide_ext. rewrite elem_of_seqZ. lia.
Qed.

Lemma fillWater_lookup x z height blocks x' y' z' :
  fillWater x z height blocks !! toKey x' y' z' =
  if decide (x' = x ∧ z' = z ∧ height + 1 ≤ y' ≤ 5) then Some water
  else blocks !! toKey x' y' z'.
Proof.
  unfold fillWater. rewrite (foldl_set_layers (λ _, water)).
  apply decide_ext. rewrite elem_of_seqZ. lia.
Qed.

Section ColumnLoop.
Variables noise2D noise2D_b noise2D_c : number → number → number.

Abbreviation getTerrainHeight' := (getTerrainHeight noise2D).
Abbreviation getBiome' := (getBiome noise2D_b).
Abbreviation generateColumn' := (generateColumn noise2D noise2D_b noise2D_c).
Abbreviation generateColumns' := (generateColumns noise2D noise2D_b noise2D_c).

Ltac lookup_cases :=
  rewrite ?lookup_insert;
  repeat case_decide;
  repeat match goal with
         | H : toKey _ _ _ = toKey _ _ _ |- _ => apply toKey_inj in H
         | H : toKey _ _ _ ≠ toKey _ _ _ |- _ => rewrite toKey_inj in H
         end;
  first [done | exfalso; lia | exfalso; tauto].

(** The store after the body of the loop for the column [(x, z)]. *)
Lemma generateColumn_lookup st x z x' y' z' :
  gen_blocks (generateColumn' st x z) !! toKey x' y' z' =
  let height := getTerrainHeight' x z in
  if decide (x' = x ∧ z' = z) then
    if decide (height + 1 ≤ y' ≤ 5) then Some water
    else if decide (1 ≤ y' ≤ height)
         then Some (terrainType height (getBiome' x z) y')
    else if decide (y' = 0) then Some bedrock
    else gen_blocks st !! toKey x' y' z'
  else gen_blocks st !! toKey x' y' z'.
Proof.
  unfold generateColumn. cbv zeta.
  set (height := getTerrainHeight' x z). set (biome := getBiome' x z).
  destruct (decide (height < 5)) as [Hlow|Hhigh]; cbn [gen_blocks].
  - rewrite fillWater_lookup, fillTerrain_lookup. lookup_cases.
  - rewrite fillTerrain_lookup. lookup_cases.
Qed.

Lemma columnLoop_layers cols st x z y :
  (x, z) ∈ cols →
  0 ≤ y ≤ getTerrainHeight' x z →
  gen_blocks (foldl (λ st c, generateColumn' st c.1 c.2) st cols)
    !! toKey x y z
  = Some (layerType (getTerrainHeight' x z) (getBiome' x z) y).
Proof.
  intros Hin Hy. induction cols as [|c cols IH] using rev_ind.
  - by apply elem_of_nil in Hin.
  - rewrite foldl_app. cbn [foldl]. rewrite generateColumn_lookup. cbv zeta.
    destruct (decide (x = c.1 ∧ z = c.2)) as [[-> ->]|Hne].
    + unfold layerType. repeat case_decide; first [done | exfalso; lia].
    + apply IH. apply elem_of_app in Hin as [Hin|Hin]; [done|].
      apply list_elem_of_singleton in Hin. subst c. cbn in Hne. tauto.
Qed.

(** The layers of a column of the world after the column loop. *)
Lemma generateColumns_layers st x z y :
  - WORLD_SIZE ≤ x < WORLD_SIZE →
  - WORLD_SIZE ≤ z < WORLD_SIZE →
  0 ≤ y ≤ getTerrainHeight' x z →
  gen_blocks (generateColumns' st) !! toKey x y z
  = Some (layerType (getTerrainHeight' x z) (getBiome' x z) y).
Proof.
  intros Hx Hz Hy. unfold generateColumns.
  rewrite (foldl_columns generateColumn').
  apply columnLoop_layers; [|done].
  apply elem_of_columns. unfold worldRange. rewrite !elem_of_seqZ. lia.
Qed.

(** *** The height of a column, for samplers with values in [-1, 1] *)

Hypothesis noise2D_range : ∀ a b, (-1 ≤ noise2D a b ∧ noise2D a b ≤ 1)%Qc.

Ltac name_samples :=
  repeat match goal with
         | |- context [noise2D ?a ?b] =>
             let n := fresh "n" in
             let Hn := fresh "Hn" in
             pose proof (noise2D_range a b) as Hn;
             set (n := noise2D a b) in *; clearbody n
         end.

Lemma fbm_terrain_range a b :
  (-1 ≤ fbm noise2D a b 4 (ofZ 2) (num (5 # 10)) ∧
   fbm noise2D a b 4 (ofZ 2) (num (5 # 10)) ≤ 1)%Qc.
Proof.
  unfold fbm. cbn [fbm_loop]. name_samples.
  replace (0 + 1 + 1 * num (5 # 10) + 1 * num (5 # 10) * num (5 # 10)
           + 1 * num (5 # 10) * num (5 # 10) * num (5 # 10))%Qc
    with (num (15 # 8)) by (apply Qc_is_canon; reflexivity).
  qc2q. change (/ (15 # 8))%Q with (8 # 15)%Q. split; lra.
Qed.

Lemma fbm_mountain_range a b :
  (fbm noise2D a b 3 (ofZ 2) (num (6 # 10)) ≤ 1)%Qc.
Proof.
  unfold fbm. cbn [fbm_loop]. name_samples.
  replace (0 + 1 + 1 * num (6 # 10) + 1 * num (6 # 10) * num (6 # 10))%Qc
    with (num (49 # 25)) by (apply Qc_is_canon; reflexivity).
  qc2q. change (/ (49 # 25))%Q with (25 # 49)%Q. lra.
Qed.

Lemma getTerrainHeight_range x z : 2 ≤ getTerrainHeight' x z ≤ 22.
Proof.
  unfold getTerrainHeight. cbv zeta.
  match goal with
  | |- context [fbm noise2D ?a ?b 4 _ _] =>
      pose proof (fbm_terrain_range a b) as [Hlo Hhi];
      set (h := fbm noise2D a b 4 _ _) in *; clearbody h
  end.
  match goal with
  | |- context [fbm noise2D ?a ?b 3 _ _] =>
      pose proof (fbm_mountain_range a b) as Hm;
      set (m := fbm noise2D a b 3 _ _) in *; clearbody m
  end.
  clear noise2D_range.
  assert (Hmax : (0 ≤ Math_max 0 m ∧ Math_max 0 m ≤ 1)%Qc).
  { unfold Math_max. case_decide as Hpos; [|done].
    split; [by apply Qclt_le_weak | done]. }
  destruct Hmax as [Hmax0 Hmax1].
  set (mountains := Math_max 0 m) in *. clearbody mountains.
  split.
  - apply Math_floor_ge. qc2q. qconst. lra.
  - apply Z.lt_succ_r. change (Z.succ 22) with 23.
    apply Math_floor_lt. qc2q. qconst. lra.
Qed.
End ColumnLoop.

(** C1, as the code has it.  For samplers with values in [-1, 1], every
    column of the world has a height between 2 and 22 and, after the
    column loop, bedrock at y = 0, grass (sand in a desert) at the top
    y = h, dirt (sand in a desert) in the two layers under the top where
    they lie above y = 0, and stone from y = 1 up to y = h - 3. *)
Theorem column_layers (noise2D noise2D_b noise2D_c : number → number → number)
    (x z : Z) :
  (∀ a b, (-1 ≤ noise2D a b ∧ noise2D a b ≤ 1)%Qc) →
  - WORLD_SIZE ≤ x < WORLD_SIZE →
  - WORLD_SIZE ≤ z < WORLD_SIZE →
  let height := getTerrainHeight noise2D x z in
  let biome := getBiome noise2D_b x z in
  let blocks :=
    gen_blocks (generateColumns noise2D noise2D_b noise2D_c (mkGen ∅ ∅ [])) in
  2 ≤ height ≤ 22 ∧
  blocks !! toKey x 0 z = Some bedrock ∧
  blocks !! toKey x height z
    = Some (if decide (biome = desert) then sand else grass) ∧
  (∀ y, 1 ≤ y → height - 3 < y < height →
     blocks !! toKey x y z
     = Some (if decide (biome = desert) then sand else dirt)) ∧
  (∀ y, 1 ≤ y ≤ height - 3 → blocks !! toKey x y z = Some stone).
Proof.
  intros Hrange Hx Hz height biome blocks.
  pose proof (getTerrainHeight_range noise2D Hrange x z) as Hh.
  fold height in Hh.
  assert (Hlayer : ∀ y, 0 ≤ y ≤ height →
            blocks !! toKey x y z = Some (layerType height biome y)).
  { intros y Hy. subst blocks. by apply generateColumns_layers. }
  split; [done|]. repeat split.
  - rewrite Hlayer by lia. done.
  - rewrite Hlayer by lia. unfold layerType, terrainType.
    repeat case_decide; first [done | exfalso; lia].
  - intros y Hy1 Hy. rewrite Hlayer by lia. unfold layerType, terrainType.
    repeat case_decide; first [done | exfalso; lia].
  - intros y Hy. rewrite Hlayer by lia. unfold layerType, terrainType.
    repeat case_decide; first [done | exfalso; lia].
Qed.

Lemma flatNoise_range a b : (-1 ≤ flatNoise a b ∧ flatNoise a b ≤ 1)%Qc.
Proof. split; vm_compute; discriminate. Qed.

Lemma flatNoise_height : getTerrainHeight flatNoise 0 0 = 8.
Proof. vm_compute. reflexivity. Qed.

Lemma flatNoise_biome : getBiome flatNoise 0 0 = plains.
Proof. vm_compute. reflexivity. Qed.

Lemma column_layers_witness :
  let height := getTerrainHeight flatNoise 0 0 in
  let biome := getBiome flatNoise 0 0 in
  let blocks :=
    gen_blocks (generateColumns flatNoise flatNoise flatNoise (mkGen ∅ ∅ [])) in
  2 ≤ height ≤ 22 ∧
  blocks !! toKey 0 0 0 = Some bedrock ∧
  blocks !! toKey 0 height 0
    = Some (if decide (biome = desert) then sand else grass) ∧
  (∀ y, 1 ≤ y → height - 3 < y < height →
     blocks !! toKey 0 y 0
     = Some (if decide (biome = desert) then sand else dirt)) ∧
  (∀ y, 1 ≤ y ≤ height - 3 → blocks !! toKey 0 y 0 = Some stone).
Proof.
  apply (column_layers flatNoise flatNoise flatNoise 0 0).
  - exact flatNoise_range.
  - unfold WORLD_SIZE. lia.
  - unfold WORLD_SIZE. lia.
Defined.

(** C1 as stated fails at the third layer under the top: in the flat
    world, of plains of height 8, layer 8 - 3 holds stone, not dirt. *)
Lemma third_layer_under_top_is_stone :
  let height := getTerrainHeight flatNoise 0 0 in
  let biome := getBiome flatNoise 0 0 in
  let blocks :=
    gen_blocks (generateColumns flatNoise flatNoise flatNoise (mkGen ∅ ∅ [])) in
  height = 8 ∧ biome = plains ∧
  blocks !! toKey 0 (height - 3) 0 = Some stone ∧
  blocks !! toKey 0 (height - 3) 0 ≠ Some dirt.
Proof.
  cbv zeta. rewrite flatNoise_height, flatNoise_biome.
  assert (H : gen_blocks (generateColumns flatNoise flatNoise flatNoise
                            (mkGen ∅ ∅ [])) !! toKey 0 (8 - 3) 0 = Some stone).
  { rewrite generateColumns_layers; rewrite ?flatNoise_height, ?flatNoise_biome;
      unfold WORLD_SIZE; try lia. reflexivity. }
  rewrite H. repeat split; discriminate.
Qed.

(** ** World generation: trees *)

Lemma inLeafSphere_spec lx ly lz :
  inLeafSphere lx ly lz = true ↔ 4 * (lx * lx + ly * ly + lz * lz) ≤ 25.
Proof.
  unfold inLeafSphere, leb. rewrite bool_decide_eq_true.
  replace ((ofZ leafRadius + num (5 # 10)) * (ofZ leafRadius + num (5 # 10)))%Qc
    with (num (25 # 4)) by (apply Qc_is_canon; reflexivity).
  set (n := lx * lx + ly * ly + lz * lz).
  assert (Hq : (ofZ n ≤ num (25 # 4))%Qc ↔ (ofZ (4 * n) ≤ ofZ 25)%Qc).
  { unfold ofZ. rewrite Z2Qc_inj_mul. qc2q. qconst. split; intros; lra. }
  rewrite Hq. unfold ofZ. by rewrite <- Z2Qc_inj_le.
Qed.

Lemma placeTrunk_lookup tree trunkHeight blocks x y z :
  placeTrunk tree trunkHeight blocks !! toKey x y z =
  if decide (x = tree_x tree ∧ z = tree_z tree ∧
             tree_h tree + 1 ≤ y < tree_h tree + 1 + trunkHeight)
  then Some wood else blocks !! toKey x y z.
Proof.
  unfold placeTrunk. cbv zeta.
  rewrite <- (foldl_fmap
                (λ blocks y, <[toKey (tree_x tree) y (tree_z tree) := wood]> blocks)
                blocks (seqZ 0 trunkHeight) (Z.add (tree_h tree + 1))).
  rewrite (foldl_set_layers (λ _, wood)), fmap_add_seqZ.
  apply decide_ext. rewrite elem_of_seqZ. lia.
Qed.

Lemma placeLeaf_lookup tree leafCenter lx ly lz blocks key :
  placeLeaf tree leafCenter lx ly lz blocks !! key =
  if inLeafSphere lx ly lz
     && bool_decide (key = toKey (tree_x tree + lx) (leafCenter + ly)
                                 (tree_z tree + lz))
     && negb (isWood blocks key)
  then Some leaves else blocks !! key.
Proof.
  unfold placeLeaf. destruct (inLeafSphere lx ly lz); [|done].
  cbn [andb]. cbv zeta.
  set (k := toKey (tree_x tree + lx) (leafCenter + ly) (tree_z tree + lz)).
  assert (Hcond : negb (bool_decide (is_Some (blocks !! k)))
                  || negb (bool_decide (blocks !! k = Some wood))
                  = negb (isWood blocks k)).
  { unfold isWood. destruct (blocks !! k) as [t|].
    - rewrite bool_decide_eq_true_2 by (by eexists). done.
    - rewrite (bool_decide_eq_false_2 (None = Some wood)) by done. done. }
  rewrite Hcond. destruct (decide (key = k)) as [->|Hne].
  - rewrite bool_decide_eq_true_2 by done. cbn [andb].
    destruct (isWood blocks k); cbn [negb].
    + done.
    + by rewrite lookup_insert_eq.
  - rewrite bool_decide_eq_false_2 by done. cbn [andb].
    destruct (isWood blocks k); cbn [negb]; [done|].
    by rewrite lookup_insert_ne.
Qed.

Lemma placeLeaf_isWood tree leafCenter lx ly lz blocks key :
  isWood (placeLeaf tree leafCenter lx ly lz blocks) key = isWood blocks key.
Proof.
  unfold isWood at 1. rewrite placeLeaf_lookup.
  destruct (isWood blocks key) eqn:Hw.
  - rewrite andb_false_r. unfold isWood in Hw. by rewrite Hw.
  - rewrite andb_true_r. destruct (_ && _).
    + by rewrite bool_decide_eq_false_2.
    + exact Hw.
Qed.

Lemma leafLoop_lookup tree leafCenter offsets blocks key :
  foldl (λ blocks '(lx, ly, lz), placeLeaf tree leafCenter lx ly lz blocks)
        blocks offsets !! key =
  if leafLands tree leafCenter offsets key && negb (isWood blocks key)
  then Some leaves else blocks !! key.
Proof.
  revert blocks. induction offsets as [|[[lx ly] lz] offsets IH]; intros blocks.
  - done.
  - cbn [foldl leafLands existsb]. rewrite IH. clear IH.
    rewrite placeLeaf_isWood, placeLeaf_lookup.
    fold (leafLands tree leafCenter offsets key).
    destruct (leafLands tree leafCenter offsets key),
             (isWood blocks key), (inLeafSphere lx ly lz),
             (bool_decide (key = _)); done.
Qed.

(** Three nested loops are one loop over the triples they visit. *)
Lemma foldl_cube {A} (P : Z → Z → Z → A → A) (xs ys zs : list Z) (a : A) :
  foldl (λ a x, foldl (λ a y, foldl (λ a z, P x y z a) a zs) a ys) a xs =
  foldl (λ a '(x, y, z), P x y z a) a
        (x ← xs; y ← ys; z ← zs; [(x, y, z)]).
Proof.
  revert a. induction xs as [|x xs IHx]; intros a; [done|].
  cbn [foldl mbind list_bind]. rewrite foldl_app, <- IHx. f_equal. clear IHx.
  revert a. induction ys as [|y ys IHy]; intros a; [done|].
  cbn [foldl mbind list_bind]. rewrite foldl_app, <- IHy. f_equal. clear IHy.
  revert a. induction zs as [|z zs IHz]; intros a; [done|].
  cbn [foldl mbind list_bind app]. by rewrite <- IHz.
Qed.

Lemma placeLeaves_offsets tree leafCenter blocks :
  placeLeaves tree leafCenter blocks =
  foldl (λ blocks '(lx, ly, lz), placeLeaf tree leafCenter lx ly lz blocks)
        blocks leafOffsets.
Proof.
  unfold placeLeaves, leafOffsets.
  apply (foldl_cube (λ lx ly lz blocks, placeLeaf tree leafCenter lx ly lz blocks)).
Qed.

Lemma elem_of_leafOffsets lx ly lz :
  (lx, ly, lz) ∈ leafOffsets ↔ -2 ≤ lx ≤ 2 ∧ -1 ≤ ly ≤ 2 ∧ -2 ≤ lz ≤ 2.
Proof.
  unfold leafOffsets, leafRadius. split.
  - intros H.
    apply list_elem_of_bind in H as (x & H & Hx).
    apply list_elem_of_bind in H as (y & H & Hy).
    apply list_elem_of_bind in H as (z & H & Hz).
    apply list_elem_of_singleton in H as [= -> -> ->].
    apply elem_of_seqZ in Hx, Hy, Hz. lia.
  - intros (Hx & Hy & Hz).
    apply list_elem_of_bind. exists lx. split; [|apply elem_of_seqZ; lia].
    apply list_elem_of_bind. exists ly. split; [|apply elem_of_seqZ; lia].
    apply list_elem_of_bind. exists lz. split; [|apply elem_of_seqZ; lia].
    by apply list_elem_of_singleton.
Qed.

Lemma leafLands_spec tree leafCenter key :
  leafLands tree leafCenter leafOffsets key = true ↔
  ∃ lx ly lz, -2 ≤ lx ≤ 2 ∧ -1 ≤ ly ≤ 2 ∧ -2 ≤ lz ≤ 2 ∧
    4 * (lx * lx + ly * ly + lz * lz) ≤ 25 ∧
    key = toKey (tree_x tree + lx) (leafCenter + ly) (tree_z tree + lz).
Proof.
  unfold leafLands. rewrite existsb_exists. split.
  - intros ([[lx ly] lz] & Hin & Hcond).
    apply andb_true_iff in Hcond as [Hs Hk].
    apply bool_decide_eq_true in Hk. apply inLeafSphere_spec in Hs.
    apply list_elem_of_In, elem_of_leafOffsets in Hin.
    exists lx, ly, lz. tauto.
  - intros (lx & ly & lz & Hx & Hy & Hz & Hs & Hk).
    exists (lx, ly, lz). split.
    + apply list_elem_of_In, elem_of_leafOffsets. tauto.
    + apply andb_true_iff. split; [by apply inLeafSphere_spec|].
      by apply bool_decide_eq_true.
Qed.

Lemma trunkHeightOf_ge noise2D_c tree : 4 ≤ trunkHeightOf noise2D_c tree.
Proof.
  unfold trunkHeightOf.
  enough (0 ≤ Math_floor (Math_abs (noise2D_c
            (ofZ (tree_x tree) * num (73 # 10))%Qc
            (ofZ (tree_z tree) * num (73 # 10))%Qc) * ofZ 3)%Qc) by lia.
  apply Math_floor_ge. unfold ofZ at 1. rewrite Z2Qc_inj_0.
  apply Qcmult_nonneg_nonneg; [apply Qcabs_nonneg|].
  unfold ofZ. rewrite <- Z2Qc_inj_0. by apply Z2Qc_inj_le.
Qed.

(** The store after one tree, for a trunk of height [trunkHeight]. *)
Lemma placeTreeWith_lookup trunkHeight blocks tree key :
  let leafCenter := tree_h tree + trunkHeight in
  let withTrunk := placeTrunk tree trunkHeight blocks in
  placeTreeWith trunkHeight blocks tree !! key =
  if decide (key = toKey (tree_x tree) (leafCenter + 3) (tree_z tree))
  then Some leaves
  else if leafLands tree leafCenter leafOffsets key && negb (isWood withTrunk key)
  then Some leaves
  else withTrunk !! key.
Proof.
  cbv zeta. unfold placeTreeWith. cbv zeta.
  replace (tree_h tree + 1 + trunkHeight - 1) with (tree_h tree + trunkHeight)
    by lia.
  change (tree_h tree + trunkHeight + leafRadius + 1)
    with (tree_h tree + trunkHeight + 2 + 1).
  replace (tree_h tree + trunkHeight + 2 + 1) with (tree_h tree + trunkHeight + 3)
    by lia.
  rewrite lookup_insert. case_decide as Hk.
  - by rewrite decide_True.
  - rewrite decide_False by done.
    by rewrite placeLeaves_offsets, leafLoop_lookup.
Qed.

(** C6, as the code has it.  A tree's trunk is at least 4 blocks of wood
    and the leaf centre is its topmost block.  Every offset within distance
    2.5 of the centre whose vertical part is between -1 and 2 ends as
    leaves, unless the coordinate holds wood once the trunk stands, and
    then it stays wood; the layer two below the centre gets no leaves; and
    one more block of leaves sits 3 above the centre. *)
Theorem tree_leaves (noise2D_c : number → number → number)
    (blocks : gmap Key BlockType) (tree : Tree) :
  let trunkHeight := trunkHeightOf noise2D_c tree in
  let leafCenter := tree_h tree + trunkHeight in
  let withTrunk := placeTrunk tree trunkHeight blocks in
  let blocks' := placeTree noise2D_c blocks tree in
  4 ≤ trunkHeight ∧
  (∀ y, tree_h tree + 1 ≤ y ≤ leafCenter →
     blocks' !! toKey (tree_x tree) y (tree_z tree) = Some wood) ∧
  (∀ lx ly lz,
     -2 ≤ lx ≤ 2 → -1 ≤ ly ≤ 2 → -2 ≤ lz ≤ 2 →
     4 * (lx * lx + ly * ly + lz * lz) ≤ 25 →
     let key := toKey (tree_x tree + lx) (leafCenter + ly) (tree_z tree + lz) in
     blocks' !! key = if isWood withTrunk key then Some wood else Some leaves) ∧
  (∀ lx lz,
     let key := toKey (tree_x tree + lx) (leafCenter - 2) (tree_z tree + lz) in
     blocks' !! key = withTrunk !! key) ∧
  blocks' !! toKey (tree_x tree) (leafCenter + 3) (tree_z tree) = Some leaves.
Proof.
  intros trunkHeight leafCenter withTrunk blocks'.
  pose proof (trunkHeightOf_ge noise2D_c tree) as Hth. fold trunkHeight in Hth.
  assert (Hlookup : ∀ key, blocks' !! key =
            if decide (key = toKey (tree_x tree) (leafCenter + 3) (tree_z tree))
            then Some leaves
            else if leafLands tree leafCenter leafOffsets key
                    && negb (isWood withTrunk key)
            then Some leaves
            else withTrunk !! key).
  { intros key. apply placeTreeWith_lookup. }
  split; [done|]. repeat split.
  - intros y Hy. rewrite Hlookup.
    rewrite decide_False by (rewrite toKey_inj; lia).
    assert (Hw : withTrunk !! toKey (tree_x tree) y (tree_z tree) = Some wood).
    { subst withTrunk. rewrite placeTrunk_lookup. rewrite decide_True; [done|].
      subst leafCenter. lia. }
    unfold isWood. rewrite bool_decide_eq_true_2 by done.
    by rewrite andb_false_r.
  - intros lx ly lz Hx Hy Hz Hs key. rewrite Hlookup.
    rewrite decide_False by (subst key; rewrite toKey_inj; lia).
    assert (Hland : leafLands tree leafCenter leafOffsets key = true).
    { apply leafLands_spec. exists lx, ly, lz. tauto. }
    rewrite Hland. cbn [andb].
    destruct (isWood withTrunk key) eqn:Hw; cbn [negb]; [|done].
    unfold isWood in Hw. by apply bool_decide_eq_true in Hw.
  - intros lx lz key. rewrite Hlookup.
    rewrite decide_False by (subst key; rewrite toKey_inj; lia).
    destruct (leafLands tree leafCenter leafOffsets key) eqn:Hland; [|done].
    apply leafLands_spec in Hland as (lx' & ly' & lz' & _ & Hy & _ & _ & Hk).
    subst key. apply toKey_inj in Hk. lia.
  - rewrite Hlookup. by rewrite decide_True.
Qed.

(** C6 as stated fails under the centre: the offset (1, -2, 0) is within
    2.5 of the centre and holds no wood, and gets no leaves.  The tree
    stands on the column (0, 0) of height 5 in an empty store; its trunk
    fills y = 6..9, so the centre is (0, 9, 0), the top of the trunk; the
    same holds of the voxel below it taken as centre. *)
Lemma leaf_sphere_has_no_bottom_layer :
  let blocks' := placeTree flatNoise ∅ (mkTree 0 0 5) in
  trunkHeightOf flatNoise (mkTree 0 0 5) = 4 ∧
  blocks' !! toKey 0 9 0 = Some wood ∧
  blocks' !! toKey 0 10 0 = Some leaves ∧
  4 * (1 * 1 + (-2) * (-2) + 0 * 0) ≤ 25 ∧
  blocks' !! toKey (0 + 1) (9 + -2) (0 + 0) = None ∧
  blocks' !! toKey (0 + 1) (8 + -2) (0 + 0) = None ∧
  blocks' !! toKey (0 + 1) (9 + -1) (0 + 0) = Some leaves.
Proof. cbv zeta. repeat split; vm_compute; done. Qed.

(** ** The generated world *)

(** A tree leaves alone what lies at or under the ground it stands on. *)
Lemma placeTree_below noise2D_c blocks tree x y z :
  y ≤ tree_h tree →
  placeTree noise2D_c blocks tree !! toKey x y z = blocks !! toKey x y z.
Proof.
  intros Hy. unfold placeTree. rewrite placeTreeWith_lookup. cbv zeta.
  pose proof (trunkHeightOf_ge noise2D_c tree) as Hth.
  rewrite decide_False by (rewrite toKey_inj; lia).
  destruct (leafLands _ _ _ _) eqn:Hland.
  - apply leafLands_spec in Hland as (lx & ly & lz & _ & Hly & _ & _ & Hk).
    apply toKey_inj in Hk. lia.
  - cbn [andb]. rewrite placeTrunk_lookup. rewrite decide_False; [done|]. lia.
Qed.

Lemma placeTrees_below noise2D_c trees blocks x y z :
  Forall (λ tree, y ≤ tree_h tree) trees →
  foldl (placeTree noise2D_c) blocks trees !! toKey x y z = blocks !! toKey x y z.
Proof.
  intros Htrees. revert blocks.
  induction Htrees as [|tree trees Htree _ IH]; intros blocks; [done|].
  cbn [foldl]. rewrite IH. by apply placeTree_below.
Qed.

(** Every tree the column loop schedules stands on ground of height 5 or more. *)
Lemma generateColumn_trees noise2D noise2D_b noise2D_c st x z :
  Forall (λ tree, 5 ≤ tree_h tree) (gen_treePositions st) →
  Forall (λ tree, 5 ≤ tree_h tree)
    (gen_treePositions (generateColumn noise2D noise2D_b noise2D_c st x z)).
Proof.
  intros Hst. unfold generateColumn. cbv zeta.
  destruct (decide (_ < 5)); cbn [gen_treePositions];
    destruct (bool_decide (_ >= 5)) eqn:Hh; cbn [andb]; try done;
    destruct (negb _ && _); try done;
    apply bool_decide_eq_true in Hh;
    (apply Forall_app; split; [done|]); apply Forall_singleton; cbn; lia.
Qed.

Lemma generateColumns_trees noise2D noise2D_b noise2D_c st :
  Forall (λ tree, 5 ≤ tree_h tree) (gen_treePositions st) →
  Forall (λ tree, 5 ≤ tree_h tree)
    (gen_treePositions (generateColumns noise2D noise2D_b noise2D_c st)).
Proof.
  unfold generateColumns.
  rewrite (foldl_columns (generateColumn noise2D noise2D_b noise2D_c)).
  generalize (columns worldRange worldRange). intros cols. revert st.
  induction cols as [|c cols IH]; intros st Hst; [done|].
  cbn [foldl]. apply IH. by apply generateColumn_trees.
Qed.

(** X2. The floor of the finished world, trees included, is bedrock in
    every column, for samplers with values in [-1, 1]. *)
Theorem world_floor_is_bedrock
    (noise2D noise2D_b noise2D_c : number → number → number) (x z : Z) :
  (∀ a b, (-1 ≤ noise2D a b ∧ noise2D a b ≤ 1)%Qc) →
  - WORLD_SIZE ≤ x < WORLD_SIZE →
  - WORLD_SIZE ≤ z < WORLD_SIZE →
  blocks (generateWorld noise2D noise2D_b noise2D_c) !! toKey x 0 z
  = Some bedrock.
Proof.
  intros Hrange Hx Hz. unfold generateWorld. cbv zeta. cbn [blocks].
  rewrite placeTrees_below.
  - pose proof (getTerrainHeight_range noise2D Hrange x z) as Hh.
    rewrite (generateColumns_layers noise2D noise2D_b noise2D_c) by (done || lia).
    done.
  - eapply Forall_impl; [apply generateColumns_trees; constructor|].
    cbn. intros tree Htree. lia.
Qed.

Lemma world_floor_is_bedrock_witness :
  blocks (generateWorld flatNoise flatNoise flatNoise) !! toKey 0 0 0
  = Some bedrock.
Proof.
  apply (world_floor_is_bedrock flatNoise flatNoise flatNoise 0 0).
  - exact flatNoise_range.
  - unfold WORLD_SIZE. lia.
  - unfold WORLD_SIZE. lia.
Defined.

(** X3. A click that would place a block where one is already changes
    nothing. *)
Theorem place_on_occupied_unchanged (blocks : gmap Key BlockType)
    (cp : Vector3) (selectedBlock : BlockType) (hit : RayHit) :
  is_Some (blocks !! keyOf (placeTarget hit)) →
  placeBlock blocks cp selectedBlock hit = blocks.
Proof.
  unfold placeBlock. destruct (placeTarget hit) as [[px py] pz]. cbn [keyOf].
  intros Hsome. destruct (insidePlayer _ _); [done|].
  by rewrite bool_decide_eq_true_2.
Qed.

Lemma place_on_occupied_unchanged_witness :
  placeBlock floor2 aboveCamera glass (mkHit (toKey 0 0 0) (0, 0, 0) (1, 0, 0))
  = floor2.
Proof.
  apply (place_on_occupied_unchanged floor2 aboveCamera glass
           (mkHit (toKey 0 0 0) (0, 0, 0) (1, 0, 0))).
  exists stone. vm_compute. reflexivity.
Defined.

(** ** Collision: what the 27 samples of [checkCollision] see *)

Lemma Math_round_eq n x :
  Math_round x = n ↔ (ofZ n - num (1 # 2) ≤ x ∧ x < ofZ n + num (1 # 2))%Qc.
Proof.
  rewrite <- Math_round_ge, <- Math_round_le. lia.
Qed.

Lemma Math_round_add_Z x k : Math_round (x + ofZ k)%Qc = Math_round x + k.
Proof.
  apply Math_round_eq.
  destruct (proj1 (Math_round_eq (Math_round x) x) eq_refl) as [Hlo Hhi].
  unfold ofZ in *. rewrite Z2Qc_inj_add. qc2q. split; lra.
Qed.

Lemma isBlockSolid_spec blocks bx by_ bz :
  isBlockSolid blocks (ofZ bx) (ofZ by_) (ofZ bz) = true ↔
  solidAt blocks (bx, by_, bz).
Proof.
  unfold isBlockSolid, solidAt. cbv zeta. rewrite !Math_round_ofZ. cbn [keyOf].
  destruct (blocks !! toKey bx by_ bz) as [t|].
  - rewrite bool_decide_eq_true. split; [by eauto|]. by intros (? & [= <-] & ?).
  - split; [done|]. by intros (? & ? & _).
Qed.

(** One offset of the three loops: it collides exactly when the voxel it
    rounds to is solid and meets the player's box. *)
Lemma collidesAt_spec blocks px py pz dx dy dz :
  collidesAt blocks px py pz dx dy dz = true ↔
  let b := (Math_round (px + ofZ dx * PLAYER_RADIUS)%Qc,
            Math_round (py - PLAYER_HEIGHT + ofZ dy)%Qc,
            Math_round (pz + ofZ dz * PLAYER_RADIUS)%Qc) in
  solidAt blocks b ∧ playerBoxMeets px py pz b.
Proof.
  unfold collidesAt. cbv zeta.
  destruct (isBlockSolid _ _ _ _) eqn:Hsolid.
  - apply isBlockSolid_spec in Hsolid. unfold playerBoxMeets, ltb.
    rewrite !andb_true_iff, !bool_decide_eq_true. tauto.
  - split; [done|]. intros [Hs _]. apply isBlockSolid_spec in Hs. congruence.
Qed.

(** A cube that meets the player's box along an axis of radius
    [PLAYER_RADIUS] is the rounding of one of the three samples there. *)
Lemma sample_radius p b :
  (ofZ b - num (5 # 10) < p + PLAYER_RADIUS)%Qc →
  (p - PLAYER_RADIUS < ofZ b + num (5 # 10))%Qc →
  ∃ d, d ∈ seqZ (-1) 3 ∧ Math_round (p + ofZ d * PLAYER_RADIUS)%Qc = b.
Proof.
  intros Hlo Hhi. destruct (decide (p < ofZ b)%Qc) as [Hlt|Hge].
  - exists 1. split; [apply elem_of_seqZ; lia|].
    apply Math_round_eq. unfold PLAYER_RADIUS in *. qc2q. qconst. split; lra.
  - apply Qcnot_lt_le in Hge. exists (-1). split; [apply elem_of_seqZ; lia|].
    apply Math_round_eq. unfold PLAYER_RADIUS in *. qc2q. qconst. split; lra.
Qed.

(** The same for the height of the box: three samples one voxel apart. *)
Lemma sample_height p b :
  (ofZ b - num (5 # 10) < p + num (1 # 10))%Qc →
  (p - PLAYER_HEIGHT < ofZ b + num (5 # 10))%Qc →
  ∃ d, d ∈ seqZ 0 3 ∧ Math_round (p - PLAYER_HEIGHT + ofZ d)%Qc = b.
Proof.
  intros Hlo Hhi. set (m := Math_round (p - PLAYER_HEIGHT)%Qc).
  destruct (proj1 (Math_round_eq m (p - PLAYER_HEIGHT)%Qc) eq_refl) as [Hm1 Hm2].
  assert (Hge : m - 1 < b).
  { apply Z2Qc_inj_lt. rewrite Z2Qc_inj_sub, Z2Qc_inj_1.
    unfold PLAYER_HEIGHT in *. qc2q. lra. }
  assert (Hle : b < m + 3).
  { apply Z2Qc_inj_lt. rewrite Z2Qc_inj_add.
    change (Qc_of_Z 3) with (ofZ 3).
    unfold PLAYER_HEIGHT in *. qc2q. qconst. lra. }
  exists (b - m). split; [apply elem_of_seqZ; lia|].
  rewrite Math_round_add_Z. fold m. lia.
Qed.


(** The three moves of a frame end where [checkCollision] is clear, unless
    the floor clamp set the height. *)
Lemma moveAndCollide_clear blocks delta pos vel grounded :
  checkCollision blocks (v_x pos) (v_y pos) (v_z pos) = false →
  let p' := moveAndCollide blocks delta pos vel grounded in
  checkCollision blocks (v_x (position p')) (v_y (position p'))
    (v_z (position p')) = false ∨
  (v_y (position p') = 1%Qc ∧ v_y (velocity p') = 0%Qc ∧ onGround p' = true).
Proof.
  intros Hclear p'. subst p'. unfold moveAndCollide.
  destruct (checkCollision blocks (v_x pos + v_x vel * delta)%Qc _ _) eqn:HX;
    cbn [negb v_x v_y v_z];
    match goal with
    | |- context [if negb (checkCollision ?b ?x ?y ?z) then _ else _] =>
        destruct (checkCollision b x y z) eqn:HZ
    end; cbn [negb v_x v_y v_z];
    match goal with
    | |- context [if negb (checkCollision ?b ?x ?y ?z) then _ else _] =>
        destruct (checkCollision b x y z) eqn:HY
    end; cbn [negb v_x v_y v_z];
    match goal with
    | |- context [if ltb ?x 1%Qc then _ else _] => destruct (ltb x 1%Qc)
    end; cbn [position velocity onGround v_x v_y v_z]; auto.
Qed.

(** X6. A frame never moves the player into a block: from a position
    clear of collisions, the position after the frame is clear too, unless
    the frame ended in the floor clamp, which puts the camera at height 1,
    at rest and grounded. *)
Theorem frame_keeps_player_clear (Math_sqrt : number → number)
    (Math_pow : number → number → number) (blocks : gmap Key BlockType)
    (input : FrameInput) (rawDelta : number) (p : Player) :
  checkCollision blocks (v_x (position p)) (v_y (position p))
    (v_z (position p)) = false →
  let p' := useFrame Math_sqrt Math_pow blocks input rawDelta p in
  checkCollision blocks (v_x (position p')) (v_y (position p'))
    (v_z (position p')) = false ∨
  (v_y (position p') = 1%Qc ∧ v_y (velocity p') = 0%Qc ∧ onGround p' = true).
Proof.
  intros Hclear p'. subst p'. unfold useFrame.
  destruct (pointerLocked input); cbn [negb].
  - destruct (updateVelocity _ _ _ _ _) as [vel grounded].
    by apply moveAndCollide_clear.
  - by left.
Qed.

Lemma frame_keeps_player_clear_witness :
  let p' := useFrame sqrtQ powFrame corridor idle (num (5 # 100)) drifting in
  checkCollision corridor (v_x (position p')) (v_y (position p'))
    (v_z (position p')) = false ∨
  (v_y (position p') = 1%Qc ∧ v_y (velocity p') = 0%Qc ∧ onGround p' = true).
Proof.
  apply (frame_keeps_player_clear sqrtQ powFrame corridor idle (num (5 # 100))
           drifting).
  vm_compute. reflexivity.
Defined.

(** ** The game loop: the vertical speed of a walking player *)

Lemma moveAndCollide_vy blocks delta pos vel grounded :
  let p' := moveAndCollide blocks delta pos vel grounded in
  v_y (velocity p') = v_y vel ∨ v_y (velocity p') = 0%Qc.
Proof.
  intros p'. subst p'. unfold moveAndCollide.
  repeat match goal with
         | |- context [if negb (checkCollision ?b ?x ?y ?z) then _ else _] =>
             destruct (checkCollision b x y z); cbn [negb v_x v_y v_z]
         end;
    match goal with
    | |- context [if ltb ?x 1%Qc then _ else _] => destruct (ltb x 1%Qc)
    end; cbn [position velocity onGround v_x v_y v_z]; auto.
Qed.

(** The vertical velocity a walking frame computes before it moves. *)
Lemma updateVelocity_walking_vy Math_sqrt Math_pow input delta p :
  isFlying input = false →
  let vy := v_y (velocity p) in
  let fall := (vy - GRAVITY * delta)%Qc in
  v_y (updateVelocity Math_sqrt Math_pow input delta p).1 =
  if has (keys input) "Space" && onGround p then JUMP_FORCE
  else if ltb fall (ofZ (-40)) then ofZ (-40) else fall.
Proof.
  intros Hfly. unfold updateVelocity. rewrite Hfly. cbv zeta. cbn [negb].
  repeat match goal with
         | |- context [let '(_, _) := ?e in _] => destruct e
         | |- context [if has ?k ?c then _ else _] =>
             lazymatch c with
             | "Space" => fail
             | _ => destruct (has k c)
             end
         | |- context [if ltb 0%Qc ?x then _ else _] => destruct (ltb 0%Qc x)
         end;
    destruct (has (keys input) "Space" && onGround p); cbn [fst v_y]; done.
Qed.

(** X7. Walking, the vertical velocity after a frame is never under the
    terminal -40; without a jump (Space held while grounded) it is never
    above both 0 and the velocity before the frame, so nothing but a jump
    from the ground sends the player up; a jump gives 9, or 0 if the head
    is blocked. *)
Theorem walking_vertical_speed (Math_sqrt : number → number)
    (Math_pow : number → number → number) (blocks : gmap Key BlockType)
    (input : FrameInput) (rawDelta : number) (p : Player) :
  pointerLocked input = true →
  isFlying input = false →
  (0 ≤ rawDelta)%Qc →
  let p' := useFrame Math_sqrt Math_pow blocks input rawDelta p in
  let vy := v_y (velocity p) in
  let vy' := v_y (velocity p') in
  (ofZ (-40) ≤ vy')%Qc ∧
  (has (keys input) "Space" && onGround p = false →
   (vy' ≤ Math_max vy 0)%Qc) ∧
  (has (keys input) "Space" && onGround p = true →
   vy' = JUMP_FORCE ∨ vy' = 0%Qc).
Proof.
  intros Hlocked Hfly Hdelta p' vy vy'. subst p' vy'. unfold useFrame.
  rewrite Hlocked. cbn [negb].
  set (delta := Math_min rawDelta (num (5 # 100))).
  assert (Hd : (0 ≤ delta)%Qc).
  { subst delta. unfold Math_min. case_decide; [|done]. vm_compute. discriminate. }
  pose proof (updateVelocity_walking_vy Math_sqrt Math_pow input delta p Hfly)
    as Hvy. cbv zeta in Hvy.
  destruct (updateVelocity Math_sqrt Math_pow input delta p) as [vel grounded].
  cbn [fst] in Hvy.
  pose proof (moveAndCollide_vy blocks delta (position p) vel grounded) as Hmove.
  cbv zeta in Hmove.
  set (out := v_y (velocity (moveAndCollide blocks delta (position p) vel grounded)))
    in *. clearbody out.
  fold vy in Hvy. rewrite Hvy in Hmove. clear Hvy.
  unfold GRAVITY, JUMP_FORCE, Math_max, ltb in *.
  destruct (has (keys input) "Space" && onGround p).
  - split; [|split; [done|intros _; tauto]].
    destruct Hmove as [-> | ->]; vm_compute; discriminate.
  - split; [|split; [intros _|done]].
    + case_bool_decide as Hfall; destruct Hmove as [-> | ->].
      * vm_compute. discriminate.
      * vm_compute. discriminate.
      * by apply Qcnot_lt_le.
      * vm_compute. discriminate.
    + case_bool_decide as Hfall; case_decide as Hpos;
        destruct Hmove as [-> | ->]; revert Hd Hfall Hpos;
        qc2q; qconst; intros; lra.
Qed.

Lemma walking_vertical_speed_witness :
  let p' := useFrame sqrtQ powFrame corridor idle (num (5 # 100)) drifting in
  let vy := v_y (velocity drifting) in
  let vy' := v_y (velocity p') in
  (ofZ (-40) ≤ vy')%Qc ∧
  (has (keys idle) "Space" && onGround drifting = false →
   (vy' ≤ Math_max vy 0)%Qc) ∧
  (has (keys idle) "Space" && onGround drifting = true →
   vy' = JUMP_FORCE ∨ vy' = 0%Qc).
Proof.
  apply (walking_vertical_speed sqrtQ powFrame corridor idle (num (5 # 100))
           drifting).
  - reflexivity.
  - reflexivity.
  - vm_compute. discriminate.
Defined.

(** ** Raycasting: the shape of a hit *)

Lemma faceNormalOf_axis b prev : b ≠ prev → faceNormalOf b prev ∈ FACE_DIRS.
Proof.
  destruct b as [[bx by_] bz], prev as [[px py] pz]. intros Hne.
  assert (Hd : bx - px ≠ 0 ∨ by_ - py ≠ 0 ∨ bz - pz ≠ 0).
  { destruct (decide (bx = px)) as [->|]; [|lia].
    destruct (decide (by_ = py)) as [->|]; [|lia].
    destruct (decide (bz = pz)) as [->|]; [|lia]. by destruct Hne. }
  unfold faceNormalOf, FACE_DIRS. cbv zeta.
  set (nx := bx - px) in *. set (ny := by_ - py) in *. set (nz := bz - pz) in *.
  clearbody nx ny nz. clear Hne.
  repeat case_bool_decide; cbn [andb].
  all: try (destruct (Z.sgn_spec nx) as [[? ->]|[[? ->]|[? ->]]];
            first [exfalso; lia | by repeat constructor]).
  all: try (destruct (Z.sgn_spec ny) as [[? ->]|[[? ->]|[? ->]]];
            first [exfalso; lia | by repeat constructor]).
  all: destruct (Z.sgn_spec nz) as [[? ->]|[[? ->]|[? ->]]];
       first [exfalso; lia | by repeat constructor].
Qed.

Lemma scanPath_hit_shape blocks prev path hit :
  scanPath blocks prev path = Some hit →
  ∃ b from, b ≠ from ∧ b ∈ path ∧
    hit = mkHit (keyOf b) b (faceNormalOf b from) ∧ solidAt blocks b.
Proof.
  revert prev. induction path as [|b path IH]; intros prev; [done|].
  cbn [scanPath]. destruct (probe blocks b prev) as [h|] eqn:Hp.
  - intros [= ->]. apply probe_Some in Hp as (Hne & -> & Ht).
    exists b, prev. repeat split; [done|constructor|done].
  - intros H. apply IH in H as (b' & from & ? & ? & ? & ?).
    exists b', from. repeat split; [done|by constructor|done..].
Qed.

Lemma placeTarget_neighbor hit :
  faceNormal hit ∈ FACE_DIRS →
  let '(hx, hy, hz) := hitPos hit in
  keyOf (placeTarget hit) ∈ faceNeighbors hx hy hz.
Proof.
  unfold placeTarget, FACE_DIRS, faceNeighbors.
  destruct (hitPos hit) as [[hx hy] hz], (faceNormal hit) as [[nx ny] nz].
  intros Hin. cbn [keyOf].
  repeat (apply elem_of_cons in Hin as [[= -> -> ->]|Hin]);
    [..|by apply elem_of_nil in Hin];
    rewrite ?Z.add_0_r; replace (hx + -1) with (hx - 1) by lia;
    replace (hy + -1) with (hy - 1) by lia;
    replace (hz + -1) with (hz - 1) by lia; by repeat constructor.
Qed.

(** X8. A hit of the raycast names a voxel on the ray that holds a block
    other than water, its key is the key of that voxel, its face normal is
    one of the six unit axis vectors, and so the coordinate a placement
    would fill shares a face with the hit voxel. *)
Theorem raycast_hit_shape (Math_sqrt : number → number)
    (origin direction : Vector3) (blocks : gmap Key BlockType)
    (maxDist : number) (hit : RayHit) :
  raycastBlocks Math_sqrt origin direction blocks maxDist = Some hit →
  hitPos hit ∈ rayVoxels Math_sqrt origin direction maxDist ∧
  hitKey hit = keyOf (hitPos hit) ∧
  solidAt blocks (hitPos hit) ∧
  faceNormal hit ∈ FACE_DIRS ∧
  (let '(hx, hy, hz) := hitPos hit in
   keyOf (placeTarget hit) ∈ faceNeighbors hx hy hz).
Proof.
  intros Hray. rewrite raycastBlocks_scan in Hray.
  apply scanPath_hit_shape in Hray as (b & from & Hne & Hin & -> & Hsolid).
  cbn [hitPos hitKey faceNormal].
  pose proof (faceNormalOf_axis b from Hne) as Haxis.
  repeat split; try done.
  by apply (placeTarget_neighbor (mkHit (keyOf b) b (faceNormalOf b from))).
Qed.

Lemma raycast_hit_shape_witness :
  let hit := mkHit (toKey 1 0 0) (1, 0, 0) (0, 1, 0) in
  hitPos hit ∈ rayVoxels sqrtQ besideCamera besideLook REACH_DISTANCE ∧
  hitKey hit = keyOf (hitPos hit) ∧
  solidAt floor2 (hitPos hit) ∧
  faceNormal hit ∈ FACE_DIRS ∧
  (let '(hx, hy, hz) := hitPos hit in
   keyOf (placeTarget hit) ∈ faceNeighbors hx hy hz).
Proof.
  apply (raycast_hit_shape sqrtQ besideCamera besideLook floor2 REACH_DISTANCE
           (mkHit (toKey 1 0 0) (1, 0, 0) (0, 1, 0))).
  vm_compute. reflexivity.
Defined.

(** ** The click handler: what one click can do to the store *)

Lemma raycastBlocks_solid Math_sqrt origin direction blocks maxDist hit :
  raycastBlocks Math_sqrt origin direction blocks maxDist = Some hit →
  hitKey hit = keyOf (hitPos hit) ∧
  ∃ t, blocks !! hitKey hit = Some t ∧ t ≠ water.
Proof.
  intros Hray. rewrite raycastBlocks_scan in Hray.
  apply scanPath_hit_shape in Hray as (b & from & _ & _ & -> & t & Ht & Hw).
  cbn [hitKey hitPos]. eauto.
Qed.

(** The store after a click, against the store before it: nothing
    ([clickSame]), one block other than bedrock and water removed
    ([clickBroke]), or one block of the selected kind added at a
    coordinate that was free ([clickPlaced]). *)
Lemma onClick_cases Math_sqrt locked button cp dir selectedBlock blocks :
  let after := onClick Math_sqrt locked button cp dir selectedBlock blocks in
  after = blocks ∨
  (∃ key t, blocks !! key = Some t ∧ t ≠ bedrock ∧ t ≠ water ∧
            button = 0 ∧ after = delete key blocks) ∨
  (∃ key, blocks !! key = None ∧ button = 2 ∧
          after = <[key := selectedBlock]> blocks).
Proof.
  cbv zeta. unfold onClick. destruct locked; cbn [negb]; [|by left].
  destruct (raycastBlocks _ _ _ _ _) as [hit|] eqn:Hray; [|by left].
  apply raycastBlocks_solid in Hray as (_ & t & Ht & Hw).
  case_bool_decide as Hb0.
  - unfold breakBlock. case_bool_decide as Hbed; [by left|].
    right; left. exists (hitKey hit), t. repeat split; try done.
    by intros ->.
  - case_bool_decide as Hb2; [|by left].
    destruct (placeTarget hit) as [[x y] z] eqn:Htarget.
    destruct (blocks !! toKey x y z) as [t'|] eqn:Hnew.
    + left. unfold placeBlock. rewrite Htarget, Hnew.
      destruct (insidePlayer _ _); [done|].
      by rewrite bool_decide_eq_true_2.
    + destruct (placeBlock_cases blocks cp selectedBlock hit x y z Htarget Hnew)
        as [-> | ->]; [by left|].
      right; right. by exists (toKey x y z).
Qed.

(** X9. One click changes the store at one coordinate at most; a block
    that is there before the click is still there, of the same kind,
    after it, or it is gone and was neither bedrock nor water; and a
    coordinate that was free holds nothing after the click but a block of
    the selected kind. *)
Theorem click_touches_one_block (Math_sqrt : number → number) (locked : bool)
    (button : Z) (cp dir : Vector3) (selectedBlock : BlockType)
    (blocks : gmap Key BlockType) :
  let after := onClick Math_sqrt locked button cp dir selectedBlock blocks in
  (∃ key, ∀ k, k ≠ key → after !! k = blocks !! k) ∧
  (∀ k t, blocks !! k = Some t →
     after !! k = Some t ∨ (after !! k = None ∧ t ≠ bedrock ∧ t ≠ water)) ∧
  (∀ k t, blocks !! k = None → after !! k = Some t → t = selectedBlock).
Proof.
  cbv zeta.
  destruct (onClick_cases Math_sqrt locked button cp dir selectedBlock blocks)
    as [-> | [(key & t & Ht & Hbed & Hw & _ & ->) | (key & Hnone & _ & ->)]].
  - split; [by exists (toKey 0 0 0)|]. split; [by left|]. congruence.
  - split; [exists key; intros k Hk; by rewrite lookup_delete_ne|].
    split.
    + intros k t' Hk. destruct (decide (k = key)) as [->|Hne].
      * right. rewrite lookup_delete_eq. by simplify_eq.
      * left. by rewrite lookup_delete_ne.
    + intros k t' Hk. destruct (decide (k = key)) as [->|Hne].
      * by rewrite lookup_delete_eq.
      * rewrite lookup_delete_ne by done. congruence.
  - split; [exists key; intros k Hk; by rewrite lookup_insert_ne|].
    split.
    + intros k t' Hk. left. rewrite lookup_insert_ne; [done|]. congruence.
    + intros k t' Hk. destruct (decide (k = key)) as [->|Hne].
      * rewrite lookup_insert_eq. congruence.
      * rewrite lookup_insert_ne by done. congruence.
Qed.

(** ** The block highlight and the click *)

(** X10. The wire-frame box agrees with the click handler, both casting
    the same ray: while it is hidden no click of any button changes the
    store; while it is shown it sits on a block other than water, a left
    click leaves every other coordinate as it is, and removes exactly the
    block under the box unless that block is bedrock. *)
Theorem highlight_marks_break_target (Math_sqrt : number → number)
    (cp dir : Vector3) (selectedBlock : BlockType)
    (blocks : gmap Key BlockType) (mesh : Highlight) :
  let box := blockHighlightFrame Math_sqrt cp dir blocks mesh in
  let broken := onClick Math_sqrt true 0 cp dir selectedBlock blocks in
  (visible box = false →
     highlightAt box = highlightAt mesh ∧
     ∀ button, onClick Math_sqrt true button cp dir selectedBlock blocks = blocks) ∧
  (visible box = true →
     solidAt blocks (highlightAt box) ∧
     (blocks !! keyOf (highlightAt box) = Some bedrock → broken = blocks) ∧
     (blocks !! keyOf (highlightAt box) ≠ Some bedrock →
        broken = delete (keyOf (highlightAt box)) blocks)).
Proof.
  cbv zeta. unfold blockHighlightFrame, onClick. cbn [negb].
  destruct (raycastBlocks _ _ _ _ _) as [hit|] eqn:Hray; cbn [visible highlightAt].
  - split; [done|]. intros _.
    apply raycastBlocks_solid in Hray as (Hkey & t & Ht & Hw).
    rewrite <- Hkey. split; [exists t; by rewrite <- Hkey|].
    rewrite bool_decide_eq_true_2 by done.
    split; intros Hbed.
    + by apply breakBlock_bedrock.
    + by apply breakBlock_other.
  - split; [done|]. intros [=].
Qed.

(** ** The render batch: the groups and their materials *)

Lemma meshGroups_foldl_list blocks entries groups t :
  default [] (foldl (meshGroupsStep blocks) groups entries !! t) =
  default [] (groups !! t) ++ exposedOfType blocks t entries.
Proof.
  unfold exposedOfType. revert groups.
  induction entries as [|[key type] entries IH]; intros groups.
  - cbn. by rewrite app_nil_r.
  - cbn [foldl]. rewrite IH. clear IH. unfold meshGroupsStep.
    rewrite filter_cons. cbn [fst snd].
    destruct (hasExposedFace blocks key) eqn:Hexp; cbn [negb].
    + rewrite pushInstance_lookup. destruct (decide (type = t)) as [->|Hne].
      * rewrite decide_True by done. rewrite fmap_cons. cbn [fst].
        by rewrite <- app_assoc.
      * rewrite decide_False; [done|]. by intros [? _].
    + rewrite decide_False; [done|]. by intros [_ ?].
Qed.

Lemma meshGroups_foldl_nonempty blocks entries groups :
  (∀ t l, groups !! t = Some l → l ≠ []) →
  ∀ t l, foldl (meshGroupsStep blocks) groups entries !! t = Some l → l ≠ [].
Proof.
  revert groups. induction entries as [|[key type] entries IH];
    intros groups Hgroups; [done|].
  cbn [foldl]. apply IH. unfold meshGroupsStep.
  destruct (hasExposedFace blocks key); cbn [negb]; [|done].
  intros t l. unfold pushInstance.
  destruct (decide (type = t)) as [->|Hne].
  - rewrite lookup_insert_eq. intros [= <-]. by destruct (default _ _).
  - rewrite lookup_insert_ne by done. apply Hgroups.
Qed.

Lemma exposedOfType_store blocks t pos :
  pos ∈ exposedOfType blocks t (map_to_list blocks) ↔
  blocks !! keyOf pos = Some t ∧ hasExposedFace blocks (keyOf pos) = true.
Proof.
  unfold exposedOfType. rewrite list_elem_of_fmap. split.
  - intros ([key type] & -> & Hin).
    apply list_elem_of_filter in Hin as [[Ht Hexp] Hin]. cbn [fst snd] in *.
    apply elem_of_map_to_list in Hin. subst type.
    by destruct key as [[x y] z].
  - intros [Ht Hexp]. exists (keyOf pos, t). destruct pos as [[x y] z].
    split; [done|]. apply list_elem_of_filter. split; [done|].
    by apply elem_of_map_to_list.
Qed.

Lemma exposedOfType_NoDup blocks t : NoDup (exposedOfType blocks t (map_to_list blocks)).
Proof.
  unfold exposedOfType.
  assert (H : (λ entry : Key * BlockType, fromKey entry.1) <$>
              filter (λ entry, entry.2 = t ∧ hasExposedFace blocks entry.1 = true)
                     (map_to_list blocks)
              `sublist_of` (map_to_list blocks).*1).
  { apply fmap_sublist, sublist_filter. }
  eapply sublist_NoDup; [|exact H]. apply NoDup_fst_map_to_list.
Qed.

(** X11. The groups of [ChunkMesh] split the exposed blocks by kind: a
    group that exists is not empty, holds no position twice, and holds
    exactly the positions of the blocks of its own kind that have an
    exposed face. *)
Theorem groups_partition_exposed (blocks : gmap Key BlockType)
    (type : BlockType) (matrices : list (Z * Z * Z)) :
  meshGroups blocks !! type = Some matrices →
  matrices ≠ [] ∧ NoDup matrices ∧
  ∀ pos, pos ∈ matrices ↔
    blocks !! keyOf pos = Some type ∧ hasExposedFace blocks (keyOf pos) = true.
Proof.
  intros Hgroup. unfold meshGroups in Hgroup.
  pose proof (meshGroups_foldl_list blocks (map_to_list blocks) ∅ type) as Hlist.
  rewrite Hgroup, lookup_empty in Hlist. cbn in Hlist. subst matrices.
  split; [|split].
  - intros Hnil.
    eapply (meshGroups_foldl_nonempty blocks (map_to_list blocks) ∅);
      [|exact Hgroup|exact Hnil].
    intros t l. by rewrite lookup_empty.
  - apply exposedOfType_NoDup.
  - apply exposedOfType_store.
Qed.

Lemma groups_partition_exposed_witness :
  [(0, 0, 0)] ≠ [] ∧ NoDup [(0, 0, 0)] ∧
  ∀ pos, pos ∈ [(0, 0, 0)] ↔
    oneStone !! keyOf pos = Some stone ∧ hasExposedFace oneStone (keyOf pos) = true.
Proof.
  apply (groups_partition_exposed oneStone stone [(0, 0, 0)]).
  vm_compute. reflexivity.
Defined.

Lemma isTransparent_opaque t :
  t ≠ glass → t ≠ water → t ≠ leaves →
  isTransparent t = false ∧ opacity t = 1%Qc ∧ depthWrite t = true.
Proof. by destruct t. Qed.

(** X12. A block that [ChunkMesh] leaves out of the batch is hidden for
    good: each of its six face neighbours holds a block that
    [InstancedBlocks] draws opaque, with opacity 1 and writing depth. *)
Theorem culled_block_behind_opaque (blocks : gmap Key BlockType) (x y z : Z) :
  is_Some (blocks !! toKey x y z) →
  ¬ inBatch blocks (x, y, z) →
  Forall (λ n, ∃ t, blocks !! n = Some t ∧
                    isTransparent t = false ∧ opacity t = 1%Qc ∧
                    depthWrite t = true)
         (faceNeighbors x y z).
Proof.
  intros Hsome Hout. apply Forall_forall. intros n Hn.
  assert (Hsee : ¬ seeThroughAt blocks n).
  { intros Hsee. apply Hout. apply inBatch_spec. split; [done|].
    apply hasExposedFace_spec. by exists n. }
  unfold seeThroughAt in Hsee.
  destruct (blocks !! n) as [t|] eqn:Ht; [|by destruct Hsee; left].
  exists t. split; [done|].
  apply isTransparent_opaque; intros ->; apply Hsee; auto.
Qed.

Lemma culled_block_behind_opaque_witness :
  Forall (λ n, ∃ t, enclosed !! n = Some t ∧
                    isTransparent t = false ∧ opacity t = 1%Qc ∧
                    depthWrite t = true)
         (faceNeighbors 0 0 0).
Proof.
  apply (culled_block_behind_opaque enclosed 0 0 0).
  - exists stone. vm_compute. reflexivity.
  - intros Hin. apply inBatch_spec in Hin as [_ Hexp].
    vm_compute in Hexp. discriminate.
Defined.

(** ** The generated world: water, and the height map *)

Section FinishedWorld.
Variables noise2D noise2D_b noise2D_c : number → number → number.

Abbreviation height_ := (getTerrainHeight noise2D).
Abbreviation column_ := (generateColumn noise2D noise2D_b noise2D_c).

(** The store after the column loop over [cols]: a column of [cols] is
    what its own round made of it. *)
Lemma columnLoop_lookup cols st x y z :
  gen_blocks (foldl (λ st c, column_ st c.1 c.2) st cols) !! toKey x y z =
  if decide ((x, z) ∈ cols) then
    if decide (height_ x z + 1 ≤ y ≤ 5) then Some water
    else if decide (1 ≤ y ≤ height_ x z)
         then Some (terrainType (height_ x z) (getBiome noise2D_b x z) y)
    else if decide (y = 0) then Some bedrock
    else gen_blocks st !! toKey x y z
  else gen_blocks st !! toKey x y z.
Proof.
  induction cols as [|c cols IH] using rev_ind.
  - rewrite decide_False; [done|]. apply not_elem_of_nil.
  - rewrite foldl_app. cbn [foldl]. rewrite generateColumn_lookup, IH. cbv zeta.
    destruct c as [cx cz]. cbn [fst snd].
    destruct (decide (x = cx ∧ z = cz)) as [[-> ->]|Hne].
    + destruct (decide ((cx, cz) ∈ cols ++ [(cx, cz)])) as [_|Hout].
      * repeat case_decide; first [done | exfalso; lia].
      * destruct Hout. apply elem_of_app. right. constructor.
    + destruct (decide ((x, z) ∈ cols)) as [Hin|Hout],
        (decide ((x, z) ∈ cols ++ [(cx, cz)])) as [Hin'|Hout']; try done.
      * destruct Hout'. apply elem_of_app. by left.
      * apply elem_of_app in Hin' as [Hin'|Hin']; [done|].
        apply list_elem_of_singleton in Hin'. injection Hin' as -> ->. tauto.
Qed.

Lemma generateColumn_heightMap st x z c :
  gen_heightMap (column_ st x z) !! c =
  if decide (c = (x, z)) then Some (Z.max (height_ x z) 5)
  else gen_heightMap st !! c.
Proof.
  unfold generateColumn. cbv zeta.
  destruct (decide (height_ x z < 5)) as [Hlow|Hhigh]; cbn [gen_heightMap].
  - destruct (decide (c = (x, z))) as [->|Hne].
    + rewrite lookup_insert_eq. f_equal. lia.
    + by rewrite !lookup_insert_ne.
  - destruct (decide (c = (x, z))) as [->|Hne].
    + rewrite lookup_insert_eq. f_equal. lia.
    + by rewrite lookup_insert_ne.
Qed.

Lemma columnLoop_heightMap cols st x z :
  (x, z) ∈ cols →
  gen_heightMap (foldl (λ st c, column_ st c.1 c.2) st cols) !! (x, z)
  = Some (Z.max (height_ x z) 5).
Proof.
  intros Hin. induction cols as [|c cols IH] using rev_ind.
  - by apply elem_of_nil in Hin.
  - rewrite foldl_app. cbn [foldl]. rewrite generateColumn_heightMap.
    destruct (decide ((x, z) = (c.1, c.2))) as [[= -> ->]|Hne]; [done|].
    apply IH. apply elem_of_app in Hin as [Hin|Hin]; [done|].
    apply list_elem_of_singleton in Hin. subst c. by destruct Hne.
Qed.

Lemma inWorld_columns x z :
  - WORLD_SIZE ≤ x < WORLD_SIZE → - WORLD_SIZE ≤ z < WORLD_SIZE →
  (x, z) ∈ columns worldRange worldRange.
Proof.
  intros Hx Hz. apply elem_of_columns. unfold worldRange.
  rewrite !elem_of_seqZ. lia.
Qed.

(** A tree writes wood and leaves, nothing else, and removes nothing. *)
Lemma placeTree_kind blocks tree key t :
  placeTree noise2D_c blocks tree !! key = Some t →
  t = wood ∨ t = leaves ∨ blocks !! key = Some t.
Proof.
  unfold placeTree. rewrite placeTreeWith_lookup. cbv zeta.
  case_decide; [intros [= <-]; auto|].
  destruct (_ && _); [intros [= <-]; auto|].
  destruct key as [[x y] z]. change (x, y, z) with (toKey x y z).
  rewrite placeTrunk_lookup. case_decide; [intros [= <-]; auto|auto].
Qed.

Lemma placeTree_keeps blocks tree key :
  is_Some (blocks !! key) → is_Some (placeTree noise2D_c blocks tree !! key).
Proof.
  intros Hsome. unfold placeTree. rewrite placeTreeWith_lookup. cbv zeta.
  case_decide; [done|]. destruct (_ && _); [done|].
  destruct key as [[x y] z]. change (x, y, z) with (toKey x y z).
  rewrite placeTrunk_lookup. by case_decide.
Qed.

Lemma placeTrees_kind trees blocks key t :
  foldl (placeTree noise2D_c) blocks trees !! key = Some t →
  t = wood ∨ t = leaves ∨ blocks !! key = Some t.
Proof.
  revert blocks. induction trees as [|tree trees IH]; intros blocks; [auto|].
  cbn [foldl]. intros H. apply IH in H as [H|[H|H]]; [auto..|].
  by apply placeTree_kind in H.
Qed.

Lemma placeTrees_keeps trees blocks key :
  is_Some (blocks !! key) →
  is_Some (foldl (placeTree noise2D_c) blocks trees !! key).
Proof.
  revert blocks. induction trees as [|tree trees IH]; intros blocks; [done|].
  cbn [foldl]. intros H. by apply IH, placeTree_keeps.
Qed.

(** Water and bedrock of the finished world are those of the column loop. *)
Lemma world_lookup_columns key t :
  t ≠ wood → t ≠ leaves →
  blocks (generateWorld noise2D noise2D_b noise2D_c) !! key = Some t →
  gen_blocks (generateColumns noise2D noise2D_b noise2D_c (mkGen ∅ ∅ [])) !! key
  = Some t.
Proof.
  intros Hw Hl. unfold generateWorld. cbv zeta. cbn [blocks].
  intros H. by apply placeTrees_kind in H as [H|[H|H]].
Qed.

Lemma world_columns_lookup x y z :
  - WORLD_SIZE ≤ x < WORLD_SIZE → - WORLD_SIZE ≤ z < WORLD_SIZE →
  gen_blocks (generateColumns noise2D noise2D_b noise2D_c (mkGen ∅ ∅ []))
    !! toKey x y z =
  if decide (height_ x z + 1 ≤ y ≤ 5) then Some water
  else if decide (1 ≤ y ≤ height_ x z)
       then Some (terrainType (height_ x z) (getBiome noise2D_b x z) y)
  else if decide (y = 0) then Some bedrock
  else None.
Proof.
  intros Hx Hz. unfold generateColumns. rewrite (foldl_columns column_).
  rewrite columnLoop_lookup. rewrite decide_True by by apply inWorld_columns.
  cbn [gen_blocks]. by rewrite lookup_empty.
Qed.

Lemma terrainType_kind height biome y :
  terrainType height biome y ≠ water ∧ terrainType height biome y ≠ bedrock.
Proof. unfold terrainType. by repeat case_decide. Qed.
End FinishedWorld.

(** X13. Water of the finished world, trees included, lies exactly in the
    layers above the ground of a column up to y = 5, whatever the samplers
    return; and the height map records for the column the larger of its
    ground height and 5. *)
Theorem water_fills_to_sea_level
    (noise2D noise2D_b noise2D_c : number → number → number) (x y z : Z) :
  - WORLD_SIZE ≤ x < WORLD_SIZE →
  - WORLD_SIZE ≤ z < WORLD_SIZE →
  let world := generateWorld noise2D noise2D_b noise2D_c in
  (blocks world !! toKey x y z = Some water ↔
     getTerrainHeight noise2D x z < y ≤ 5) ∧
  heightMap world !! (x, z) = Some (Z.max (getTerrainHeight noise2D x z) 5).
Proof.
  intros Hx Hz. cbv zeta. split; [split|].
  - intros H. apply world_lookup_columns in H; [|done..].
    rewrite world_columns_lookup in H by done.
    repeat case_decide; try done; [lia|].
    injection H as H. by apply terrainType_kind in H.
  - intros Hy. unfold generateWorld. cbv zeta. cbn [blocks].
    rewrite placeTrees_below.
    + rewrite world_columns_lookup by done. rewrite decide_True; [done|lia].
    + eapply Forall_impl; [apply generateColumns_trees; constructor|].
      cbn. intros tree Htree. lia.
  - unfold generateWorld. cbv zeta. cbn [heightMap]. unfold generateColumns.
    rewrite (foldl_columns (generateColumn noise2D noise2D_b noise2D_c)).
    apply columnLoop_heightMap. by apply inWorld_columns.
Qed.

Lemma lowNoise_height : getTerrainHeight lowNoise 0 0 = 2.
Proof. vm_compute. reflexivity. Qed.

Lemma water_fills_to_sea_level_witness :
  let world := generateWorld lowNoise lowNoise lowNoise in
  (blocks world !! toKey 0 4 0 = Some water ↔
     getTerrainHeight lowNoise 0 0 < 4 ≤ 5) ∧
  heightMap world !! (0, 0) = Some (Z.max (getTerrainHeight lowNoise 0 0) 5).
Proof.
  apply (water_fills_to_sea_level lowNoise lowNoise lowNoise 0 4 0).
  - unfold WORLD_SIZE. lia.
  - unfold WORLD_SIZE. lia.
Defined.

(** ** The world map *)

Lemma topTypeLoop_spec blocks wx wz rounds :
  match topTypeLoop blocks wx wz rounds with
  | Some t =>
      ∃ y, 0 ≤ y < Z.of_nat rounds ∧ blocks !! toKey wx y wz = Some t ∧
           ∀ y', y < y' < Z.of_nat rounds → blocks !! toKey wx y' wz = None
  | None => ∀ y, 0 ≤ y < Z.of_nat rounds → blocks !! toKey wx y wz = None
  end.
Proof.
  induction rounds as [|rounds IH]; [cbn; intros; lia|].
  cbn [topTypeLoop]. cbv zeta.
  destruct (blocks !! toKey wx (Z.of_nat rounds) wz) as [bt|] eqn:Hbt.
  - exists (Z.of_nat rounds). split; [lia|]. split; [done|]. intros; lia.
  - destruct (topTypeLoop blocks wx wz rounds) as [t|].
    + destruct IH as (y & Hy & Ht & Habove). exists y.
      split; [lia|]. split; [done|]. intros y' Hy'.
      destruct (decide (y' = Z.of_nat rounds)) as [->|Hne]; [done|].
      apply Habove. lia.
    + intros y Hy. destruct (decide (y = Z.of_nat rounds)) as [->|Hne]; [done|].
      apply IH. lia.
Qed.

(** X14. A pixel of the world map is painted in the colour of the highest
    block of its column among the layers 0 to 25, and left in the
    background colour when the column holds nothing there; the pixel at
    the middle of the canvas, where the red dot is drawn, stands for the
    column the player is in. *)
Theorem minimap_pixel_top_block (blocks : gmap Key BlockType)
    (playerPos : Vector3) (sx sz : Z) :
  let wx := pixelColumn (v_x playerPos) sx in
  let wz := pixelColumn (v_z playerPos) sz in
  match miniMapPixel blocks playerPos sx sz with
  | Some colour =>
      ∃ y t, 0 ≤ y ≤ 25 ∧ blocks !! toKey wx y wz = Some t ∧
             colour = BLOCK_COLORS t ∧
             ∀ y', y < y' ≤ 25 → blocks !! toKey wx y' wz = None
  | None => ∀ y, 0 ≤ y ≤ 25 → blocks !! toKey wx y wz = None
  end ∧
  pixelColumn (v_x playerPos) 150 = Math_round (v_x playerPos) ∧
  pixelColumn (v_z playerPos) 150 = Math_round (v_z playerPos).
Proof.
  cbv zeta. split.
  - unfold miniMapPixel, topType. cbv zeta.
    pose proof (topTypeLoop_spec blocks (pixelColumn (v_x playerPos) sx)
                  (pixelColumn (v_z playerPos) sz) 26) as H.
    destruct (topTypeLoop _ _ _ _) as [t|].
    + destruct H as (y & Hy & Ht & Habove). exists y, t.
      split; [lia|]. split; [done|]. split; [done|].
      intros y' Hy'. apply Habove. lia.
    + intros y Hy. apply H. lia.
  - assert (Hmid : ∀ c, pixelColumn c 150 = Math_round c).
    { intros c. unfold pixelColumn. cbv zeta. f_equal.
      replace ((ofZ 150 - ofZ 300 / ofZ 2) / ofZ 2)%Qc with 0%Qc
        by (apply Qc_is_canon; reflexivity).
      ring. }
    by rewrite !Hmid.
Qed.

(** X15. Over the generated world the map has no hole and never shows the
    floor: for samplers with values in [-1, 1], a pixel whose column lies
    in the world is painted, in the colour of a block other than
    bedrock. *)
Theorem minimap_of_world
    (noise2D noise2D_b noise2D_c : number → number → number)
    (playerPos : Vector3) (sx sz : Z) :
  (∀ a b, (-1 ≤ noise2D a b ∧ noise2D a b ≤ 1)%Qc) →
  - WORLD_SIZE ≤ pixelColumn (v_x playerPos) sx < WORLD_SIZE →
  - WORLD_SIZE ≤ pixelColumn (v_z playerPos) sz < WORLD_SIZE →
  ∃ t, miniMapPixel (blocks (generateWorld noise2D noise2D_b noise2D_c))
         playerPos sx sz = Some (BLOCK_COLORS t) ∧
       t ≠ bedrock.
Proof.
  intros Hrange Hx Hz. unfold miniMapPixel, topType. cbv zeta.
  set (wx := pixelColumn (v_x playerPos) sx) in *.
  set (wz := pixelColumn (v_z playerPos) sz) in *.
  set (world := blocks (generateWorld noise2D noise2D_b noise2D_c)).
  pose proof (getTerrainHeight_range noise2D Hrange wx wz) as Hh.
  assert (Hground : is_Some (world !! toKey wx (getTerrainHeight noise2D wx wz) wz)).
  { unfold world, generateWorld. cbv zeta. cbn [blocks].
    apply placeTrees_keeps.
    rewrite (generateColumns_layers noise2D noise2D_b noise2D_c) by (done || lia).
    done. }
  pose proof (topTypeLoop_spec world wx wz 26) as H.
  destruct (topTypeLoop _ _ _ _) as [t|].
  - exists t. split; [done|]. intros ->.
    destruct H as (y & Hy & Ht & Habove).
    assert (Hy0 : y = 0).
    { apply world_lookup_columns in Ht; [|done..].
      rewrite world_columns_lookup in Ht by done.
      repeat case_decide; try done.
      injection Ht as Ht. by apply terrainType_kind in Ht. }
    subst y. rewrite Habove in Hground by lia. by destruct Hground.
  - rewrite H in Hground by lia. by destruct Hground.
Qed.

Lemma minimap_of_world_witness :
  ∃ t, miniMapPixel (blocks (generateWorld flatNoise flatNoise flatNoise))
         atOrigin 150 150 = Some (BLOCK_COLORS t) ∧
       t ≠ bedrock.
Proof.
  apply (minimap_of_world flatNoise flatNoise flatNoise atOrigin 150 150).
  - exact flatNoise_range.
  - vm_compute. split; [discriminate | reflexivity].
  - vm_compute. split; [discriminate | reflexivity].
Defined.

(** ** Day and night *)

Lemma clamp01 v :
  (0 ≤ Math_max 0 (Math_min 1 v) ∧ Math_max 0 (Math_min 1 v) ≤ 1)%Qc.
Proof.
  unfold Math_max, Math_min.
  destruct (decide (v < 1)%Qc) as [Hv|Hv]; destruct (decide (0 < _)%Qc) as [H0|H0].
  - split; [by apply Qclt_le_weak | by apply Qclt_le_weak].
  - done.
  - done.
  - done.
Qed.

Lemma MathUtils_lerp_between x y t :
  (x ≤ y → 0 ≤ t → t ≤ 1 →
   x ≤ MathUtils_lerp x y t ∧ MathUtils_lerp x y t ≤ y)%Qc.
Proof.
  unfold MathUtils_lerp. intros Hxy Ht0 Ht1. qc2q. split; nra.
Qed.

(** The numbers of the state, read off [getDayNightState]. *)
Lemma getDayNightState_fields (Color : Type) (Color_new : string → Color)
    (Color_lerp : Color → Color → number → Color) (Math_PI : number)
    (Math_sin Math_cos : number → number) (timeSeconds : number) :
  let dns := getDayNightState Color Color_new Color_lerp Math_PI Math_sin Math_cos
               timeSeconds in
  ∃ sunHeight sunHorizontal,
    progress dns =
      (js_rem timeSeconds DAY_CYCLE_DURATION / DAY_CYCLE_DURATION)%Qc ∧
    gameHour dns = (progress dns * ofZ 24)%Qc ∧
    (timeOfDay dns, timeLabel dns) = timeOfDayAt (gameHour dns) ∧
    dayFactor dns =
      Math_max 0 (Math_min 1 ((sunHeight + num (15 # 100)) / num (65 # 100)))%Qc ∧
    fogNear dns = MathUtils_lerp (ofZ 30) (ofZ 60) (dayFactor dns) ∧
    fogFar dns = MathUtils_lerp (ofZ 80) (ofZ 160) (dayFactor dns) ∧
    ambientIntensity dns =
      MathUtils_lerp (num (8 # 100)) (num (5 # 10)) (dayFactor dns) ∧
    sunIntensity dns = MathUtils_lerp 0%Qc (num (13 # 10)) (dayFactor dns) ∧
    starsOpacity dns = Math_max 0 (1 - dayFactor dns * ofZ 2)%Qc ∧
    sunPosition dns =
      (sunHorizontal * ofZ 120, sunHeight * ofZ 120, ofZ (-30))%Qc ∧
    moonPosition dns =
      (- sunHorizontal * ofZ 120, - sunHeight * ofZ 120, ofZ 30)%Qc.
Proof.
  cbv zeta. unfold getDayNightState. cbv zeta.
  destruct (timeOfDayAt _) as [tod label] eqn:Hlabel.
  destruct (if ltb 0%Qc _ then (_, _) else _) as [top bottom].
  eexists _, _. cbn [progress gameHour timeOfDay timeLabel]. rewrite Hlabel.
  repeat split.
Qed.

(** The lights as functions of a day factor between 0 and 1. *)
Lemma light_in_range (d : number) :
  (0 ≤ d → d ≤ 1 →
  (ofZ 30 ≤ MathUtils_lerp (ofZ 30) (ofZ 60) d ∧
   MathUtils_lerp (ofZ 30) (ofZ 60) d ≤ ofZ 60) ∧
  (ofZ 80 ≤ MathUtils_lerp (ofZ 80) (ofZ 160) d ∧
   MathUtils_lerp (ofZ 80) (ofZ 160) d ≤ ofZ 160) ∧
  (MathUtils_lerp (ofZ 30) (ofZ 60) d + ofZ 50
   ≤ MathUtils_lerp (ofZ 80) (ofZ 160) d) ∧
  (num (8 # 100) ≤ MathUtils_lerp (num (8 # 100)) (num (5 # 10)) d ∧
   MathUtils_lerp (num (8 # 100)) (num (5 # 10)) d ≤ num (5 # 10)) ∧
  (0 ≤ MathUtils_lerp 0 (num (13 # 10)) d ∧
   MathUtils_lerp 0 (num (13 # 10)) d ≤ num (13 # 10)) ∧
  (0 ≤ Math_max 0 (1 - d * ofZ 2) ∧ Math_max 0 (1 - d * ofZ 2) ≤ 1) ∧
  (0 < Math_max 0 (1 - d * ofZ 2) → d < num (1 # 2)))%Qc.
Proof.
  intros Hd0 Hd1.
  split; [apply MathUtils_lerp_between; [by vm_compute|done..]|].
  split; [apply MathUtils_lerp_between; [by vm_compute|done..]|].
  split; [unfold MathUtils_lerp; qc2q; qconst; lra|].
  split; [apply MathUtils_lerp_between; [by vm_compute|done..]|].
  split; [apply MathUtils_lerp_between; [by vm_compute|done..]|].
  split.
  - unfold Math_max. case_decide as Hs; [|done].
    split; [by apply Qclt_le_weak|]. qc2q. qconst. lra.
  - unfold Math_max.
    case_decide as Hs; [|intros H; apply Qclt_not_eq in H; by destruct H].
    intros _. revert Hs. qc2q. qconst. lra.
Qed.

Lemma moon_opposite (a b : number) :
  (- a * ofZ 120, - b * ofZ 120, ofZ 30)%Qc =
  (- (a * ofZ 120), - (b * ofZ 120), - ofZ (-30))%Qc.
Proof. f_equal; [f_equal|]; [ring | ring | by apply Qc_is_canon]. Qed.

(** X16. Whatever the sine and cosine return and at whatever time, the
    light of the scene stays in range: the day factor and the opacity of
    the stars between 0 and 1, the fog from 30..60 to 80..160 with its far
    plane at least 50 behind its near plane, the ambient light between
    0.08 and 0.5, the sun light between 0 and 1.3; the stars show only in
    the darker half of the day factor, and the moon stands opposite the
    sun. *)
Theorem day_night_in_range (Color : Type) (Color_new : string → Color)
    (Color_lerp : Color → Color → number → Color) (Math_PI : number)
    (Math_sin Math_cos : number → number) (timeSeconds : number) :
  let dns := getDayNightState Color Color_new Color_lerp Math_PI Math_sin Math_cos
               timeSeconds in
  (0 ≤ dayFactor dns ∧ dayFactor dns ≤ 1)%Qc ∧
  (ofZ 30 ≤ fogNear dns ∧ fogNear dns ≤ ofZ 60)%Qc ∧
  (ofZ 80 ≤ fogFar dns ∧ fogFar dns ≤ ofZ 160)%Qc ∧
  (fogNear dns + ofZ 50 ≤ fogFar dns)%Qc ∧
  (num (8 # 100) ≤ ambientIntensity dns ∧ ambientIntensity dns ≤ num (5 # 10))%Qc ∧
  (0 ≤ sunIntensity dns ∧ sunIntensity dns ≤ num (13 # 10))%Qc ∧
  (0 ≤ starsOpacity dns ∧ starsOpacity dns ≤ 1)%Qc ∧
  ((0 < starsOpacity dns)%Qc → (dayFactor dns < num (1 # 2))%Qc) ∧
  moonPosition dns =
    (- (sunPosition dns).1.1, - (sunPosition dns).1.2, - (sunPosition dns).2)%Qc.
Proof.
  cbv zeta.
  destruct (getDayNightState_fields Color Color_new Color_lerp Math_PI
              Math_sin Math_cos timeSeconds)
    as (sunHeight & sunHorizontal & _ & _ & _ & Hday & Hnear & Hfar & Hamb & Hsun
        & Hstars & Hsp & Hmp).
  rewrite Hnear, Hfar, Hamb, Hsun, Hstars, Hsp, Hmp.
  destruct (clamp01 ((sunHeight + num (15 # 100)) / num (65 # 100))%Qc)
    as [Hd0 Hd1].
  rewrite <- Hday in Hd0, Hd1.
  destruct (light_in_range _ Hd0 Hd1) as (H1 & H2 & H3 & H4 & H5 & H6 & H7).
  split; [by split|]. split; [exact H1|]. split; [exact H2|].
  split; [exact H3|]. split; [exact H4|]. split; [exact H5|].
  split; [exact H6|]. split; [exact H7|].
  apply moon_opposite.
Qed.

Lemma Math_floor_bounds x :
  (ofZ (Math_floor x) ≤ x ∧ x < ofZ (Math_floor x) + 1)%Qc.
Proof.
  split.
  - by apply Math_floor_ge.
  - replace (ofZ (Math_floor x) + 1)%Qc with (ofZ (Math_floor x + 1)).
    + apply Math_floor_lt. lia.
    + unfold ofZ. by rewrite Z2Qc_inj_add.
Qed.

Lemma Math_floor_eq n x :
  Math_floor x = n ↔ (ofZ n ≤ x ∧ x < ofZ n + 1)%Qc.
Proof.
  split; [intros <-; apply Math_floor_bounds|]. intros [Hlo Hhi].
  apply Z.le_antisymm.
  - apply Z.lt_succ_r. apply Math_floor_lt. unfold Z.succ, ofZ.
    by rewrite Z2Qc_inj_add.
  - by apply Math_floor_ge.
Qed.

Lemma Math_trunc_nonneg x : (0 ≤ x)%Qc → Math_trunc x = Math_floor x.
Proof.
  intros Hx. unfold Math_trunc. rewrite decide_False; [done|].
  by apply Qcle_not_lt.
Qed.

Lemma Qcdiv_this (x m : Qc) : ((x / m)%Qc == (x : Q) / (m : Q))%Q.
Proof.
  unfold Qcdiv, Qcmult, Qcinv, Q2Qc. cbn [this]. by rewrite !Qred_correct.
Qed.

Lemma Q_rem_range (x m : Q) :
  (0 < m)%Q → (0 <= x)%Q →
  (0 <= x / m)%Q ∧
  (0 <= x - m * inject_Z (Qfloor (x / m)))%Q ∧
  (x - m * inject_Z (Qfloor (x / m)) < m)%Q.
Proof.
  intros Hm Hx.
  assert (Hxm : (x == m * (x / m))%Q) by (field; lra).
  pose proof (Qfloor_le (x / m)) as Hlo.
  pose proof (Qlt_floor (x / m)) as Hhi.
  rewrite inject_Z_plus in Hhi. change (inject_Z 1) with 1%Q in Hhi.
  set (q := inject_Z (Qfloor (x / m))) in *. clearbody q.
  set (d := (x / m)%Q) in *. clearbody d.
  split; [nra|]. split; nra.
Qed.

(** The remainder by a positive number of a number that is not negative. *)
Lemma js_rem_nonneg x m :
  (0 < m)%Qc → (0 ≤ x)%Qc →
  js_rem x m = (x - m * ofZ (Math_floor (x / m)))%Qc ∧
  (0 ≤ js_rem x m ∧ js_rem x m < m)%Qc.
Proof.
  intros Hm Hx. destruct (Q_rem_range x m Hm Hx) as (Hq & Hr0 & Hr1).
  assert (Hq' : (0 ≤ x / m)%Qc).
  { unfold Qcle. by rewrite Qcdiv_this. }
  unfold js_rem. rewrite Math_trunc_nonneg by done. split; [done|].
  unfold Math_floor. rewrite Qcdiv_this.
  set (q := Qfloor _) in *. clearbody q. qc2q. by split.
Qed.

Lemma Math_floor_add_Z x k : Math_floor (x + ofZ k)%Qc = Math_floor x + k.
Proof.
  apply Math_floor_eq. destruct (Math_floor_bounds x) as [Hlo Hhi].
  unfold ofZ in *. rewrite Z2Qc_inj_add. qc2q. split; lra.
Qed.

Lemma js_rem_period x m :
  (0 < m)%Qc → (0 ≤ x)%Qc → js_rem (x + m) m = js_rem x m.
Proof.
  intros Hm Hx.
  assert (Hxm : (0 ≤ x + m)%Qc).
  { rewrite <- (Qcplus_0_r 0). apply Qcplus_le_compat; [done|].
    by apply Qclt_le_weak. }
  rewrite (proj1 (js_rem_nonneg (x + m) m Hm Hxm)).
  rewrite (proj1 (js_rem_nonneg x m Hm Hx)).
  assert (Hone : ofZ 1 = 1%Qc) by (by apply Qc_is_canon).
  replace ((x + m) / m)%Qc with (x / m + ofZ 1)%Qc.
  - rewrite Math_floor_add_Z. unfold ofZ in *. rewrite Z2Qc_inj_add, Hone.
    ring.
  - rewrite Hone. field. intros ->. apply Qclt_not_eq in Hm. by destruct Hm.
Qed.

Lemma DAY_CYCLE_DURATION_pos : (0 < DAY_CYCLE_DURATION)%Qc.
Proof. by vm_compute. Qed.

(** From a game time that is not negative, the progress of the day lies in
    [0, 1) and the hour in [0, 24). *)
Lemma gameHour_in_day (Color : Type) (Color_new : string → Color)
    (Color_lerp : Color → Color → number → Color) (Math_PI : number)
    (Math_sin Math_cos : number → number) (timeSeconds : number) :
  (0 ≤ timeSeconds)%Qc →
  let dns := getDayNightState Color Color_new Color_lerp Math_PI Math_sin Math_cos
               timeSeconds in
  (0 ≤ progress dns ∧ progress dns < 1)%Qc ∧
  (0 ≤ gameHour dns ∧ gameHour dns < ofZ 24)%Qc.
Proof.
  intros Ht. cbv zeta.
  destruct (js_rem_nonneg timeSeconds DAY_CYCLE_DURATION
              DAY_CYCLE_DURATION_pos Ht) as [_ [Hr0 Hr1]].
  assert (Hp : (0 ≤ js_rem timeSeconds DAY_CYCLE_DURATION / DAY_CYCLE_DURATION ∧
                js_rem timeSeconds DAY_CYCLE_DURATION / DAY_CYCLE_DURATION < 1)%Qc).
  { set (r := js_rem _ _) in *. clearbody r. unfold DAY_CYCLE_DURATION in *.
    revert Hr0 Hr1. qc2q. change (/ inject_Z 600)%Q with (1 # 600)%Q. qconst.
    intros Hr0 Hr1. split; lra. }
  destruct (getDayNightState_fields Color Color_new Color_lerp Math_PI
              Math_sin Math_cos timeSeconds)
    as (_ & _ & Hprogress & Hhour & _).
  split.
  - by rewrite Hprogress.
  - rewrite Hhour, Hprogress. destruct Hp as [Hp0 Hp1].
    set (p := (js_rem _ _ / _)%Qc) in *. clearbody p.
    qc2q. qconst. split; lra.
Qed.

(** X17. From a game time that is not negative the cycle is a clock: the
    progress of the day lies in [0, 1), the hour in [0, 24), and the whole
    state, light and colours included, is the same 600 seconds later. *)
Theorem day_night_clock (Color : Type) (Color_new : string → Color)
    (Color_lerp : Color → Color → number → Color) (Math_PI : number)
    (Math_sin Math_cos : number → number) (timeSeconds : number) :
  (0 ≤ timeSeconds)%Qc →
  let state := getDayNightState Color Color_new Color_lerp Math_PI Math_sin Math_cos in
  (0 ≤ progress (state timeSeconds) ∧ progress (state timeSeconds) < 1)%Qc ∧
  (0 ≤ gameHour (state timeSeconds) ∧ gameHour (state timeSeconds) < ofZ 24)%Qc ∧
  state (timeSeconds + DAY_CYCLE_DURATION)%Qc = state timeSeconds.
Proof.
  intros Ht. cbv zeta.
  destruct (gameHour_in_day Color Color_new Color_lerp Math_PI Math_sin Math_cos
              timeSeconds Ht) as [Hprogress Hhour].
  split; [done|]. split; [done|].
  unfold getDayNightState.
  by rewrite (js_rem_period _ _ DAY_CYCLE_DURATION_pos Ht).
Qed.

Lemma day_night_clock_witness :
  let state := getDayNightState string hexColor keepColor piQ sinFlat cosFlat in
  (0 ≤ progress (state (ofZ 225)) ∧ progress (state (ofZ 225)) < 1)%Qc ∧
  (0 ≤ gameHour (state (ofZ 225)) ∧ gameHour (state (ofZ 225)) < ofZ 24)%Qc ∧
  state (ofZ 225 + DAY_CYCLE_DURATION)%Qc = state (ofZ 225).
Proof.
  apply (day_night_clock string hexColor keepColor piQ sinFlat cosFlat (ofZ 225)).
  by vm_compute.
Defined.

(** ** The clock of the HUD *)

Lemma padStart_pretty (n : Z) :
  0 ≤ n < 60 → padStart 2 "0" (pretty n) = twoDigits n.
Proof.
  intros Hn.
  assert (Hall : forallb (λ n, bool_decide (padStart 2 "0" (pretty n) = twoDigits n))
                   (seqZ 0 60) = true) by (vm_compute; reflexivity).
  rewrite forallb_forall in Hall.
  eapply bool_decide_eq_true_1, Hall, list_elem_of_In, elem_of_seqZ. lia.
Qed.

(** The fractional part, as [hour % 1] gives it from 0 on. *)
Lemma js_rem_1 hour :
  (0 ≤ hour)%Qc → js_rem hour 1 = (hour - ofZ (Math_floor hour))%Qc.
Proof.
  intros Hhour.
  assert (H1 : (0 < 1)%Qc) by (by vm_compute).
  rewrite (proj1 (js_rem_nonneg hour 1 H1 Hhour)).
  replace (hour / 1)%Qc with hour by (field; by vm_compute). ring.
Qed.

(** X18. For an hour of the day, from 0 up to but not 24, the clock reads
    HH:MM, two digits each: the hour 00 to 23 and the minute 00 to 59 that
    the time has reached, the seconds cut off. *)
Theorem clock_shows_hour_and_minute (hour : number) :
  (0 ≤ hour)%Qc → (hour < ofZ 24)%Qc →
  ∃ h m, 0 ≤ h ≤ 23 ∧ 0 ≤ m ≤ 59 ∧
    (ofZ h + ofZ m / ofZ 60 ≤ hour ∧ hour < ofZ h + (ofZ m + 1) / ofZ 60)%Qc ∧
    formatGameTime hour = twoDigits h +:+ ":" +:+ twoDigits m.
Proof.
  intros Hlo Hhi. unfold formatGameTime. cbv zeta. rewrite js_rem_1 by done.
  destruct (Math_floor_bounds hour) as [Hh0 Hh1].
  assert (Hh : 0 ≤ Math_floor hour ≤ 23).
  { split; [by apply Math_floor_ge|].
    apply Z.lt_succ_r. change (Z.succ 23) with 24. by apply Math_floor_lt. }
  set (h := Math_floor hour) in *. clearbody h.
  destruct (Math_floor_bounds ((hour - ofZ h) * ofZ 60)%Qc) as [Hm0 Hm1].
  assert (Hm : 0 ≤ Math_floor ((hour - ofZ h) * ofZ 60)%Qc ≤ 59).
  { split.
    - apply Math_floor_ge. revert Hh0. qc2q. qconst. lra.
    - apply Z.lt_succ_r. change (Z.succ 59) with 60. apply Math_floor_lt.
      revert Hh1. qc2q. qconst. lra. }
  set (m := Math_floor ((hour - ofZ h) * ofZ 60)%Qc) in *. clearbody m.
  exists h, m. split; [done|]. split; [done|]. split.
  - revert Hm0 Hm1. qc2q. change (/ inject_Z 60)%Q with (1 # 60)%Q. qconst.
    intros Hm0 Hm1. split; lra.
  - rewrite !padStart_pretty by lia. done.
Qed.

Lemma clock_shows_hour_and_minute_witness :
  ∃ h m, 0 ≤ h ≤ 23 ∧ 0 ≤ m ≤ 59 ∧
    (ofZ h + ofZ m / ofZ 60 ≤ num (85 # 10) ∧
     num (85 # 10) < ofZ h + (ofZ m + 1) / ofZ 60)%Qc ∧
    formatGameTime (num (85 # 10)) = twoDigits h +:+ ":" +:+ twoDigits m.
Proof.
  apply (clock_shows_hour_and_minute (num (85 # 10))).
  - by vm_compute.
  - by vm_compute.
Defined.

Lemma clock_at_half_past_eight : formatGameTime (num (85 # 10)) = "08:30".
Proof. vm_compute. reflexivity. Qed.

(** ** The fog controller *)

Section FogController.
Context {Color : Type}.
Variable Color_new : string → Color.
Variable Color_lerp : Color → Color → number → Color.

(** One frame keeps the fog in range when its target is. *)
Lemma fogFrame_in_range (dns : DayNightState Color) weather (fogRef : Fog Color) :
  (ofZ 30 ≤ fogNear dns ∧ fogNear dns ≤ ofZ 60)%Qc →
  (ofZ 80 ≤ fogFar dns ∧ fogFar dns ≤ ofZ 160)%Qc →
  (fogNear dns + ofZ 50 ≤ fogFar dns)%Qc →
  (ofZ 15 ≤ fog_near fogRef ∧ fog_near fogRef ≤ ofZ 60)%Qc →
  (ofZ 50 ≤ fog_far fogRef ∧ fog_far fogRef ≤ ofZ 160)%Qc →
  (fog_near fogRef + ofZ 35 ≤ fog_far fogRef)%Qc →
  let fog := fogFrame Color Color_new Color_lerp dns weather fogRef in
  (ofZ 15 ≤ fog_near fog ∧ fog_near fog ≤ ofZ 60)%Qc ∧
  (ofZ 50 ≤ fog_far fog ∧ fog_far fog ≤ ofZ 160)%Qc ∧
  (fog_near fog + ofZ 35 ≤ fog_far fog)%Qc.
Proof.
  intros [Hn0 Hn1] [Hf0 Hf1] Hnf [Hrn0 Hrn1] [Hrf0 Hrf1] Hrnf. cbv zeta.
  unfold fogFrame. destruct weather; cbn [fog_near fog_far];
    set (tn := fogNear dns) in *; set (tf := fogFar dns) in *;
    set (n := fog_near fogRef) in *; set (f := fog_far fogRef) in *;
    clearbody tn tf n f;
    revert Hn0 Hn1 Hf0 Hf1 Hnf Hrn0 Hrn1 Hrf0 Hrf1 Hrnf;
    qc2q; qconst; intros; repeat split; lra.
Qed.
End FogController.

(** X19. The fog never turns inside out: after any run of frames, under
    any weather and at any game time, the near plane of the fog lies
    between 15 and 60, the far plane between 50 and 160, and the far plane
    at least 35 behind the near one. *)
Theorem fog_planes_stay_ordered (Color : Type) (Color_new : string → Color)
    (Color_lerp : Color → Color → number → Color) (Math_PI : number)
    (Math_sin Math_cos : number → number) (frames : list (number * Weather)) :
  let fog := fogRun Color_new Color_lerp Math_PI Math_sin Math_cos frames in
  (ofZ 15 ≤ fog_near fog ∧ fog_near fog ≤ ofZ 60)%Qc ∧
  (ofZ 50 ≤ fog_far fog ∧ fog_far fog ≤ ofZ 160)%Qc ∧
  (fog_near fog + ofZ 35 ≤ fog_far fog)%Qc.
Proof.
  cbv zeta. unfold fogRun.
  induction frames as [|[t weather] frames IH] using rev_ind.
  - cbn. repeat split; by vm_compute.
  - rewrite foldl_app. cbn [foldl fst snd].
    destruct IH as (Hn & Hf & Hnf).
    destruct (getDayNightState_fields Color Color_new Color_lerp Math_PI
                Math_sin Math_cos t)
      as (sh & sz & _ & _ & _ & Hday & Hnear & Hfar & _).
    destruct (clamp01 ((sh + num (15 # 100)) / num (65 # 100))%Qc) as [Hd0 Hd1].
    rewrite <- Hday in Hd0, Hd1.
    destruct (light_in_range _ Hd0 Hd1) as (H1 & H2 & H3 & _).
    rewrite <- Hnear in H1, H3. rewrite <- Hfar in H2, H3.
    by apply fogFrame_in_range.
Qed.

(** ** The application: the hotbar *)

Lemma at_hotbar (d : Z) :
  1 ≤ d ≤ 9 →
  ∃ type, App.at_ HOTBAR_BLOCKS (d - 1) = Some type ∧
          HOTBAR_BLOCKS !! Z.to_nat (d - 1) = Some type ∧
          App.indexOf HOTBAR_BLOCKS type = d - 1.
Proof.
  intros Hd.
  assert (Hin : d ∈ seqZ 1 9) by (apply elem_of_seqZ; lia).
  repeat (apply elem_of_cons in Hin as [->|Hin]);
    [..|by apply elem_of_nil in Hin]; by eexists.
Qed.

(** X20. In a started game the key of a digit 1 to 9 selects the block of
    the hotbar slot with that number, the slots counted from 1 as the
    hotbar labels them; a key that is no number, or a number outside 1 to
    9, leaves the selection as it is. *)
Theorem digit_key_selects_slot (d : Z) (code : string) (s : App.State) :
  App.gameStarted s = true →
  1 ≤ d ≤ 9 →
  let selected := App.selectedBlock (App.onKeyDown (pretty d) code s) in
  HOTBAR_BLOCKS !! Z.to_nat (d - 1) = Some selected ∧
  App.indexOf HOTBAR_BLOCKS selected = d - 1 ∧
  ∀ key, match KeyString.parseInt key with
         | Some n => n < 1 ∨ 9 < n
         | None => True
         end →
         App.selectedBlock (App.onKeyDown key code s) = App.selectedBlock s.
Proof.
  intros Hstarted Hd. cbv zeta. unfold App.onKeyDown. rewrite Hstarted.
  cbn [negb App.selectedBlock]. split; [|split].
  - rewrite parseInt_pretty.
    rewrite !bool_decide_eq_true_2 by lia. cbn [andb].
    destruct (at_hotbar d Hd) as (type & -> & Hslot & _). done.
  - rewrite parseInt_pretty.
    rewrite !bool_decide_eq_true_2 by lia. cbn [andb].
    destruct (at_hotbar d Hd) as (type & -> & _ & Hidx). done.
  - intros key Hkey. destruct (KeyString.parseInt key) as [n|]; [|done].
    destruct Hkey as [Hlow|Hhigh].
    + rewrite (bool_decide_eq_false_2 (n >= 1)) by lia. done.
    + rewrite (bool_decide_eq_false_2 (n <= 9)) by lia.
      by rewrite andb_false_r.
Qed.

Lemma digit_key_selects_slot_witness :
  let selected := App.selectedBlock (App.onKeyDown (pretty 7) "Digit7" playing) in
  HOTBAR_BLOCKS !! Z.to_nat (7 - 1) = Some selected ∧
  App.indexOf HOTBAR_BLOCKS selected = 7 - 1 ∧
  ∀ key, match KeyString.parseInt key with
         | Some n => n < 1 ∨ 9 < n
         | None => True
         end →
         App.selectedBlock (App.onKeyDown key "Digit7" playing)
         = App.selectedBlock playing.
Proof.
  apply (digit_key_selects_slot 7 "Digit7" playing).
  - reflexivity.
  - lia.
Defined.

Lemma onWheel_forward deltaY sel w m sp gs gt ts :
  (0 < deltaY)%Qc →
  App.onWheel deltaY (App.mkState sel true w m sp gs gt ts) =
  App.mkState
    (default sel (App.at_ HOTBAR_BLOCKS
                    (Z.rem (App.indexOf HOTBAR_BLOCKS sel + 1) 9)))
    true w m sp gs gt ts.
Proof.
  intros Hd. unfold App.onWheel, ltb.
  cbn [App.isLocked negb App.selectedBlock App.weather App.showMap
       App.showSplash App.gameStarted App.gameTime App.timeSpeed].
  rewrite bool_decide_eq_true_2 by done. by destruct sel.
Qed.

Lemma onWheel_backward deltaY sel w m sp gs gt ts :
  (deltaY ≤ 0)%Qc →
  App.onWheel deltaY (App.mkState sel true w m sp gs gt ts) =
  App.mkState
    (default sel (App.at_ HOTBAR_BLOCKS
                    (Z.rem (App.indexOf HOTBAR_BLOCKS sel - 1 + 9) 9)))
    true w m sp gs gt ts.
Proof.
  intros Hd. unfold App.onWheel, ltb.
  cbn [App.isLocked negb App.selectedBlock App.weather App.showMap
       App.showSplash App.gameStarted App.gameTime App.timeSpeed].
  rewrite bool_decide_eq_false_2 by (by apply Qcle_not_lt). by destruct sel.
Qed.

(** X21. With the pointer locked the wheel walks the hotbar as a ring of
    nine: a notch one way and a notch back leave the state as it was, in
    either order, and nine notches the same way come round to it. *)
Theorem wheel_walks_hotbar_ring (down up : number) (s : App.State) :
  App.isLocked s = true →
  (0 < down)%Qc → (up ≤ 0)%Qc →
  App.onWheel up (App.onWheel down s) = s ∧
  App.onWheel down (App.onWheel up s) = s ∧
  Nat.iter 9 (App.onWheel down) s = s ∧
  Nat.iter 9 (App.onWheel up) s = s.
Proof.
  intros Hlocked Hdown Hup.
  destruct s as [sel locked w m sp gs gt ts]. cbn in Hlocked. subst locked.
  unfold Nat.iter. cbn [nat_rect].
  rewrite !(onWheel_forward down) by done.
  rewrite !(onWheel_backward up) by done.
  rewrite !(onWheel_forward down) by done.
  destruct sel; repeat split; reflexivity.
Qed.

Lemma wheel_walks_hotbar_ring_witness :
  App.onWheel (-1)%Qc (App.onWheel 1%Qc playing) = playing ∧
  App.onWheel 1%Qc (App.onWheel (-1)%Qc playing) = playing ∧
  Nat.iter 9 (App.onWheel 1%Qc) playing = playing ∧
  Nat.iter 9 (App.onWheel (-1)%Qc) playing = playing.
Proof.
  apply (wheel_walks_hotbar_ring 1%Qc (-1)%Qc playing).
  - reflexivity.
  - by vm_compute.
  - by vm_compute.
Defined.

(** ** The application: the states it reaches *)

Lemma quarter_to_nine : (DAY_CYCLE_DURATION * num (375 # 1000))%Qc = ofZ 225.
Proof. by apply Qc_is_canon. Qed.

Lemma nine_at_night : (DAY_CYCLE_DURATION * num (875 # 1000))%Qc = ofZ 525.
Proof. by apply Qc_is_canon. Qed.

Lemma sound_initial : sound App.initial.
Proof.
  unfold sound, App.initial.
  cbn [App.timeSpeed App.gameTime App.showSplash App.gameStarted App.weather
       App.showMap negb].
  rewrite quarter_to_nine. split; [by left|]. split; [by vm_compute|]. done.
Qed.

Lemma sound_step s e :
  match e with App.Tick dt => (0 ≤ dt)%Qc | _ => True end →
  sound s → sound (App.step s e).
Proof.
  intros He (Hspeed & Htime & Hsplash & Hidle).
  destruct s as [sel locked w m sp gs gt ts].
  cbn [App.timeSpeed App.gameTime App.showSplash App.gameStarted App.weather
       App.showMap] in *.
  destruct e as [key code|deltaY|dt|locked'|]; cbn [App.step].
  - unfold App.onKeyDown.
    cbn [App.timeSpeed App.gameTime App.showSplash App.gameStarted App.weather
         App.showMap App.isLocked App.selectedBlock].
    destruct gs; cbn [negb]; [|done].
    unfold sound.
    cbn [App.timeSpeed App.gameTime App.showSplash App.gameStarted App.weather
         App.showMap].
    split; [|split; [|done]].
    + destruct (bool_decide (code = "KeyT") && locked); [|done].
      repeat case_bool_decide; auto.
    + rewrite quarter_to_nine, nine_at_night.
      destruct (bool_decide (code = "KeyB") && locked); [by vm_compute|].
      destruct (bool_decide (code = "KeyN") && locked); [by vm_compute|done].
  - unfold App.onWheel. cbn [App.isLocked App.selectedBlock].
    destruct locked; cbn [negb]; [|done].
    by destruct (App.at_ _ _).
  - unfold App.tick. cbn [App.gameStarted].
    destruct gs; cbn [negb]; [|done].
    unfold sound.
    cbn [App.timeSpeed App.gameTime App.showSplash App.gameStarted App.weather
         App.showMap].
    split; [done|]. split; [|done].
    assert (Hts : (0 ≤ ts)%Qc)
      by (destruct Hspeed as [->|[->|[->| ->]]]; by vm_compute).
    revert He Htime Hts. clear. qc2q. intros. nra.
  - done.
  - unfold App.handleSplashPlay, sound.
    cbn [App.timeSpeed App.gameTime App.showSplash App.gameStarted App.weather
         App.showMap negb].
    done.
Qed.

Lemma sound_run events : nonnegTicks events → sound (App.run events).
Proof.
  unfold App.run. induction events as [|e events IH] using rev_ind.
  - intros _. apply sound_initial.
  - intros Hticks. apply Forall_app in Hticks as [Hevents He].
    apply Forall_inv in He.
    rewrite foldl_app. cbn [foldl]. apply sound_step; [done|]. by apply IH.
Qed.

(** X22. Whatever the player does, as long as the clock of the browser
    does not run backwards: the time speed is 1, 10, 50 or 100, the game
    time is not negative and so the hour of the day lies in [0, 24), the
    splash screen shows exactly until the game starts, and until then the
    game time stays at 225 seconds at speed 1, the weather clear and the
    map closed. *)
Theorem reached_states_sound (Color : Type) (Color_new : string → Color)
    (Color_lerp : Color → Color → number → Color) (Math_PI : number)
    (Math_sin Math_cos : number → number) (events : list App.Event) :
  nonnegTicks events →
  let s := App.run events in
  let dns := getDayNightState Color Color_new Color_lerp Math_PI Math_sin Math_cos
               (App.gameTime s) in
  sound s ∧ (0 ≤ gameHour dns ∧ gameHour dns < ofZ 24)%Qc.
Proof.
  intros Hticks. cbv zeta.
  pose proof (sound_run events Hticks) as Hsound. split; [done|].
  destruct Hsound as (_ & Htime & _).
  by apply gameHour_in_day.
Qed.

Lemma reached_states_sound_witness :
  let s := App.run session in
  let dns := getDayNightState string hexColor keepColor piQ sinFlat cosFlat
               (App.gameTime s) in
  sound s ∧ (0 ≤ gameHour dns ∧ gameHour dns < ofZ 24)%Qc.
Proof.
  apply (reached_states_sound string hexColor keepColor piQ sinFlat cosFlat session).
  unfold nonnegTicks, session. repeat constructor. by vm_compute.
Defined.

(** ** The application: the keys of the night and of the day *)

Lemma onKeyDown_gameTime key code s :
  App.gameStarted s = true → App.isLocked s = true →
  App.gameTime (App.onKeyDown key code s) =
  if bool_decide (code = "KeyB") then ofZ 225
  else if bool_decide (code = "KeyN") then ofZ 525
  else App.gameTime s.
Proof.
  intros Hstarted Hlocked. unfold App.onKeyDown. rewrite Hstarted, Hlocked.
  cbn [negb App.gameTime]. rewrite !andb_true_r.
  by rewrite quarter_to_nine, nine_at_night.
Qed.

Lemma state_at_hour (Color : Type) (Color_new : string → Color)
    (Color_lerp : Color → Color → number → Color) (Math_PI : number)
    (Math_sin Math_cos : number → number) (timeSeconds hour : number) :
  (js_rem timeSeconds DAY_CYCLE_DURATION / DAY_CYCLE_DURATION * ofZ 24)%Qc = hour →
  let dns := getDayNightState Color Color_new Color_lerp Math_PI Math_sin Math_cos
               timeSeconds in
  gameHour dns = hour ∧
  timeOfDay dns = (timeOfDayAt hour).1 ∧ timeLabel dns = (timeOfDayAt hour).2.
Proof.
  intros Hhour. cbv zeta.
  destruct (getDayNightState_fields Color Color_new Color_lerp Math_PI
              Math_sin Math_cos timeSeconds)
    as (_ & _ & Hprogress & Hgame & Hlabel & _).
  rewrite Hgame, Hprogress, Hhour in Hlabel.
  pose proof (f_equal fst Hlabel) as Hday.
  pose proof (f_equal snd Hlabel) as Hname.
  rewrite Hgame, Hprogress, Hhour. done.
Qed.

(** X23. In a running game with the pointer locked, the key N sets the
    clock to 21:00, which the cycle names night, and the key B to 09:00,
    which it names day, whatever the time was. *)
Theorem time_keys_set_night_and_day (Color : Type) (Color_new : string → Color)
    (Color_lerp : Color → Color → number → Color) (Math_PI : number)
    (Math_sin Math_cos : number → number) (key : string) (s : App.State) :
  App.gameStarted s = true → App.isLocked s = true →
  let state := getDayNightState Color Color_new Color_lerp Math_PI Math_sin Math_cos in
  let atNight := state (App.gameTime (App.onKeyDown key "KeyN" s)) in
  let atDay := state (App.gameTime (App.onKeyDown key "KeyB" s)) in
  (timeOfDay atNight = night ∧ timeLabel atNight = "Night" ∧
   formatGameTime (gameHour atNight) = "21:00") ∧
  (timeOfDay atDay = day ∧ timeLabel atDay = "Day" ∧
   formatGameTime (gameHour atDay) = "09:00").
Proof.
  intros Hstarted Hlocked. cbv zeta.
  rewrite !onKeyDown_gameTime by done.
  change (bool_decide ("KeyN" = "KeyB")) with false.
  change (bool_decide ("KeyN" = "KeyN")) with true.
  change (bool_decide ("KeyB" = "KeyB")) with true.
  cbn match.
  destruct (state_at_hour Color Color_new Color_lerp Math_PI Math_sin Math_cos
              (ofZ 525) (ofZ 21)) as (-> & -> & ->); [by apply Qc_is_canon|].
  destruct (state_at_hour Color Color_new Color_lerp Math_PI Math_sin Math_cos
              (ofZ 225) (ofZ 9)) as (-> & -> & ->); [by apply Qc_is_canon|].
  repeat split; vm_compute; reflexivity.
Qed.

Lemma time_keys_set_night_and_day_witness :
  let state := getDayNightState string hexColor keepColor piQ sinFlat cosFlat in
  let atNight := state (App.gameTime (App.onKeyDown "n" "KeyN" playing)) in
  let atDay := state (App.gameTime (App.onKeyDown "n" "KeyB" playing)) in
  (timeOfDay atNight = night ∧ timeLabel atNight = "Night" ∧
   formatGameTime (gameHour atNight) = "21:00") ∧
  (timeOfDay atDay = day ∧ timeLabel atDay = "Day" ∧
   formatGameTime (gameHour atDay) = "09:00").
Proof.
  apply (time_keys_set_night_and_day string hexColor keepColor piQ sinFlat cosFlat
           "n" playing); reflexivity.
Defined.

(** ** The spawn *)

(** What [checkCollision] answers, in both directions. *)
Lemma checkCollision_meets blocks px py pz :
  checkCollision blocks px py pz = true ↔
  ∃ b, solidAt blocks b ∧ playerBoxMeets px py pz b.
Proof.
  unfold checkCollision. split.
  - intros H.
    apply existsb_exists in H as (dx & _ & H).
    apply existsb_exists in H as (dy & _ & H).
    apply existsb_exists in H as (dz & _ & H).
    apply collidesAt_spec in H. cbv zeta in H. eauto.
  - intros ([[bx by_] bz] & Hsolid & Hmeet).
    destruct Hmeet as (Hx1 & Hx2 & Hy1 & Hy2 & Hz1 & Hz2).
    destruct (sample_radius px bx Hx1 Hx2) as (dx & Hdx & Hrx).
    destruct (sample_height py by_ Hy1 Hy2) as (dy & Hdy & Hry).
    destruct (sample_radius pz bz Hz1 Hz2) as (dz & Hdz & Hrz).
    apply existsb_exists. exists dx. split; [by apply list_elem_of_In|].
    apply existsb_exists. exists dy. split; [by apply list_elem_of_In|].
    apply existsb_exists. exists dz. split; [by apply list_elem_of_In|].
    apply collidesAt_spec. cbv zeta. rewrite Hrx, Hry, Hrz.
    split; [done|]. unfold playerBoxMeets. tauto.
Qed.

(** The voxels whose cube meets the box of a player whose camera is at
    the integer height [s] over the origin: the three from [s - 2] to [s]
    of the column of the origin. *)
Lemma playerBoxMeets_origin (s : Z) (b : Z * Z * Z) :
  playerBoxMeets 0%Qc (ofZ s) 0%Qc b ↔ ∃ y, b = (0, y, 0) ∧ s - 2 ≤ y ≤ s.
Proof.
  destruct b as [[bx by_] bz]. unfold playerBoxMeets, PLAYER_RADIUS, PLAYER_HEIGHT.
  split.
  - intros (Hx1 & Hx2 & Hy1 & Hy2 & Hz1 & Hz2). exists by_.
    assert (Hbx : -1 < bx < 1).
    { rewrite !Z2Qc_inj_lt. revert Hx1 Hx2. qc2q. qconst.
      change (inject_Z 1) with 1%Q. intros. split; lra. }
    assert (Hbz : -1 < bz < 1).
    { rewrite !Z2Qc_inj_lt. revert Hz1 Hz2. qc2q. qconst.
      change (inject_Z 1) with 1%Q. intros. split; lra. }
    assert (Hby : s - 3 < by_ < s + 1).
    { rewrite !Z2Qc_inj_lt, Z2Qc_inj_sub, Z2Qc_inj_add. revert Hy1 Hy2.
      qc2q. qconst. change (inject_Z 1) with 1%Q. intros. split; lra. }
    split; [f_equal; [f_equal|]; lia | lia].
  - intros (y & [= -> -> ->] & Hy).
    destruct Hy as [Hlo Hhi].
    apply Z2Qc_inj_le in Hlo, Hhi. rewrite Z2Qc_inj_sub in Hlo.
    revert Hlo Hhi. qc2q. qconst. intros. repeat split; lra.
Qed.

(** X24. The terrain never blocks the spawn: in the finished world, for
    any samplers, the player set down three above the ground of the
    origin collides there exactly when one of the three voxels above that
    ground holds the wood or the leaves of a tree. *)
Theorem spawn_blocked_only_by_tree
    (noise2D noise2D_b noise2D_c : number → number → number) :
  let world := blocks (generateWorld noise2D noise2D_b noise2D_c) in
  let cp := spawnPosition noise2D in
  let h := getTerrainHeight noise2D 0 0 in
  checkCollision world (v_x cp) (v_y cp) (v_z cp) = true ↔
  ∃ y, h + 1 ≤ y ≤ h + 3 ∧
       (world !! toKey 0 y 0 = Some wood ∨ world !! toKey 0 y 0 = Some leaves).
Proof.
  cbv zeta. unfold spawnPosition. cbv zeta. cbn [v_x v_y v_z].
  set (h := getTerrainHeight noise2D 0 0).
  set (world := blocks (generateWorld noise2D noise2D_b noise2D_c)).
  rewrite checkCollision_meets. split.
  - intros (b & (t & Ht & Hwater) & Hmeet).
    apply playerBoxMeets_origin in Hmeet as (y & -> & Hy). cbn [keyOf] in Ht.
    exists y. split; [lia|].
    destruct (decide (t = wood)) as [->|Hwood]; [by left|].
    destruct (decide (t = leaves)) as [->|Hleaves]; [by right|].
    exfalso. apply world_lookup_columns in Ht; [|done..].
    rewrite world_columns_lookup in Ht by (unfold WORLD_SIZE; lia).
    fold h in Ht. repeat case_decide; try done; try lia. congruence.
  - intros (y & Hy & Hkind).
    exists (0, y, 0). split.
    + destruct Hkind as [Hk|Hk]; [exists wood | exists leaves]; by cbn [keyOf].
    + apply playerBoxMeets_origin. exists y. split; [done|lia].
Qed.

(** ** The generated world: the trees stand *)

Section Trees.
Variables noise2D noise2D_b noise2D_c : number → number → number.

Lemma generateColumn_schedules st x z :
  gen_treePositions (generateColumn noise2D noise2D_b noise2D_c st x z) =
  gen_treePositions st ++
  (if growsTree noise2D noise2D_b noise2D_c x z
   then [mkTree x z (getTerrainHeight noise2D x z)] else []).
Proof.
  unfold generateColumn, growsTree. cbv zeta.
  destruct (decide (_ < 5)); cbn [gen_treePositions];
    destruct (_ && _ && _); by rewrite ?app_nil_r.
Qed.

(** The trees scheduled by the column loop over [cols]. *)
Lemma columnLoop_schedules cols st tree :
  tree ∈ gen_treePositions
           (foldl (λ st c, generateColumn noise2D noise2D_b noise2D_c st c.1 c.2)
                  st cols) ↔
  tree ∈ gen_treePositions st ∨
  ∃ c, c ∈ cols ∧ growsTree noise2D noise2D_b noise2D_c c.1 c.2 = true ∧
       tree = mkTree c.1 c.2 (getTerrainHeight noise2D c.1 c.2).
Proof.
  revert st. induction cols as [|c cols IH]; intros st.
  - cbn [foldl]. split; [auto|]. intros [H|(c & Hc & _)]; [done|].
    by apply elem_of_nil in Hc.
  - cbn [foldl]. rewrite IH, generateColumn_schedules, elem_of_app. clear IH.
    split.
    + intros [[H|H]|(c' & Hc' & Hgrow & Htree)]; [auto| |].
      * right. exists c. destruct (growsTree _ _ _ _ _) eqn:Hgrow.
        -- apply list_elem_of_singleton in H. split; [constructor|done].
        -- by apply elem_of_nil in H.
      * right. exists c'. split; [by constructor|done].
    + intros [H|(c' & Hc' & Hgrow & Htree)]; [auto|].
      apply elem_of_cons in Hc' as [->|Hc'].
      * left. right. rewrite Hgrow. by apply list_elem_of_singleton.
      * right. by exists c'.
Qed.

Lemma scheduled_trees tree :
  tree ∈ gen_treePositions
           (generateColumns noise2D noise2D_b noise2D_c (mkGen ∅ ∅ [])) ↔
  ∃ x z, - WORLD_SIZE ≤ x < WORLD_SIZE ∧ - WORLD_SIZE ≤ z < WORLD_SIZE ∧
         growsTree noise2D noise2D_b noise2D_c x z = true ∧
         tree = mkTree x z (getTerrainHeight noise2D x z).
Proof.
  unfold generateColumns.
  rewrite (foldl_columns (generateColumn noise2D noise2D_b noise2D_c)).
  rewrite columnLoop_schedules. cbn [gen_treePositions]. split.
  - intros [H|([x z] & Hc & Hgrow & Htree)]; [by apply elem_of_nil in H|].
    apply elem_of_columns in Hc as [Hx Hz]. unfold worldRange in Hx, Hz.
    rewrite elem_of_seqZ in Hx, Hz. exists x, z. repeat split; try done; lia.
  - intros (x & z & Hx & Hz & Hgrow & Htree). right. exists (x, z).
    split; [by apply inWorld_columns|done].
Qed.

(** The tree itself: its trunk is wood and its top is leaves. *)
Lemma placeTree_own blocks tree :
  let top := tree_h tree + trunkHeightOf noise2D_c tree in
  (∀ y, tree_h tree < y ≤ top →
        placeTree noise2D_c blocks tree !! toKey (tree_x tree) y (tree_z tree)
        = Some wood) ∧
  placeTree noise2D_c blocks tree !! toKey (tree_x tree) (top + 3) (tree_z tree)
  = Some leaves.
Proof.
  cbv zeta. unfold placeTree. split.
  - intros y Hy. rewrite placeTreeWith_lookup. cbv zeta.
    rewrite decide_False by (rewrite toKey_inj; lia).
    assert (Hwood : placeTrunk tree (trunkHeightOf noise2D_c tree) blocks
                      !! toKey (tree_x tree) y (tree_z tree) = Some wood).
    { rewrite placeTrunk_lookup. rewrite decide_True; [done|lia]. }
    unfold isWood. rewrite Hwood, bool_decide_eq_true_2 by done.
    by rewrite andb_false_r.
  - rewrite placeTreeWith_lookup. cbv zeta. by rewrite decide_True.
Qed.

(** A tree of another column leaves wood wood and leaves leaves. *)
Lemma placeTree_other blocks tree x y z t :
  (x, z) ≠ (tree_x tree, tree_z tree) →
  t = wood ∨ t = leaves →
  blocks !! toKey x y z = Some t →
  placeTree noise2D_c blocks tree !! toKey x y z = Some t.
Proof.
  intros Hcol Ht Hkey. unfold placeTree. rewrite placeTreeWith_lookup. cbv zeta.
  rewrite decide_False
    by (rewrite toKey_inj; intros (-> & _ & ->); by destruct Hcol).
  assert (Hsame : placeTrunk tree (trunkHeightOf noise2D_c tree) blocks
                    !! toKey x y z = Some t).
  { rewrite placeTrunk_lookup. rewrite decide_False; [done|].
    intros (-> & -> & _). by destruct Hcol. }
  unfold isWood. rewrite Hsame. destruct Ht as [-> | ->].
  - rewrite bool_decide_eq_true_2 by done. by rewrite andb_false_r.
  - by destruct (_ && _).
Qed.

Lemma placeTrees_stand trees blocks tree :
  tree ∈ trees →
  Forall (rooted noise2D) trees → rooted noise2D tree →
  let world := foldl (placeTree noise2D_c) blocks trees in
  let top := tree_h tree + trunkHeightOf noise2D_c tree in
  (∀ y, tree_h tree < y ≤ top →
        world !! toKey (tree_x tree) y (tree_z tree) = Some wood) ∧
  world !! toKey (tree_x tree) (top + 3) (tree_z tree) = Some leaves.
Proof.
  cbv zeta. intros Hin Hrooted Hroot.
  induction trees as [|tree' trees IH] using rev_ind;
    [by apply elem_of_nil in Hin|].
  apply Forall_app in Hrooted as [Hrooted Hroot'].
  apply Forall_inv in Hroot'.
  rewrite foldl_app. cbn [foldl].
  destruct (decide ((tree_x tree, tree_z tree) = (tree_x tree', tree_z tree')))
    as [Hcol|Hcol].
  - assert (tree' = tree) as ->.
    { injection Hcol as Hx Hz. unfold rooted in Hroot, Hroot'.
      destruct tree, tree'. cbn in *. congruence. }
    apply placeTree_own.
  - apply elem_of_app in Hin as [Hin|Hin];
      [|apply list_elem_of_singleton in Hin; by subst].
    destruct (IH Hin Hrooted) as [Htrunk Htop]. split.
    + intros y Hy. apply placeTree_other; [done|by left|by apply Htrunk].
    + apply placeTree_other; [done|by right|done].
Qed.
End Trees.

(** X25. Every tree the generator schedules stands in the finished world:
    on a column of the world of height 5 or more outside the desert that
    the tree noise picks, the trunk is wood from just above the ground up
    to its top, at least 4 blocks, and the block 3 above the top is
    leaves, whatever the trees around it. *)
Theorem scheduled_tree_stands
    (noise2D noise2D_b noise2D_c : number → number → number) (x z : Z) :
  - WORLD_SIZE ≤ x < WORLD_SIZE →
  - WORLD_SIZE ≤ z < WORLD_SIZE →
  5 ≤ getTerrainHeight noise2D x z →
  getBiome noise2D_b x z ≠ desert →
  shouldPlaceTree noise2D_c x z (getBiome noise2D_b x z) = true →
  let world := blocks (generateWorld noise2D noise2D_b noise2D_c) in
  let h := getTerrainHeight noise2D x z in
  let top := h + trunkHeightOf noise2D_c (mkTree x z h) in
  4 ≤ top - h ∧
  (∀ y, h < y ≤ top → world !! toKey x y z = Some wood) ∧
  world !! toKey x (top + 3) z = Some leaves.
Proof.
  intros Hx Hz Hh Hbiome Hnoise. cbv zeta.
  assert (Hroot : rooted noise2D (mkTree x z (getTerrainHeight noise2D x z)))
    by (unfold rooted; cbn [tree_h tree_x tree_z]; reflexivity).
  pose proof (trunkHeightOf_ge noise2D_c
                (mkTree x z (getTerrainHeight noise2D x z))) as Hth.
  split; [lia|].
  assert (Hin : mkTree x z (getTerrainHeight noise2D x z) ∈ gen_treePositions
                  (generateColumns noise2D noise2D_b noise2D_c (mkGen ∅ ∅ []))).
  { apply scheduled_trees. exists x, z. repeat split; try done; try lia.
    unfold growsTree. cbv zeta. rewrite Hnoise.
    rewrite bool_decide_eq_true_2 by lia.
    by rewrite bool_decide_eq_false_2. }
  assert (Hrooted : Forall (rooted noise2D)
                      (gen_treePositions
                         (generateColumns noise2D noise2D_b noise2D_c (mkGen ∅ ∅ [])))).
  { apply Forall_forall. intros tree' Htree'.
    apply scheduled_trees in Htree' as (x' & z' & _ & _ & _ & ->).
    unfold rooted. cbn [tree_h tree_x tree_z]. reflexivity. }
  pose proof (placeTrees_stand noise2D noise2D_c _
                (gen_blocks (generateColumns noise2D noise2D_b noise2D_c
                               (mkGen ∅ ∅ [])))
                _ Hin Hrooted Hroot) as Hstand.
  cbv zeta in Hstand. cbn [tree_h tree_x tree_z] in Hstand.
  destruct Hstand as [Htrunk Htop]. split.
  - intros y Hy. unfold generateWorld. cbv zeta. cbn [blocks]. apply Htrunk, Hy.
  - unfold generateWorld. cbv zeta. cbn [blocks]. apply Htop.
Qed.

Lemma scheduled_tree_stands_witness :
  let world := blocks (generateWorld flatNoise flatNoise oneNoise) in
  let h := getTerrainHeight flatNoise 0 0 in
  let top := h + trunkHeightOf oneNoise (mkTree 0 0 h) in
  4 ≤ top - h ∧
  (∀ y, h < y ≤ top → world !! toKey 0 y 0 = Some wood) ∧
  world !! toKey 0 (top + 3) 0 = Some leaves.
Proof.
  apply (scheduled_tree_stands flatNoise flatNoise oneNoise 0 0).
  - unfold WORLD_SIZE. lia.
  - unfold WORLD_SIZE. lia.
  - vm_compute. discriminate.
  - vm_compute. discriminate.
  - vm_compute. reflexivity.
Defined.

(** ** The game loop: a player at rest *)

Lemma has_empty code : has ∅ code = false.
Proof. unfold has. by rewrite bool_decide_eq_false_2 by set_solver. Qed.

(** With no key held and no velocity, a frame gives a flying player no
    velocity and a walking player the fall of one frame. *)
Lemma updateVelocity_idle Math_sqrt Math_pow input delta p :
  keys input = ∅ → velocity p = mkV3 0%Qc 0%Qc 0%Qc →
  updateVelocity Math_sqrt Math_pow input delta p =
  if isFlying input then (mkV3 0%Qc 0%Qc 0%Qc, onGround p)
  else
    let velY := (0 - GRAVITY * delta)%Qc in
    (mkV3 0%Qc (if ltb velY (ofZ (-40)) then ofZ (-40) else velY) 0%Qc, onGround p).
Proof.
  intros Hkeys Hvel. unfold updateVelocity. rewrite Hkeys, Hvel, !has_empty.
  cbv zeta. cbn [andb v_x v_y v_z].
  destruct (isFlying input); cbn [negb];
    destruct (ltb 0%Qc (Math_sqrt _)); f_equal; f_equal;
    unfold Qcdiv; ring.
Qed.

(** A move by no velocity along an axis is a move to the same place. *)
Lemma stay (a delta : number) : (a + 0 * delta)%Qc = a.
Proof. ring. Qed.

Lemma moveAndCollide_still blocks delta pos grounded :
  (1 ≤ v_y pos)%Qc →
  let p' := moveAndCollide blocks delta pos (mkV3 0%Qc 0%Qc 0%Qc) grounded in
  position p' = pos ∧ velocity p' = mkV3 0%Qc 0%Qc 0%Qc.
Proof.
  intros Hy. cbv zeta. unfold moveAndCollide. cbn [v_x v_y v_z].
  rewrite !stay. destruct pos as [x y z]. cbn [v_x v_y v_z] in *.
  assert (Hfloor : ltb y 1%Qc = false)
    by (apply bool_decide_eq_false_2; by apply Qcle_not_lt).
  destruct (checkCollision blocks x y z) eqn:Hhere;
    repeat (cbv beta iota zeta; cbn [negb v_x v_y v_z];
            rewrite ?stay, ?Hhere, ?Hfloor);
    done.
Qed.

(** X27. A player at rest stays at rest.  With the pointer locked, no key
    held, no velocity and the camera at height 1 or more: flying, a frame
    leaves the position and the zero velocity as they are; walking, with
    the place free and the ground within the fall of one frame under it,
    a frame leaves the player where it stands, without velocity and
    grounded. *)
Theorem idle_player_rests (Math_sqrt : number → number)
    (Math_pow : number → number → number) (blocks : gmap Key BlockType)
    (input : FrameInput) (rawDelta : number) (p : Player) :
  pointerLocked input = true →
  keys input = ∅ →
  velocity p = mkV3 0%Qc 0%Qc 0%Qc →
  (1 ≤ v_y (position p))%Qc →
  let p' := useFrame Math_sqrt Math_pow blocks input rawDelta p in
  let delta := Math_min rawDelta (num (5 # 100)) in
  let pos := position p in
  (isFlying input = true →
   position p' = pos ∧ velocity p' = mkV3 0%Qc 0%Qc 0%Qc) ∧
  (isFlying input = false →
   (0 < rawDelta)%Qc →
   checkCollision blocks (v_x pos) (v_y pos) (v_z pos) = false →
   checkCollision blocks (v_x pos) (v_y pos - GRAVITY * delta * delta)%Qc (v_z pos)
   = true →
   p' = mkPlayer pos (mkV3 0%Qc 0%Qc 0%Qc) true).
Proof.
  intros Hlocked Hkeys Hvel Hy. cbv zeta. unfold useFrame.
  rewrite Hlocked. cbn [negb].
  set (delta := Math_min rawDelta (num (5 # 100))).
  rewrite (updateVelocity_idle Math_sqrt Math_pow input delta p Hkeys Hvel).
  split.
  - intros ->. by apply moveAndCollide_still.
  - intros -> Hraw Hfree Hground. cbv zeta.
    assert (Hd : (0 < delta ∧ delta ≤ num (5 # 100))%Qc).
    { subst delta. unfold Math_min. case_decide as Hcap.
      - split; [by vm_compute|apply Qcle_refl].
      - split; [done|]. by apply Qcnot_lt_le. }
    destruct Hd as [Hd0 Hd1].
    assert (Hfall : ltb (0 - GRAVITY * delta)%Qc (ofZ (-40)) = false).
    { apply bool_decide_eq_false_2. apply Qcle_not_lt. unfold GRAVITY.
      revert Hd1. qc2q. qconst. intros. lra. }
    assert (Hdown : ltb (0 - GRAVITY * delta)%Qc 0%Qc = true).
    { apply bool_decide_eq_true_2. unfold GRAVITY.
      revert Hd0. qc2q. qconst. intros. lra. }
    rewrite Hfall. destruct (position p) as [x y z] eqn:Hpos.
    cbn [v_x v_y v_z] in *.
    assert (Hfloor : ltb y 1%Qc = false)
      by (apply bool_decide_eq_false_2; by apply Qcle_not_lt).
    assert (Hfell : (y + (0 - GRAVITY * delta) * delta)%Qc
                    = (y - GRAVITY * delta * delta)%Qc) by ring.
    unfold moveAndCollide.
    repeat (cbv beta iota zeta; cbn [negb v_x v_y v_z];
            rewrite ?stay, ?Hfree, ?Hfell, ?Hground, ?Hdown, ?Hfloor).
    done.
Qed.

Lemma idle_player_rests_witness :
  let p := mkPlayer besideCamera (mkV3 0%Qc 0%Qc 0%Qc) true in
  let p' := useFrame sqrtQ powFrame floor2 idle (num (5 # 100)) p in
  let delta := Math_min (num (5 # 100)) (num (5 # 100)) in
  let pos := position p in
  (isFlying idle = true →
   position p' = pos ∧ velocity p' = mkV3 0%Qc 0%Qc 0%Qc) ∧
  (isFlying idle = false →
   (0 < num (5 # 100))%Qc →
   checkCollision floor2 (v_x pos) (v_y pos) (v_z pos) = false →
   checkCollision floor2 (v_x pos) (v_y pos - GRAVITY * delta * delta)%Qc (v_z pos)
   = true →
   p' = mkPlayer pos (mkV3 0%Qc 0%Qc 0%Qc) true).
Proof.
  apply (idle_player_rests sqrtQ powFrame floor2 idle (num (5 # 100))
           (mkPlayer besideCamera (mkV3 0%Qc 0%Qc 0%Qc) true)).
  - reflexivity.
  - reflexivity.
  - reflexivity.
  - by vm_compute.
Defined.

(** ** The render batch: the bounding box of a group *)

Lemma expandByPoint_grows box p :
  ∃ lo hi, expandByPoint box p = Some (lo, hi) ∧ within 0 lo hi p ∧
           ∀ lo0 hi0 q, box = Some (lo0, hi0) → within 0 lo0 hi0 q →
                        within 0 lo hi q.
Proof.
  destruct p as [[px py] pz].
  destruct box as [[[[x0 y0] z0] [[x1 y1] z1]]|]; cbn [expandByPoint].
  - eexists _, _. split; [done|]. split; [unfold within; lia|].
    intros lo0 hi0 [[qx qy] qz] [= <- <-]. unfold within. lia.
  - eexists _, _. split; [done|]. split; [unfold within; lia|]. done.
Qed.

Lemma foldl_expandByPoint matrices box lo0 hi0 :
  box = Some (lo0, hi0) →
  ∃ lo hi, foldl expandByPoint box matrices = Some (lo, hi) ∧
           Forall (within 0 lo hi) matrices ∧
           ∀ q, within 0 lo0 hi0 q → within 0 lo hi q.
Proof.
  revert box lo0 hi0. induction matrices as [|p matrices IH];
    intros box lo0 hi0 Hbox.
  - exists lo0, hi0. cbn [foldl]. by repeat split.
  - cbn [foldl].
    destruct (expandByPoint_grows box p) as (lo1 & hi1 & Hexp & Hp & Hkeep).
    destruct (IH _ lo1 hi1 Hexp) as (lo & hi & Hfold & Hall & Hgrow).
    exists lo, hi. split; [done|]. split.
    + constructor; [by apply Hgrow|done].
    + intros q Hq. apply Hgrow. by apply (Hkeep lo0 hi0).
Qed.

Lemma boundingBox_contains matrices :
  matrices ≠ [] →
  ∃ lo hi, boundingBox matrices = Some (lo, hi) ∧ Forall (within 1 lo hi) matrices.
Proof.
  intros Hne. unfold boundingBox. cbv zeta.
  destruct matrices as [|p matrices]; [done|].
  rewrite decide_False by done. cbn [foldl].
  destruct (expandByPoint_grows None p) as (lo1 & hi1 & Hexp & Hp & _).
  destruct (foldl_expandByPoint matrices _ lo1 hi1 Hexp)
    as (lo & hi & -> & Hall & Hgrow).
  destruct lo as [[x0 y0] z0], hi as [[x1 y1] z1]. cbn [expandByScalar].
  eexists _, _. split; [done|].
  assert (Hwider : ∀ q, within 0 (x0, y0, z0) (x1, y1, z1) q →
                        within 1 (x0 - 1, y0 - 1, z0 - 1) (x1 + 1, y1 + 1, z1 + 1) q).
  { intros [[qx qy] qz]. unfold within. lia. }
  constructor; [by apply Hwider, Hgrow|].
  eapply Forall_impl; [exact Hall|]. exact Hwider.
Qed.

(** X26. Every group [ChunkMesh] hands to [InstancedBlocks] gets a
    bounding box, and the box holds every instance of the group at least
    1 from each of its faces: the whole unit cube of each block of the
    group lies inside. *)
Theorem group_inside_bounding_box (blocks : gmap Key BlockType)
    (type : BlockType) (matrices : list (Z * Z * Z)) :
  meshGroups blocks !! type = Some matrices →
  ∃ lo hi, boundingBox matrices = Some (lo, hi) ∧ Forall (within 1 lo hi) matrices.
Proof.
  intros Hgroup. apply boundingBox_contains. intros ->.
  eapply (meshGroups_foldl_nonempty blocks (map_to_list blocks) ∅);
    [|exact Hgroup|done].
  intros t l. by rewrite lookup_empty.
Qed.

Lemma group_inside_bounding_box_witness :
  ∃ lo hi, boundingBox [(0, 0, 0)] = Some (lo, hi) ∧
           Forall (within 1 lo hi) [(0, 0, 0)].
Proof.
  apply (group_inside_bounding_box oneStone stone [(0, 0, 0)]).
  vm_compute. reflexivity.
Defined.

(** ** The generated world in the render batch *)

(** Nothing of the finished world lies under a column of positive
    height. *)
Lemma world_nothing_below noise2D noise2D_b noise2D_c x z :
  - WORLD_SIZE ≤ x < WORLD_SIZE → - WORLD_SIZE ≤ z < WORLD_SIZE →
  0 ≤ getTerrainHeight noise2D x z →
  blocks (generateWorld noise2D noise2D_b noise2D_c) !! toKey x (0 - 1) z = None.
Proof.
  intros Hx Hz Hh. unfold generateWorld. cbv zeta. cbn [blocks].
  rewrite placeTrees_below.
  - rewrite world_columns_lookup by done. repeat case_decide; (done || lia).
  - eapply Forall_impl; [apply generateColumns_trees; constructor|].
    cbn. intros tree Htree. lia.
Qed.

(** X28. Face culling never spares the floor: for samplers with values in
    [-1, 1] the bedrock block at y = 0 of every column of the finished
    world is in the render batch, its face below being open. *)
Theorem bedrock_floor_always_rendered
    (noise2D noise2D_b noise2D_c : number → number → number) (x z : Z) :
  (∀ a b, (-1 ≤ noise2D a b ∧ noise2D a b ≤ 1)%Qc) →
  - WORLD_SIZE ≤ x < WORLD_SIZE →
  - WORLD_SIZE ≤ z < WORLD_SIZE →
  let world := blocks (generateWorld noise2D noise2D_b noise2D_c) in
  world !! toKey x 0 z = Some bedrock ∧ inBatch world (x, 0, z).
Proof.
  intros Hrange Hx Hz. cbv zeta.
  pose proof (getTerrainHeight_range noise2D Hrange x z) as Hh.
  assert (Hfloor : blocks (generateWorld noise2D noise2D_b noise2D_c)
                     !! toKey x 0 z = Some bedrock).
  { unfold generateWorld. cbv zeta. cbn [blocks]. rewrite placeTrees_below.
    - rewrite world_columns_lookup by done. repeat case_decide; (done || lia).
    - eapply Forall_impl; [apply generateColumns_trees; constructor|].
      cbn. intros tree Htree. lia. }
  split; [done|]. apply inBatch_spec. split; [by rewrite Hfloor|].
  apply hasExposedFace_spec. exists (toKey x (0 - 1) z). split.
  - unfold faceNeighbors. by repeat constructor.
  - left. apply world_nothing_below; (done || lia).
Qed.

Lemma bedrock_floor_always_rendered_witness :
  let world := blocks (generateWorld flatNoise flatNoise flatNoise) in
  world !! toKey 0 0 0 = Some bedrock ∧ inBatch world (0, 0, 0).
Proof.
  apply (bedrock_floor_always_rendered flatNoise flatNoise flatNoise 0 0).
  - exact flatNoise_range.
  - unfold WORLD_SIZE. lia.
  - unfold WORLD_SIZE. lia.
Defined.
